(** * PhotoMigrator web layer: job store, queue worker and Config.ini schema engine

    A shallow embedding of [web/jobs.py], [web/runner.py], [web/main.py] and
    [web/config_ini.py], followed by the properties of the specification
    that were checked against it.

    Conventions of the embedding.
    - A Python [str] is a Rocq [string]; its characters are the code points
      below 256.
    - A Python [dict] whose iteration order is observable is an association
      list in insertion order ([dict_set] replaces in place or appends);
      the job registry [_jobs], which is only looked up, is a [gmap].
    - The wall clock and the UUID generator are oracles: [utcnow n] is the
      value returned by the [n]-th call of [datetime.utcnow()] and [uuid4 n]
      the [n]-th identifier drawn; the store counts the calls made so far.
    - The migration engine ([Core.*]) is outside the repository's web layer;
      its entry points are the fields of a record [Core] over which the
      runner is parameterised. *)

From Stdlib Require Import ZArith Ascii String List Bool Lia.
From stdpp Require Import base gmap strings list pretty.

Local Open Scope Z_scope.

(** ** Python helpers *)

(** Python dictionaries with string keys, in insertion order. *)
Section pydict.
Context {V : Type}.

Fixpoint dict_get (k : string) (d : list (string * V)) : option V :=
    match d with
    | [] => None
    | (k', v) :: d' => if decide (k = k') then Some v else dict_get k d'
    end.

Definition dict_contains (k : string) (d : list (string * V)) : bool :=
    bool_decide (is_Some (dict_get k d)).

(** [d[k] = v]: an existing key keeps its position. *)
Fixpoint dict_set (k : string) (v : V) (d : list (string * V)) : list (string * V) :=
    match d with
    | [] => [(k, v)]
    | (k', v') :: d' =>
        if decide (k = k') then (k, v) :: d' else (k', v') :: dict_set k v d'
    end.

(** [d[k]] is replaced by [f d[k]]; nothing happens without the key. *)
Fixpoint dict_alter (f : V -> V) (k : string) (d : list (string * V)) : list (string * V) :=
    match d with
    | [] => []
    | (k', v') :: d' =>
        if decide (k = k') then (k', f v') :: d' else (k', v') :: dict_alter f k d'
    end.

(** [dict(pairs)] and dictionary comprehensions: later entries win. *)
Definition dict_of_pairs (ps : list (string * V)) : list (string * V) :=
    foldl (fun d kv => dict_set kv.1 kv.2 d) [] ps.
End pydict.

(** Python strings. *)

(** [str.isspace] on one character: the whitespace code points below 256. *)
Definition isspace (c : ascii) : bool :=
  let n := N_of_ascii c in
  ((9 <=? n) && (n <=? 13) || (28 <=? n) && (n <=? 32)
   || (n =? 133) || (n =? 160))%N.

Fixpoint lstrip (s : string) : string :=
  match s with
  | EmptyString => EmptyString
  | String c s' => if isspace c then lstrip s' else s
  end.

Fixpoint rstrip (s : string) : string :=
  match s with
  | EmptyString => EmptyString
  | String c s' =>
      match rstrip s' with
      | EmptyString => if isspace c then EmptyString else String c EmptyString
      | r => String c r
      end
  end.

Definition strip (s : string) : string := lstrip (rstrip s).

(** [s[:i]] where [i = s.find(c)], and [s] itself when [c] does not occur. *)
Fixpoint before_char (c : ascii) (s : string) : string :=
  match s with
  | EmptyString => EmptyString
  | String a s' => if decide (a = c) then EmptyString else String a (before_char c s')
  end.

(** [s.replace(a, b)] for one-character [a] and [b]. *)
Fixpoint replace_char (a b : ascii) (s : string) : string :=
  match s with
  | EmptyString => EmptyString
  | String c s' => String (if decide (c = a) then b else c) (replace_char a b s')
  end.

Fixpoint skip (n : nat) (s : string) : string :=
  match n, s with
  | O, _ => s
  | S n', String _ s' => skip n' s'
  | S _, EmptyString => EmptyString
  end.

(** [s.startswith(pre)]. *)
Fixpoint startswith (s pre : string) : bool :=
  match pre with
  | EmptyString => true
  | String a pre' =>
      match s with
      | EmptyString => false
      | String b s' => bool_decide (a = b) && startswith s' pre'
      end
  end.

(** [needle in s]. *)
Fixpoint contains (needle s : string) : bool :=
  startswith s needle
  || match s with
     | EmptyString => false
     | String _ s' => contains needle s'
     end.

(** [s.split(sep, 1)] when [sep] occurs in [s]: the text before and after
    the first occurrence; [None] when [sep] does not occur. *)
Fixpoint split_once (sep s : string) : option (string * string) :=
  if startswith s sep then Some (EmptyString, skip (String.length sep) s)
  else match s with
       | EmptyString => None
       | String c s' =>
           match split_once sep s' with
           | Some (a, b) => Some (String c a, b)
           | None => None
           end
       end.

(** ["\n".join(lines)]. *)
Fixpoint join_lines (lines : list string) : string :=
  match lines with
  | [] => EmptyString
  | [l] => l
  | l :: ls => l +:+ String "010" (join_lines ls)
  end.

(** [str.lower] and [str.upper]. Below 256 the letters are [A-Z], [a-z]
    and the Latin-1 letters 192-222 / 224-254 (without the signs 215 and
    247); the capital of 223 is ["SS"]. The capitals of 181 and 255 lie
    above 255 and are no ASCII characters: they are left in place, which
    does not change any test for an ASCII substring. *)
Definition lower_char (c : ascii) : ascii :=
  let n := N_of_ascii c in
  if ((65 <=? n) && (n <=? 90)
      || (192 <=? n) && (n <=? 222) && negb (n =? 215))%N
  then ascii_of_N (n + 32) else c.

Definition upper_char (c : ascii) : string :=
  let n := N_of_ascii c in
  if ((97 <=? n) && (n <=? 122)
      || (224 <=? n) && (n <=? 254) && negb (n =? 247))%N
  then String (ascii_of_N (n - 32)) EmptyString
  else if (n =? 223)%N then "SS"
  else String c EmptyString.

Fixpoint lower (s : string) : string :=
  match s with
  | EmptyString => EmptyString
  | String c s' => String (lower_char c) (lower s')
  end.

Fixpoint upper (s : string) : string :=
  match s with
  | EmptyString => EmptyString
  | String c s' => upper_char c +:+ upper s'
  end.

(** [l[start:]] for an arbitrary Python integer [start]. *)
Definition slice_from {A : Type} (start : Z) (l : list A) : list A :=
  let n := Z.of_nat (length l) in
  let s := if start <? 0 then Z.max (start + n) 0 else Z.min start n in
  drop (Z.to_nat s) l.

(** ** [web/jobs.py] *)

Inductive JobStatus : Set := PENDING | RUNNING | DONE | FAILED.

Global Instance JobStatus_eq_dec : EqDecision JobStatus.
Proof. solve_decision. Defined.

Definition JobStatus_value (s : JobStatus) : string :=
  match s with
  | PENDING => "pending"
  | RUNNING => "running"
  | DONE => "done"
  | FAILED => "failed"
  end.

Module Job.
Record t : Type := mk {
    id : string;
    mode : string;
    status : JobStatus;
    created_at : Z;
    updated_at : Z;
    log_lines : list string;
    error : option string;
    result_summary : option string;
  }.

(** The dictionary built by [Job.to_dict]; timestamps are kept as read
      from the clock instead of their ISO rendering. *)
Record dict : Type := mk_dict {
    d_id : string;
    d_mode : string;
    d_status : string;
    d_created_at : Z;
    d_updated_at : Z;
    d_log_lines_count : nat;
    d_error : option string;
    d_result_summary : option string;
  }.

Definition to_dict (self : t) : dict :=
    {| d_id := id self;
       d_mode := mode self;
       d_status := JobStatus_value (status self);
       d_created_at := created_at self;
       d_updated_at := updated_at self;
       d_log_lines_count := length (log_lines self);
       d_error := error self;
       d_result_summary := result_summary self |}.
End Job.

Module jobs.

(** The module globals [_jobs] and [_job_order], the number of clock
      reads and UUID draws made so far, and [status_writes], the
      chronological record of every assignment to a job's [status] field
      (a history variable: no operation reads it). *)
Record Store : Type := mkStore {
    _jobs : gmap string Job.t;
    _job_order : list string;
    clock_reads : nat;
    uuid_draws : nat;
    status_writes : list (string * JobStatus);
  }.

Definition empty : Store :=
    {| _jobs := ∅; _job_order := []; clock_reads := 0; uuid_draws := 0;
       status_writes := [] |}.

Section ops.
Variable utcnow : nat -> Z.
Variable uuid4 : nat -> string.

Definition create_job (mode : string) (st : Store) : Job.t * Store :=
      let job_id := uuid4 (uuid_draws st) in
      let now := utcnow (clock_reads st) in
      let job :=
        {| Job.id := job_id; Job.mode := mode; Job.status := PENDING;
           Job.created_at := now; Job.updated_at := now;
           Job.log_lines := []; Job.error := None;
           Job.result_summary := None |} in
      (job,
       {| _jobs := <[job_id := job]> (_jobs st);
          _job_order := _job_order st ++ [job_id];
          clock_reads := S (clock_reads st);
          uuid_draws := S (uuid_draws st);
          status_writes := status_writes st ++ [(job_id, PENDING)] |}).

Definition get_job (job_id : string) (st : Store) : option Job.t :=
      _jobs st !! job_id.

(** [limit = None] is the call without the argument (default 50). *)
Definition list_jobs (limit : option Z) (st : Store) : list Job.t :=
      let limit := default 50 limit in
      let order :=
        if bool_decide (limit <> 0) then slice_from (- limit) (_job_order st)
        else _job_order st in
      let order := reverse order in
      omap (fun jid => _jobs st !! jid) order.

Definition update_job_status (job_id : string) (status : JobStatus)
        (error result_summary : option string) (st : Store) : Store :=
      match _jobs st !! job_id with
      | Some job =>
          let job' :=
            {| Job.id := Job.id job; Job.mode := Job.mode job;
               Job.status := status;
               Job.created_at := Job.created_at job;
               Job.updated_at := utcnow (clock_reads st);
               Job.log_lines := Job.log_lines job;
               Job.error :=
                 match error with Some e => Some e | None => Job.error job end;
               Job.result_summary :=
                 match result_summary with
                 | Some r => Some r
                 | None => Job.result_summary job
                 end |} in
          {| _jobs := <[job_id := job']> (_jobs st);
             _job_order := _job_order st;
             clock_reads := S (clock_reads st);
             uuid_draws := uuid_draws st;
             status_writes := status_writes st ++ [(job_id, status)] |}
      | None => st
      end.

Definition append_job_log (job_id : string) (line : string) (st : Store) : Store :=
      match _jobs st !! job_id with
      | Some job =>
          let job' :=
            {| Job.id := Job.id job; Job.mode := Job.mode job;
               Job.status := Job.status job;
               Job.created_at := Job.created_at job;
               Job.updated_at := utcnow (clock_reads st);
               Job.log_lines := Job.log_lines job ++ [line];
               Job.error := Job.error job;
               Job.result_summary := Job.result_summary job |} in
          {| _jobs := <[job_id := job']> (_jobs st);
             _job_order := _job_order st;
             clock_reads := S (clock_reads st);
             uuid_draws := uuid_draws st;
             status_writes := status_writes st |}
      | None => st
      end.
End ops.

(** The values successively written to the [status] field of [job_id]. *)
Definition status_history (job_id : string) (st : Store) : list JobStatus :=
    (filter (fun e => e.1 = job_id) (status_writes st)).*2.
End jobs.

(** ** [web/runner.py] *)

(** The values found in [ARGS] and in request bodies. *)
#[warnings="-register-all"]
Inductive value : Type :=
  | VNone
  | VBool (b : bool)
  | VInt (z : Z)
  | VStr (s : string)
  | VList (l : list value).

(** Python truth value. *)
Definition truthy (v : value) : bool :=
  match v with
  | VNone => false
  | VBool b => b
  | VInt z => bool_decide (z <> 0)
  | VStr s => bool_decide (s <> "")
  | VList l => bool_decide (l <> [])
  end.

Definition Args : Type := list (string * value).

(** Exceptions, by the class distinctions that the clauses
    [except ValueError] and [except Exception] make: [ValueError]; any
    other subclass of [Exception]; and the exceptions outside [Exception]
    ([SystemExit], [KeyboardInterrupt], [GeneratorExit]), which neither
    clause catches. [str e] is the message. *)
Inductive exn : Type :=
  | ValueError (msg : string)
  | Exception (msg : string)
  | BaseException (msg : string).

Definition str (e : exn) : string :=
  match e with ValueError m | Exception m | BaseException m => m end.

(** [isinstance(e, Exception)]. *)
Definition is_Exception (e : exn) : bool :=
  match e with BaseException _ => false | _ => true end.

(** A record of the [logging] module, reduced to what the formatter
    [%(asctime)s [%(levelname)s] %(message)s] reads: the formatted time,
    the level name, the result of [getMessage()] ([None] when merging the
    arguments into the message raises), the traceback text [exc_text] (the
    cached text or [formatException(exc_info)]; empty without exception
    information) and [stack_info] (empty when it is not set). *)
Record LogRecord : Type := mkLogRecord {
  asctime : string;
  levelname : string;
  getMessage : option string;
  exc_text : string;
  stack_info : string;
}.

(** [s[-1:] == "\n"]. *)
Fixpoint ends_with_newline (s : string) : bool :=
  match s with
  | EmptyString => false
  | String c EmptyString => bool_decide (c = "010"%char)
  | String _ s' => ends_with_newline s'
  end.

(** The steps of [Formatter.format] that append the traceback and the
    stack text, each on a line of its own. *)
Definition append_block (s block : string) : string :=
  if bool_decide (block <> "") then
    (if ends_with_newline s then s else s +:+ String "010" EmptyString)
    +:+ block
  else s.

(** [Formatter.format]; [None] when [getMessage()] raises. *)
Definition format (r : LogRecord) : option string :=
  match getMessage r with
  | Some message =>
      let s := asctime r +:+ " [" +:+ levelname r +:+ "] " +:+ message in
      let s := append_block s (exc_text r) in
      let s := append_block s (stack_info r) in
      Some s
  | None => None
  end.

(** The collaborators imported from [Core]. Each entry point reads the
    arguments assigned to [GV.ARGS]; an execution mode returns the records
    it sent to [GV.LOGGER] and, when it raised, the exception. *)
Record Core : Type := mkCore {
  import_core : option exn;
  checkArgs : Args -> Args * option exn;
  set_GLOBAL_VARIABLES : Args -> option exn;
  set_LOGGER : Args -> option exn;
  set_HELP_TEXTS : Args -> option exn;
  mode_google_takeout : Args -> bool -> list LogRecord * option exn;
  mode_AUTOMATIC_MIGRATION : Args -> value -> list LogRecord * option exn;
}.

(** What the runner does to the process besides the job store; a history
    variable like [status_writes]. *)
Inductive Event : Type :=
  | HandlerAdded (job_id : string)
  | HandlerRemoved (job_id : string)
  | EngineInvoked (mode : string) (ARGS : Args).

Module runner.

(** The job store, the [_JobLogHandler] instances currently attached to
      [GV.LOGGER] (each by the job id its callback is bound to, oldest
      first), and the events so far. *)
Record World : Type := mkWorld {
    store : jobs.Store;
    handlers : list string;
    events : list Event;
  }.

Definition initial : World :=
    {| store := jobs.empty; handlers := []; events := [] |}.

(** Computations that read and write the world and may raise. *)
Inductive Res (A : Type) : Type :=
    | Ret (a : A)
    | Raise (e : exn).
Arguments Ret {A} a.
Arguments Raise {A} e.

Definition M (A : Type) : Type := World -> Res A * World.

Definition ret {A} (a : A) : M A := fun w => (Ret a, w).
Definition raise {A} (e : exn) : M A := fun w => (Raise e, w).
Definition bind {A B} (m : M A) (k : A -> M B) : M B :=
    fun w => match m w with
             | (Ret a, w') => k a w'
             | (Raise e, w') => (Raise e, w')
             end.
(** [try: body / except Exception as e: handler e]; an exception that
      is no instance of [Exception] passes through. *)
Definition try_except {A} (body : M A) (handler : exn -> M A) : M A :=
    fun w => match body w with
             | (Ret a, w') => (Ret a, w')
             | (Raise e, w') =>
                 if is_Exception e then handler e w' else (Raise e, w')
             end.
(** [try: body / finally: final]. *)
Definition try_finally {A} (body : M A) (final : M unit) : M A :=
    fun w => match body w with
             | (r, w') =>
                 match final w' with
                 | (Ret _, w'') => (r, w'')
                 | (Raise e, w'') => (Raise e, w'')
                 end
             end.
(** A collaborator that returns nothing. *)
Definition call (r : option exn) : M unit :=
    match r with None => ret tt | Some e => raise e end.
Definition with_store (f : jobs.Store -> jobs.Store) (w : World) : World :=
    {| store := f (store w); handlers := handlers w; events := events w |}.
Definition on_store (f : jobs.Store -> jobs.Store) : M unit :=
    fun w => (Ret tt, with_store f w).
Definition log_event (ev : Event) : M unit :=
    fun w => (Ret tt, {| store := store w; handlers := handlers w;
                         events := events w ++ [ev] |}).

Notation "x <- m ;; k" := (bind m (fun x => k))
    (at level 100, m at next level, right associativity).
Notation "m ;; k" := (bind m (fun _ => k))
    (at level 100, right associativity).

Section run.
Variable utcnow : nat -> Z.
Variable core : Core.
(** [os.environ.get("PHOTOMIGRATOR_CONFIG_PATH", "")] and
        [str(PROJECT_ROOT / "Config.ini")]. *)
Variable environ_config_path : string.
Variable project_config_ini : string.

Definition _default_args : Args :=
      [ ("configuration-file",
         VStr (if bool_decide (environ_config_path <> "")
               then environ_config_path else project_config_ini));
        ("no-request-user-confirmation", VBool true);
        ("no-log-file", VBool false);
        ("log-level", VStr "info");
        ("log-format", VStr "log");
        ("date-separator", VStr "-");
        ("range-separator", VStr "--");
        ("foldername-albums", VStr "");
        ("foldername-no-albums", VStr "");
        ("foldername-logs", VStr "");
        ("foldername-duplicates-output", VStr "");
        ("foldername-extracted-dates", VStr "");
        ("exec-gpth-tool", VStr "");
        ("exec-exif-tool", VStr "");
        ("input-folder", VStr "");
        ("output-folder", VStr "");
        ("client", VStr "google-takeout");
        ("account-id", VInt 1);
        ("filter-from-date", VNone);
        ("filter-to-date", VNone);
        ("filter-by-type", VNone);
        ("filter-by-country", VNone);
        ("filter-by-city", VNone);
        ("filter-by-person", VNone);
        ("albums-folders", VList []);
        ("remove-albums-assets", VBool false);
        ("source", VStr "");
        ("target", VStr "");
        ("move-assets", VBool false);
        ("dashboard", VBool true);
        ("parallel-migration", VBool true);
        ("google-takeout", VStr "");
        ("google-output-folder-suffix", VStr "processed");
        ("google-albums-folders-structure", VStr "flatten");
        ("google-no-albums-folders-structure", VStr "year/month");
        ("google-ignore-check-structure", VBool false);
        ("google-no-symbolic-albums", VBool false);
        ("google-remove-duplicates-files", VBool false);
        ("google-rename-albums-folders", VBool false);
        ("google-skip-extras-files", VBool false);
        ("google-skip-move-albums", VBool false);
        ("google-skip-gpth-tool", VBool false);
        ("google-skip-preprocess", VBool false);
        ("google-skip-postprocess", VBool false);
        ("google-keep-takeout-folder", VBool false);
        ("show-gpth-info", VBool true);
        ("show-gpth-errors", VBool true);
        ("gpth-no-log", VBool false);
        ("upload-albums", VStr "");
        ("download-albums", VList []);
        ("upload-all", VStr "");
        ("download-all", VStr "");
        ("rename-albums", VList []);
        ("remove-albums", VStr "");
        ("remove-all-albums", VBool false);
        ("remove-all-assets", VBool false);
        ("remove-empty-albums", VBool false);
        ("remove-duplicates-albums", VBool false);
        ("merge-duplicates-albums", VBool false);
        ("remove-orphan-assets", VBool false);
        ("one-time-password", VBool false);
        ("fix-symlinks-broken", VStr "");
        ("rename-folders-content-based", VStr "");
        ("find-duplicates", VList [VStr "list"; VStr ""]);
        ("process-duplicates", VStr "");
        ("google-input-zip-folder", VNone);
        ("AUTOMATIC-MIGRATION", VNone);
        ("duplicates-folders", VList []);
        ("duplicates-action", VStr "list") ].

Definition _merge_api_args (default api_args : Args) : Args :=
      foldl (fun out kv =>
               if dict_contains kv.1 out then dict_set kv.1 kv.2 out else out)
            default api_args.

(** The normalisation of ["find-duplicates"]; [ARGS.get] of a missing
        key is [None]. *)
Definition normalize_find_duplicates (api_body ARGS : Args) : Args :=
      if dict_contains "find-duplicates" api_body then
        let fd := default VNone (dict_get "find-duplicates" ARGS) in
        match fd with
        | VList _ => dict_set "find-duplicates" fd ARGS
        | _ =>
            dict_set "find-duplicates"
              (if truthy fd then VList [VStr "list"; fd]
               else VList [VStr "list"; VStr ""]) ARGS
        end
      else ARGS.

(** [_JobLogHandler.emit]: the formatted record goes to the callback,
        which is [jobs.append_job_log job_id]; when formatting raises,
        [handleError] reports to [sys.stderr] and nothing is appended. *)
Definition emit (job_id : string) (record : LogRecord) : M unit :=
      match format record with
      | Some msg => on_store (jobs.append_job_log utcnow job_id msg)
      | None => ret tt
      end.

(** [GV.LOGGER] hands a record to every attached handler. *)
Definition logger_handle (record : LogRecord) : M unit :=
      fun w => foldl (fun rw h => (emit h record rw.2)) (Ret tt, w) (handlers w).

Definition addHandler (job_id : string) : M unit :=
      fun w => (Ret tt, {| store := store w; handlers := handlers w ++ [job_id];
                           events := events w ++ [HandlerAdded job_id] |}).

(** The handler just attached is the last one bound to [job_id]. *)
Fixpoint remove_last (job_id : string) (hs : list string) : list string :=
      match hs with
      | [] => []
      | h :: hs' =>
          if bool_decide (h = job_id) && bool_decide (job_id ∉ hs') then hs'
          else h :: remove_last job_id hs'
      end.

Definition removeHandler (job_id : string) : M unit :=
      fun w => (Ret tt, {| store := store w;
                           handlers := remove_last job_id (handlers w);
                           events := events w ++ [HandlerRemoved job_id] |}).

(** One execution mode of the engine: it runs, its records reach the
        handlers in emission order, and it returns or raises. *)
Definition invoke (mode : string) (ARGS : Args)
        (outcome : list LogRecord * option exn) : M unit :=
      log_event (EngineInvoked mode ARGS) ;;
      (fun w => (Ret tt, foldl (fun w r => (logger_handle r w).2) w outcome.1)) ;;
      call outcome.2.

(** The arguments that [run_mode] hands to [checkArgs]. *)
Definition build_ARGS (api_body : Args) : Args :=
      normalize_find_duplicates api_body (_merge_api_args _default_args api_body).

(** The outcome of the execution mode that [run_mode] selects for
        [mode]; [None] when [mode] names no execution mode. *)
Definition engine_outcome (mode : string) (ARGS : Args)
        : option (list LogRecord * option exn) :=
      if bool_decide (mode = "google-takeout") then
        Some (mode_google_takeout core ARGS false)
      else if bool_decide (mode = "automatic-migration") then
        Some (mode_AUTOMATIC_MIGRATION core ARGS
                (default (VBool true) (dict_get "show-gpth-info" ARGS)))
      else None.

(** A sequence of [append_job_log] calls, and the calls that result
        from sending [records] to the handlers [hs]. *)
Definition apply_appends (ops : list (string * string)) (st : jobs.Store)
        : jobs.Store :=
      foldl (fun st op => jobs.append_job_log utcnow op.1 op.2 st) st ops.

Definition deliveries (hs : list string) (records : list LogRecord)
        : list (string * string) :=
      msg ← omap format records; (fun h => (h, msg)) <$> hs.

(** The world after the clause [except Exception as e] of [run_mode]. *)
Definition failed_with (job_id : string) (e : exn) (w : World) : World :=
      with_store
        (jobs.update_job_status utcnow job_id FAILED (Some (str e)) None)
        (with_store
           (jobs.append_job_log utcnow job_id ("Error: " +:+ str e)) w).

Definition run_mode (job_id mode : string) (api_body : Args) : M unit :=
      on_store (jobs.update_job_status utcnow job_id RUNNING None None) ;;
      try_except
        (call (import_core core) ;;
         let ARGS := _merge_api_args _default_args api_body in
         let ARGS := normalize_find_duplicates api_body ARGS in
         (* [Some ARGS]: validation passed; [None]: the [return] of the
            [except ValueError] clause was taken *)
         checked <-
           try_except
             (let '(ARGS', r) := checkArgs core ARGS in
              call r ;; ret (Some ARGS'))
             (fun e =>
                match e with
                | ValueError m =>
                    on_store (jobs.update_job_status utcnow job_id FAILED
                                (Some (str e)) None) ;;
                    ret None
                | _ => raise e
                end) ;;
         match checked with
         | None => ret tt
         | Some ARGS =>
             call (set_GLOBAL_VARIABLES core ARGS) ;;
             call (set_LOGGER core ARGS) ;;
             call (set_HELP_TEXTS core ARGS) ;;
             addHandler job_id ;;
             try_finally
               (if bool_decide (mode = "google-takeout") then
                  invoke mode ARGS (mode_google_takeout core ARGS false)
                else if bool_decide (mode = "automatic-migration") then
                  invoke mode ARGS
                    (mode_AUTOMATIC_MIGRATION core ARGS
                       (default (VBool true) (dict_get "show-gpth-info" ARGS)))
                else raise (ValueError ("Unknown mode: " +:+ mode)))
               (removeHandler job_id) ;;
             on_store (jobs.update_job_status utcnow job_id DONE None
                         (Some "Completed successfully"))
         end)
        (fun e =>
           on_store (jobs.append_job_log utcnow job_id ("Error: " +:+ str e)) ;;
           on_store (jobs.update_job_status utcnow job_id FAILED
                       (Some (str e)) None)).
End run.
End runner.

(** ** [web/schemas.py] *)

Module schemas.
(** [mode] is not used by the function. *)
Definition api_to_args (mode : string) (body : Args) : Args :=
    foldl (fun out kv => dict_set (replace_char "_" "-" kv.1) kv.2 out) [] body.
End schemas.

(** ** [web/main.py] *)

Module main.
Import runner.

(** A queue entry: [(job_id, mode, args_dict)], or [None] for the
      shutdown sentinel. *)
Definition Item : Type := option (string * string * Args).

Inductive Response (A : Type) : Type :=
    | OK (body : A)
    | HTTPException (status_code : Z) (detail : string).
Arguments OK {A} body.
Arguments HTTPException {A} status_code detail.

(** The process: the runner's world, the contents of [_job_queue]
      (oldest first) and whether the worker thread is still in its loop. *)
Record System : Type := mkSystem {
    world : World;
    _job_queue : list Item;
    worker_alive : bool;
  }.

Definition boot : System :=
    {| world := initial; _job_queue := []; worker_alive := true |}.

Section app.
Variable utcnow : nat -> Z.
Variable uuid4 : nat -> string.
Variable core : Core.
Variable environ_config_path : string.
Variable project_config_ini : string.

Let run_mode := run_mode utcnow core environ_config_path project_config_ini.
Let _default_args := _default_args environ_config_path project_config_ini.

(** One pass through the body of [while True] for the item that
        [_job_queue.get()] returned; the result tells whether [break] was
        taken. *)
Definition _worker_pass (item : Item) : M bool :=
      try_except
        (match item with
         | None => ret true
         | Some (job_id, mode, args_dict) =>
             run_mode job_id mode args_dict ;; ret false
         end)
        (fun _ => ret false).

(** The loop of [_worker] over the items that the queue delivers, in
        order. It stops at the sentinel and when an exception leaves the
        loop body (the thread ends), and waits in [get()] when the items
        are used up; the items not consumed are returned. *)
Fixpoint _worker (items : list Item) (w : World) : World * list Item :=
      match items with
      | [] => (w, [])
      | item :: rest =>
          match _worker_pass item w with
          | (Ret false, w') => _worker rest w'
          | (_, w') => (w', rest)
          end
      end.

(** What the four request handlers share:
        [job = jobs.create_job(mode); ...; _job_queue.put((job.id, mode, args))],
        answering with the job id. *)
Definition start_job (mode : string) (args : Args) (s : System) : string * System :=
      let '(job, st) := jobs.create_job utcnow uuid4 mode (store (world s)) in
      (Job.id job,
       {| world := {| store := st; handlers := handlers (world s);
                      events := events (world s) |};
          _job_queue := _job_queue s ++ [Some (Job.id job, mode, args)];
          worker_alive := worker_alive s |}).

(** [body] is [body.model_dump()]. *)
Definition start_google_takeout (body : Args) : System -> string * System :=
      let args := schemas.api_to_args "google-takeout" body in
      let args := dict_set "google-takeout"
                    (default VNone (dict_get "takeout_folder" body)) args in
      let output_folder := default VNone (dict_get "output_folder" body) in
      let args := if truthy output_folder
                  then dict_set "output-folder" output_folder args else args in
      start_job "google-takeout" args.

Definition start_automatic_migration (body : Args) : System -> string * System :=
      let args := schemas.api_to_args "automatic-migration" body in
      let args := dict_set "source" (default VNone (dict_get "source" body)) args in
      let args := dict_set "target" (default VNone (dict_get "target" body)) args in
      start_job "automatic-migration" args.

(** [(v or "").lower() in ("true", "1", "yes")]. *)
Definition b (v : string) : bool :=
      bool_decide (lower v ∈ ["true"; "1"; "yes"]).



(** [lifespan] after the [yield]: the sentinel is put on the queue. *)
Definition shutdown (s : System) : System :=
      {| world := world s; _job_queue := _job_queue s ++ [None];
         worker_alive := worker_alive s |}.

(** [limit = None]: the query parameter is not given (default 50). *)
Definition list_jobs_route (limit : option Z) (s : System) : list Job.dict :=
      Job.to_dict <$> jobs.list_jobs (Some (default 50 limit)) (store (world s)).

Definition get_job_api (job_id : string) (s : System) : Response Job.dict :=
      match jobs.get_job job_id (store (world s)) with
      | None => HTTPException 404 "Job not found"
      | Some job => OK (Job.to_dict job)
      end.

Definition get_job_logs (job_id : string) (s : System)
        : Response (string * list string) :=
      match jobs.get_job job_id (store (world s)) with
      | None => HTTPException 404 "Job not found"
      | Some job => OK (job_id, Job.log_lines job)
      end.

(** The moves of the process: a request handler starts a job, the
        worker thread makes one pass of its loop on the oldest queue entry,
        or the application shuts down. *)
Inductive step (s : System) : System -> Prop :=
      | step_start mode args :
          step s (start_job mode args s).2
      | step_worker item rest r w' :
          worker_alive s = true ->
          _job_queue s = item :: rest ->
          _worker_pass item (world s) = (r, w') ->
          step s {| world := w'; _job_queue := rest;
                    worker_alive :=
                      match r with Ret false => true | _ => false end |}
      | step_shutdown :
          step s (shutdown s).

Inductive reachable : System -> Prop :=
      | reachable_boot : reachable boot
      | reachable_step s s' : reachable s -> step s s' -> reachable s'.
End app.
End main.

(** ** Files *)

(** What a path holds when it is read: nothing; something that [open]
    refuses ([OSError]); bytes that are not UTF-8; or text. *)
Inductive File : Type :=
  | Missing
  | Unopenable
  | Undecodable
  | Text (content : string).

Definition exists_ (path : File) : bool :=
  match path with Missing => false | _ => true end.

(** The lines that iterating over a text file yields, each with its
    terminator; universal newlines: ["\r\n"] and ["\r"] are read as
    ["\n"]. *)
Fixpoint readlines (s : string) : list string :=
  match s with
  | EmptyString => []
  | String c s' =>
      if decide (c = "010"%char) then String "010" EmptyString :: readlines s'
      else if decide (c = "013"%char) then
        match s' with
        | String "010" _ => readlines s'
        | _ => String "010" EmptyString :: readlines s'
        end
      else
        match readlines s' with
        | [] => [String c EmptyString]
        | l :: ls => String c l :: ls
        end
  end.

(** ** Python's [configparser]

    [ConfigParser()] with the settings that [parse_config] leaves at their
    defaults (delimiters [=] and [:], comment prefixes [#] and [;], no
    inline comment prefixes, [strict], [empty_lines_in_values], no
    valueless options, default section [DEFAULT]) and [optionxform = str];
    after [Lib/configparser.py] of Python 3.11. A line holds no line break
    except at its end. Every error ends in an exception, and
    [parse_config] treats all exceptions alike, so that raising is
    [None]. *)

Module configparser.

(** The dictionary that [cursect] refers to. *)
Inductive cursor : Type :=
  | InDefaults
  | InSection (name : string).

(** [sectname] whenever [cursect] is set. *)
Definition cursor_name (cur : cursor) : string :=
  match cur with InDefaults => "DEFAULT" | InSection name => name end.

(** The parser's dictionaries and the local variables of [_read];
    [elements_added] is split into its section names and its
    [(sectname, optname)] pairs; [e] tells whether a [ParsingError] is
    pending. *)
Record ReadState : Type := mkReadState {
  _sections : list (string * list (string * list string));
  _defaults : list (string * list string);
  added_sections : list string;
  added_options : list (string * string);
  cursect : option cursor;
  optname : option string;
  indent_level : nat;
  e : bool;
}.

Definition fresh : ReadState :=
  {| _sections := []; _defaults := []; added_sections := [];
     added_options := []; cursect := None; optname := None;
     indent_level := 0; e := false |}.

(** [cursect[optname] = v] and [cursect[optname].append(line)]. *)
Definition cursect_set (cur : cursor) (k : string) (v : list string)
    (st : ReadState) : ReadState :=
  {| _sections :=
       match cur with
       | InSection name => dict_alter (dict_set k v) name (_sections st)
       | InDefaults => _sections st
       end;
     _defaults :=
       match cur with
       | InDefaults => dict_set k v (_defaults st)
       | InSection _ => _defaults st
       end;
     added_sections := added_sections st;
     added_options := added_options st;
     cursect := cursect st; optname := optname st;
     indent_level := indent_level st; e := e st |}.

Definition cursect_append (cur : cursor) (k : string) (line : string)
    (st : ReadState) : ReadState :=
  {| _sections :=
       match cur with
       | InSection name =>
           dict_alter (dict_alter (fun v => v ++ [line]) k) name (_sections st)
       | InDefaults => _sections st
       end;
     _defaults :=
       match cur with
       | InDefaults => dict_alter (fun v => v ++ [line]) k (_defaults st)
       | InSection _ => _defaults st
       end;
     added_sections := added_sections st;
     added_options := added_options st;
     cursect := cursect st; optname := optname st;
     indent_level := indent_level st; e := e st |}.

(** [s[:s.rfind(c)]], and [None] when [c] does not occur. *)
Fixpoint before_last (c : ascii) (s : string) : option string :=
  match s with
  | EmptyString => None
  | String a s' =>
      match before_last c s' with
      | Some r => Some (String a r)
      | None => if decide (a = c) then Some EmptyString else None
      end
  end.

(** [SECTCRE.match(value)], the group [header] of [\[(.+)\]]: the text
    between the opening bracket and the last closing bracket. *)
Definition SECTCRE_match (value : string) : option string :=
  match value with
  | String "[" rest =>
      match before_last "]" rest with
      | Some EmptyString => None
      | r => r
      end
  | _ => None
  end.

(** The text before and after the first delimiter. *)
Fixpoint split_delimiter (s : string) : option (string * string) :=
  match s with
  | EmptyString => None
  | String a s' =>
      if bool_decide (a = "="%char \/ a = ":"%char) then Some (EmptyString, s')
      else match split_delimiter s' with
           | Some (o, v) => Some (String a o, v)
           | None => None
           end
  end.

(** [OPTCRE.match(value)], the groups [option] and [value]: the shortest
    text up to optional whitespace and the first delimiter, and the text
    after the delimiter and the whitespace that follows it. *)
Definition OPTCRE_match (value : string) : option (string * string) :=
  match split_delimiter value with
  | Some (o, v) => Some (rstrip o, lstrip v)
  | None => None
  end.

(** [NONSPACECRE.search(line).start()], and 0 without a match. *)
Fixpoint first_nonspace (line : string) : nat :=
  match line with
  | EmptyString => 0
  | String c s' =>
      if isspace c then
        match lstrip s' with
        | EmptyString => 0
        | _ => S (first_nonspace s')
        end
      else 0
  end.

Definition truthy_name (o : option string) : bool :=
  match o with
  | Some (String _ _) => true
  | _ => false
  end.

(** The body of the loop of [_read] for one line. *)
Definition read_line (st : ReadState) (line : string) : option ReadState :=
  (* comment_start is 0 for a full-line comment and None otherwise *)
  let commented :=
    startswith (strip line) "#" || startswith (strip line) ";" in
  let value := if commented then EmptyString else strip line in
  if bool_decide (value = EmptyString) then
    match cursect st, optname st with
    | Some cur, Some (String _ _ as name) =>
        if commented then Some st else Some (cursect_append cur name "" st)
    | _, _ => Some st
    end
  else
    let cur_indent_level := first_nonspace line in
    let continued :=
      match cursect st, optname st with
      | Some cur, Some (String _ _ as name) =>
          if (indent_level st <? cur_indent_level)%nat
          then Some (cur, name) else None
      | _, _ => None
      end in
    match continued with
    | Some (cur, name) => Some (cursect_append cur name value st)
    | None =>
     let st :=
       {| _sections := _sections st; _defaults := _defaults st;
          added_sections := added_sections st;
          added_options := added_options st;
          cursect := cursect st; optname := optname st;
          indent_level := cur_indent_level; e := e st |} in
     match SECTCRE_match value with
     | Some sectname =>
         if dict_contains sectname (_sections st) then
           if bool_decide (sectname ∈ added_sections st) then None
           else
             Some {| _sections := _sections st; _defaults := _defaults st;
                     added_sections := sectname :: added_sections st;
                     added_options := added_options st;
                     cursect := Some (InSection sectname); optname := None;
                     indent_level := indent_level st; e := e st |}
         else if bool_decide (sectname = "DEFAULT") then
           Some {| _sections := _sections st; _defaults := _defaults st;
                   added_sections := added_sections st;
                   added_options := added_options st;
                   cursect := Some InDefaults; optname := None;
                   indent_level := indent_level st; e := e st |}
         else
           Some {| _sections := dict_set sectname [] (_sections st);
                   _defaults := _defaults st;
                   added_sections := sectname :: added_sections st;
                   added_options := added_options st;
                   cursect := Some (InSection sectname); optname := None;
                   indent_level := indent_level st; e := e st |}
     | None =>
         match cursect st with
         | None => None
         | Some cur =>
             match OPTCRE_match value with
             | Some (o, optval) =>
                 let e' := e st || bool_decide (o = EmptyString) in
                 let o := rstrip o in
                 if bool_decide ((cursor_name cur, o) ∈ added_options st)
                 then None
                 else
                   Some (cursect_set cur o [strip optval]
                     {| _sections := _sections st; _defaults := _defaults st;
                        added_sections := added_sections st;
                        added_options :=
                          (cursor_name cur, o) :: added_options st;
                        cursect := cursect st; optname := Some o;
                        indent_level := indent_level st; e := e' |})
             | None =>
                 Some {| _sections := _sections st; _defaults := _defaults st;
                         added_sections := added_sections st;
                         added_options := added_options st;
                         cursect := cursect st; optname := optname st;
                         indent_level := indent_level st; e := true |}
             end
         end
     end
    end.

Fixpoint read_lines (st : ReadState) (lines : list string) : option ReadState :=
  match lines with
  | [] => Some st
  | line :: rest =>
      match read_line st line with
      | Some st' => read_lines st' rest
      | None => None
      end
  end.

(** A parser after reading: every value is one string. *)
Record ConfigParser : Type := mkConfigParser {
  cp_sections : list (string * list (string * string));
  cp_defaults : list (string * string);
}.

(** [_join_multiline_values]. *)
Definition join_value (val : list string) : string := rstrip (join_lines val).

Definition join_options (options : list (string * list string))
    : list (string * string) :=
  (fun kv => (kv.1, join_value kv.2)) <$> options.

(** [_read]: the loop, the joining of the values, and the pending
    [ParsingError]. *)
Definition _read (lines : list string) : option ConfigParser :=
  match read_lines fresh lines with
  | None => None
  | Some st =>
      if e st then None
      else Some {| cp_sections :=
                     (fun kv => (kv.1, join_options kv.2)) <$> _sections st;
                   cp_defaults := join_options (_defaults st) |}
  end.

(** [cp.read(path)] on a new parser: a file that cannot be opened is
    skipped, one that cannot be decoded raises. *)
Definition read (path : File) : option ConfigParser :=
  match path with
  | Missing | Unopenable => Some {| cp_sections := []; cp_defaults := [] |}
  | Undecodable => None
  | Text content => _read (readlines content)
  end.

Definition sections (cp : ConfigParser) : list string := (cp_sections cp).*1.

(** [options(section)] for a section of [sections()]: its own keys, then
    the keys of the defaults that it does not have. *)
Definition options (cp : ConfigParser) (section : string) : list string :=
  let opts := default [] (dict_get section (cp_sections cp)) in
  (foldl (fun d kv => dict_set kv.1 kv.2 d) opts (cp_defaults cp)).*1.

(** [get(section, option, raw=True)] for an option of [options(section)]:
    the section's value, else the default's. *)
Definition get (cp : ConfigParser) (section option : string) : string :=
  let sectiondict := default [] (dict_get section (cp_sections cp)) in
  match dict_get option sectiondict with
  | Some v => v
  | None => default EmptyString (dict_get option (cp_defaults cp))
  end.
End configparser.

(** ** [web/config_ini.py] *)

(** An entry of a section's ["options"] list. *)
Module Opt.
Record t : Type := mk {
  key : string;
  value : string;
  is_password : bool;
  form_section : string;
  hint : string;
}.

Definition set_value (v : string) (k : t) : t :=
  {| key := key k; value := v; is_password := is_password k;
     form_section := form_section k; hint := hint k |}.

Definition set_form_section (fs : string) (k : t) : t :=
  {| key := key k; value := value k; is_password := is_password k;
     form_section := fs; hint := hint k |}.
End Opt.

(** A section of the structure handed to the template. *)
Module Sect.
Record t : Type := mk {
  name : string;
  form_section : string;
  hint : string;
  options : list Opt.t;
}.
End Sect.

Module config_ini.

Definition FORM_SEP : string := "||".

(** The help texts are only copied; their arrow is held as its UTF-8
    bytes. *)
Definition SECTION_HINTS : list (string * string) :=
  [
    ("Google Takeout",
     "No configuration needed for this module for the time being.");
    ("Synology Photos",
     "Set the URL to your Synology server (IP or hostname). Use SYNOLOGY_USERNAME_n and SYNOLOGY_PASSWORD_n for each account (n = 1, 2, or 3).");
    ("Immich Photos",
     "Set the Immich server URL and either API keys (Account Settings → API Keys) or username/password per account. ADMIN_API_KEY is required for some operations (e.g. remove orphan assets).");
    ("Apple Photos",
     "iCloud Apple Photos: use album = all for all albums; set to_directory for download path; date_from/date_to and asset_from/asset_to for date filters; max_photos to limit downloads; shared_library (e.g. PrimarySync) for library selection.");
    ("Google Photos",
     "No configuration needed for this module for the time being.");
    ("TimeZone",
     "Optional timezone for interpreting photo dates. When EXIF/metadata has no timezone (e.g. '2024:06:15 14:30:00' without offset), the tool currently uses the machine's local timezone where the app runs. Photos taken in a different timezone are then interpreted as if they were in that local timezone, which can affect date-based grouping, album naming, and filtering. This setting is stored for features that may use it; set it to the IANA timezone where most of your photos were taken (e.g. US/Central) for future or optional override behavior.")
  ].

Definition OPTION_HINTS : list ((string * string) * string) :=
  [
    (("Synology Photos", "SYNOLOGY_URL"),
     "URL of your Synology server (e.g. http://192.168.1.11:5000) or your valid Synology hostname.");
    (("Synology Photos", "SYNOLOGY_USERNAME_1"),
     "Account 1: Your username for Synology Photos.");
    (("Synology Photos", "SYNOLOGY_PASSWORD_1"),
     "Account 1: Your password for Synology Photos.");
    (("Synology Photos", "SYNOLOGY_USERNAME_2"),
     "Account 2: Your username for Synology Photos.");
    (("Synology Photos", "SYNOLOGY_PASSWORD_2"),
     "Account 2: Your password for Synology Photos.");
    (("Synology Photos", "SYNOLOGY_USERNAME_3"),
     "Account 3: Your username for Synology Photos.");
    (("Synology Photos", "SYNOLOGY_PASSWORD_3"),
     "Account 3: Your password for Synology Photos.");
    (("Immich Photos", "IMMICH_URL"),
     "URL of your Immich server (e.g. http://192.168.1.11:2283).");
    (("Immich Photos", "IMMICH_API_KEY_ADMIN"),
     "Admin API key from Immich (Account Settings → API Keys). Required for some operations.");
    (("Immich Photos", "IMMICH_API_KEY_USER_1"),
     "Account 1: User API key from Immich (Account Settings → API Keys).");
    (("Immich Photos", "IMMICH_USERNAME_1"),
     "Account 1: Username (used if API key not provided).");
    (("Immich Photos", "IMMICH_PASSWORD_1"),
     "Account 1: Password (used if API key not provided).");
    (("Immich Photos", "IMMICH_API_KEY_USER_2"),
     "Account 2: User API key.");
    (("Immich Photos", "IMMICH_USERNAME_2"),
     "Account 2: Username.");
    (("Immich Photos", "IMMICH_PASSWORD_2"),
     "Account 2: Password.");
    (("Immich Photos", "IMMICH_API_KEY_USER_3"),
     "Account 3: User API key.");
    (("Immich Photos", "IMMICH_USERNAME_3"),
     "Account 3: Username.");
    (("Immich Photos", "IMMICH_PASSWORD_3"),
     "Account 3: Password.");
    (("Apple Photos", "appleid"),
     "Your Apple ID for iCloud.");
    (("Apple Photos", "applepwd"),
     "Your Apple ID password.");
    (("Apple Photos", "album"),
     "Album name to download, or 'all' for all albums.");
    (("Apple Photos", "to_directory"),
     "Directory path where photos will be downloaded (year/month/day structure will be created).");
    (("Apple Photos", "date_from"),
     "Filter: photos added to library from this date.");
    (("Apple Photos", "date_to"),
     "Filter: photos added to library until this date.");
    (("Apple Photos", "asset_from"),
     "Filter: asset date from.");
    (("Apple Photos", "asset_to"),
     "Filter: asset date to.");
    (("Apple Photos", "max_photos"),
     "Maximum number of photos to download (safety limit).");
    (("Apple Photos", "shared_library"),
     "Library identifier (e.g. PrimarySync for main library).");
    (("TimeZone", "timezone"),
     "IANA timezone name (e.g. US/Central, Europe/London). Used when the tool interprets date/time from photos that have no timezone in metadata; set to the timezone where your photos were typically taken so date-based features (sorting, album names, filters) are consistent. Currently the app may use the server's system timezone if this is not applied yet.")
  ].


Definition _strip_inline_comment (value : string) : string :=
  if bool_decide (value = EmptyString) then value
  else strip (before_char "#" value).

Definition _get_option_hint (section key : string) : string :=
  match list_find (fun kv => kv.1 = (section, key)) OPTION_HINTS with
  | Some (_, kv) => kv.2
  | None => EmptyString
  end.

Definition _get_section_hint (section : string) : string :=
  default EmptyString (dict_get section SECTION_HINTS).

Definition _is_password_key (key : string) : bool :=
  let k := upper key in
  contains "PASSWORD" k || contains "API_KEY" k || contains "SECRET" k
  || bool_decide (k ∈ ["APPLEPWD"]).

Definition _section_to_form (section : string) : string :=
  replace_char " " "_" section.

Definition _form_to_section (form_section : string) : string :=
  replace_char "_" " " form_section.

(** The shape of every dictionary in the literal of
    [_default_sections_structure]. *)
Definition option_entry (section key value : string) (is_password : bool) : Opt.t :=
  {| Opt.key := key; Opt.value := value; Opt.is_password := is_password;
     Opt.form_section := _section_to_form section;
     Opt.hint := _get_option_hint section key |}.

Definition section_entry (name : string) (options : list Opt.t) : Sect.t :=
  {| Sect.name := name; Sect.form_section := _section_to_form name;
     Sect.hint := _get_section_hint name; Sect.options := options |}.

Definition _default_sections_structure : list Sect.t :=
  [
    section_entry "Google Takeout"
      [];
    section_entry "Synology Photos"
      [option_entry "Synology Photos" "SYNOLOGY_URL" "" false;
        option_entry "Synology Photos" "SYNOLOGY_USERNAME_1" "" false;
        option_entry "Synology Photos" "SYNOLOGY_PASSWORD_1" "" true;
        option_entry "Synology Photos" "SYNOLOGY_USERNAME_2" "" false;
        option_entry "Synology Photos" "SYNOLOGY_PASSWORD_2" "" true;
        option_entry "Synology Photos" "SYNOLOGY_USERNAME_3" "" false;
        option_entry "Synology Photos" "SYNOLOGY_PASSWORD_3" "" true];
    section_entry "Immich Photos"
      [option_entry "Immich Photos" "IMMICH_URL" "" false;
        option_entry "Immich Photos" "IMMICH_API_KEY_ADMIN" "" true;
        option_entry "Immich Photos" "IMMICH_API_KEY_USER_1" "" true;
        option_entry "Immich Photos" "IMMICH_USERNAME_1" "" false;
        option_entry "Immich Photos" "IMMICH_PASSWORD_1" "" true;
        option_entry "Immich Photos" "IMMICH_API_KEY_USER_2" "" true;
        option_entry "Immich Photos" "IMMICH_USERNAME_2" "" false;
        option_entry "Immich Photos" "IMMICH_PASSWORD_2" "" true;
        option_entry "Immich Photos" "IMMICH_API_KEY_USER_3" "" true;
        option_entry "Immich Photos" "IMMICH_USERNAME_3" "" false;
        option_entry "Immich Photos" "IMMICH_PASSWORD_3" "" true];
    section_entry "Apple Photos"
      [option_entry "Apple Photos" "appleid" "" false;
        option_entry "Apple Photos" "applepwd" "" true;
        option_entry "Apple Photos" "album" "all" false;
        option_entry "Apple Photos" "to_directory" "" false;
        option_entry "Apple Photos" "date_from" "" false;
        option_entry "Apple Photos" "date_to" "" false;
        option_entry "Apple Photos" "asset_from" "" false;
        option_entry "Apple Photos" "asset_to" "" false;
        option_entry "Apple Photos" "max_photos" "10000" false;
        option_entry "Apple Photos" "shared_library" "PrimarySync" false];
    section_entry "Google Photos"
      [];
    section_entry "TimeZone"
      [option_entry "TimeZone" "timezone" "US/Central" false]
  ].

Definition parse_config (path : File) : list Sect.t :=
  if negb (exists_ path) then _default_sections_structure
  else
    match configparser.read path with
    | None => _default_sections_structure
    | Some cp =>
        let sections_out :=
          (fun section =>
             let keys_out :=
               (fun key =>
                  let raw_value := configparser.get cp section key in
                  let value := _strip_inline_comment raw_value in
                  {| Opt.key := key; Opt.value := value;
                     Opt.is_password := _is_password_key key;
                     Opt.form_section := _section_to_form section;
                     Opt.hint := _get_option_hint section key |})
               <$> configparser.options cp section in
             {| Sect.name := section;
                Sect.form_section := _section_to_form section;
                Sect.hint := _get_section_hint section;
                Sect.options := keys_out |})
          <$> configparser.sections cp in
        match sections_out with
        | [] => _default_sections_structure
        | _ => sections_out
        end
    end.

(** The option dictionaries of [schema] are distinct objects, as the
    literal of [_default_sections_structure] builds them; assigning to
    the dictionary found under a key is then an update under that key. *)
Definition _merge_parsed_with_schema (parsed schema : list Sect.t) : list Sect.t :=
  let by_name := dict_of_pairs ((fun s => (Sect.name s, s)) <$> parsed) in
  (fun sect =>
     let name := Sect.name sect in
     let schema_keys :=
       dict_of_pairs ((fun k => (Opt.key k, k)) <$> Sect.options sect) in
     let schema_keys :=
       match dict_get name by_name with
       | Some found =>
           foldl (fun schema_keys k =>
                    if dict_contains (Opt.key k) schema_keys
                    then dict_alter (Opt.set_value (Opt.value k)) (Opt.key k)
                           schema_keys
                    else schema_keys)
                 schema_keys (Sect.options found)
       | None => schema_keys
       end in
     let keys_out := schema_keys.*2 in
     let keys_out := Opt.set_form_section (_section_to_form name) <$> keys_out in
     {| Sect.name := name; Sect.form_section := _section_to_form name;
        Sect.hint := _get_section_hint name; Sect.options := keys_out |})
  <$> schema.

Definition parse_config_with_schema (path : File) : list Sect.t :=
  let schema := _default_sections_structure in
  if negb (exists_ path) then schema
  else
    let parsed := parse_config path in
    match parsed with
    | [] => schema
    | _ => _merge_parsed_with_schema parsed schema
    end.

(** The section and key that a form field name stands for, as the loop of
    [build_ini_from_form] reads it; [None] for a field that the loop
    skips. *)
Definition decode_field (form_key : string) : option (string * string) :=
  let prefix := "v" +:+ FORM_SEP in
  let rest := skip (String.length prefix) form_key in
  if negb (startswith form_key prefix) || negb (contains FORM_SEP rest)
  then None
  else
    match split_once FORM_SEP rest with
    | Some (form_section, key) => Some (_form_to_section form_section, key)
    | None => None
    end.

Definition build_ini_from_form (form_data : list (string * string)) : string :=
  let by_section :=
    foldl (fun by_section (item : string * string) =>
             match decode_field item.1 with
             | None => by_section
             | Some (section, key) =>
                 let value := strip item.2 in
                 let by_section :=
                   if dict_contains section by_section then by_section
                   else dict_set section [] by_section in
                 dict_alter (fun pairs => pairs ++ [(key, value)]) section
                   by_section
             end)
          [] form_data in
  let schema := _default_sections_structure in
  let lines := ["# Config.ini File"; ""] in
  let value_by_section_key :=
    foldl (fun d (item : string * list (string * string)) =>
             dict_set item.1 (dict_of_pairs item.2) d)
          [] by_section in
  let lines :=
    foldl (fun lines sect =>
             let name := Sect.name sect in
             let vals := default [] (dict_get name value_by_section_key) in
             let lines := lines ++ ["[" +:+ name +:+ "]"] in
             let lines :=
               foldl (fun lines key_info =>
                        let k := Opt.key key_info in
                        let v := default EmptyString (dict_get k vals) in
                        lines ++ [k +:+ " = " +:+ v])
                     lines (Sect.options sect) in
             lines ++ [""])
          lines schema in
  strip (join_lines lines) +:+ String "010" EmptyString.

Definition form_field_name (form_section key : string) : string :=
  "v" +:+ FORM_SEP +:+ form_section +:+ FORM_SEP +:+ key.
End config_ini.

(** ** Concrete oracles and collaborators, used to instantiate the results *)

Module Demo.
Definition utcnow (n : nat) : Z := 1700000000 + Z.of_nat n.
Definition uuid4 (n : nat) : string := pretty n.

(** The store after [n] calls of [create_job]. *)
Fixpoint store_with (n : nat) : jobs.Store :=
    match n with
    | O => jobs.empty
    | S n' => (jobs.create_job utcnow uuid4 "google-takeout" (store_with n')).2
    end.

(** An engine that rejects an empty Takeout folder, logs one record and
      fails when the output folder is ["/full"]. *)
Definition core : Core :=
    {| import_core := None;
       checkArgs := fun ARGS =>
         (ARGS,
          match dict_get "google-takeout" ARGS with
          | Some (VStr EmptyString) =>
              Some (ValueError "argument --google-takeout: folder is required")
          | _ => None
          end);
       set_GLOBAL_VARIABLES := fun _ => None;
       set_LOGGER := fun _ => None;
       set_HELP_TEXTS := fun _ => None;
       mode_google_takeout := fun ARGS _ =>
         ([ {| asctime := "2024-06-15 14:30:00,000"; levelname := "INFO";
               getMessage := Some "Processing Takeout";
               exc_text := ""; stack_info := "" |} ],
          match dict_get "output-folder" ARGS with
          | Some (VStr "/full") => Some (Exception "disk full")
          | _ => None
          end);
       mode_AUTOMATIC_MIGRATION := fun _ _ => ([], None) |}.

(** The same engine when the execution mode calls [sys.exit(1)]. *)
Definition core_exiting : Core :=
    {| import_core := None;
       checkArgs := checkArgs core;
       set_GLOBAL_VARIABLES := set_GLOBAL_VARIABLES core;
       set_LOGGER := set_LOGGER core;
       set_HELP_TEXTS := set_HELP_TEXTS core;
       mode_google_takeout := fun _ _ => ([], Some (BaseException "1"));
       mode_AUTOMATIC_MIGRATION := mode_AUTOMATIC_MIGRATION core |}.

(** An engine whose execution mode logs a plain record, a record with a
      traceback and a record whose message cannot be rendered. *)
Definition core_logging : Core :=
    {| import_core := None;
       checkArgs := checkArgs core;
       set_GLOBAL_VARIABLES := set_GLOBAL_VARIABLES core;
       set_LOGGER := set_LOGGER core;
       set_HELP_TEXTS := set_HELP_TEXTS core;
       mode_google_takeout := fun _ _ =>
         ([ {| asctime := "2024-06-15 14:30:00,000"; levelname := "INFO";
               getMessage := Some "Processing Takeout";
               exc_text := ""; stack_info := "" |};
            {| asctime := "2024-06-15 14:30:01,000"; levelname := "ERROR";
               getMessage := Some "Album skipped";
               exc_text := "Traceback (most recent call last):"
                           +:+ String "010" "OSError: unreadable";
               stack_info := "" |};
            {| asctime := "2024-06-15 14:30:02,000"; levelname := "INFO";
               getMessage := None; exc_text := ""; stack_info := "" |} ],
          None);
       mode_AUTOMATIC_MIGRATION := mode_AUTOMATIC_MIGRATION core |}.

(** The same process when the package [Core] cannot be imported. *)
Definition core_not_installed : Core :=
    {| import_core := Some (Exception "No module named 'Core'");
       checkArgs := checkArgs core;
       set_GLOBAL_VARIABLES := set_GLOBAL_VARIABLES core;
       set_LOGGER := set_LOGGER core;
       set_HELP_TEXTS := set_HELP_TEXTS core;
       mode_google_takeout := mode_google_takeout core;
       mode_AUTOMATIC_MIGRATION := mode_AUTOMATIC_MIGRATION core |}.

Definition environ_config_path : string := "".
Definition project_config_ini : string := "/app/Config.ini".

(** A world with one pending job, whose id is ["0"]. *)
Definition world1 : runner.World :=
    {| runner.store := store_with 1; runner.handlers := [];
       runner.events := [] |}.

(** A world with two pending jobs, ["0"] and ["1"]. *)
Definition world2 : runner.World :=
    {| runner.store := store_with 2; runner.handlers := [];
       runner.events := [] |}.

Definition takeout_body : Args := [("google-takeout", VStr "/data/takeout")].

(** The dump of a request to [POST /api/jobs/google-takeout]. *)
Definition api_body : Args :=
    [("takeout_folder", VStr "/data/takeout"); ("output_folder", VNone);
     ("google_skip_gpth_tool", VBool true); ("show_gpth_info", VBool true)].

(** What [parse_config] delivers for a file with the one section
      [TimeZone], which sets the time zone and a key unknown to the
      registry. *)
Definition parsed_file : list Sect.t :=
    [ {| Sect.name := "TimeZone"; Sect.form_section := "TimeZone";
         Sect.hint := "";
         Sect.options :=
           [ {| Opt.key := "timezone"; Opt.value := "Europe/Rome";
                Opt.is_password := false; Opt.form_section := "TimeZone";
                Opt.hint := "" |};
             {| Opt.key := "locale"; Opt.value := "it";
                Opt.is_password := false; Opt.form_section := "TimeZone";
                Opt.hint := "" |} ] |} ].

Definition full_disk_body : Args :=
    [("google-takeout", VStr "/data/takeout"); ("output-folder", VStr "/full")].

(** The process after one job was started and run by the worker. *)
Definition started : main.System :=
    (main.start_job utcnow uuid4 "google-takeout" full_disk_body main.boot).2.

Definition worked : main.System :=
    {| main.world :=
         (main._worker_pass utcnow core environ_config_path project_config_ini
            (Some ("0", "google-takeout", full_disk_body))
            (main.world started)).2;
       main._job_queue := [];
       main.worker_alive := true |}.
End Demo.

(** ** Notions used in the statements *)

(** The two life cycles of a job, and their beginnings. *)
Definition lifecycle (h : list JobStatus) : Prop :=
  h `prefix_of` [PENDING; RUNNING; DONE]
  \/ h `prefix_of` [PENDING; RUNNING; FAILED].

(** The job ids waiting in the queue. *)
Definition queued_ids (q : list main.Item) : list string :=
  omap (fun item : main.Item => (fun x => x.1.1) <$> item) q.

(** The [status] field of every job holds the value written last. *)
Definition status_is_last_write (st : jobs.Store) : Prop :=
  forall j job, jobs._jobs st !! j = Some job ->
    last (jobs.status_history j st) = Some (Job.status job).

(** [c] occurs in [s]. *)
Fixpoint has_char (c : ascii) (s : string) : bool :=
  match s with
  | EmptyString => false
  | String a s' => bool_decide (a = c) || has_char c s'
  end.

(** The value shown for [key] in the section [name] of a structure. *)
Definition shown_value (name key : string) (structure : list Sect.t) : option string :=
  match list_find (fun sect => Sect.name sect = name) structure with
  | Some (_, sect) =>
      match list_find (fun k => Opt.key k = key) (Sect.options sect) with
      | Some (_, k) => Some (Opt.value k)
      | None => None
      end
  | None => None
  end.

(** *** The merge, section by section *)

(** The value that the options [ks] of a file's section leave for the key
    [key]: that of the last of them with this key, or [w] without one. *)
Definition last_value (ks : list Opt.t) (key w : string) : string :=
  foldl (fun w k => if decide (Opt.key k = key) then Opt.value k else w) w ks.

(** The options of a registry section with the values of [ks] filled in. *)
Definition fill (ks os : list Opt.t) : list Opt.t :=
  (fun o => Opt.set_value (last_value ks (Opt.key o) (Opt.value o)) o) <$> os.

(** The options that the file has for the section [name]. *)
Definition options_of (parsed : list Sect.t) (name : string) : list Opt.t :=
  match dict_get name (dict_of_pairs ((fun s => (Sect.name s, s)) <$> parsed)) with
  | Some found => Sect.options found
  | None => []
  end.

Definition merged_section (parsed : list Sect.t) (sect : Sect.t) : Sect.t :=
  {| Sect.name := Sect.name sect;
     Sect.form_section := config_ini._section_to_form (Sect.name sect);
     Sect.hint := config_ini._get_section_hint (Sect.name sect);
     Sect.options :=
       Opt.set_form_section (config_ini._section_to_form (Sect.name sect))
       <$> fill (options_of parsed (Sect.name sect)) (Sect.options sect) |}.

(** A schema names every section once and, within a section, every key
    once. *)
Definition well_formed (schema : list Sect.t) : Prop :=
  NoDup (Sect.name <$> schema)
  /\ Forall (fun sect => NoDup (Opt.key <$> Sect.options sect)) schema.

(** *** Texts and lines *)

Definition LF : ascii := "010".
Definition CR : ascii := "013".

(** A line with its terminator, and the text made of such lines. *)
Definition nl (l : string) : string := l +:+ String LF EmptyString.

Fixpoint concat_lines (ls : list string) : string :=
  match ls with
  | [] => EmptyString
  | l :: ls => nl l +:+ concat_lines ls
  end.

(** [s] holds no line break. *)
Definition one_line (s : string) : Prop :=
  has_char LF s = false /\ has_char CR s = false.

(** A value that survives in the file: no comment sign, no line break. *)
Definition clean (v : string) : Prop :=
  has_char "#" v = false /\ one_line v.

(** No whitespace at either end. *)
Definition trimmed (v : string) : Prop := lstrip v = v /\ rstrip v = v.

(** A line that begins with a character other than whitespace. *)
Definition solid (l : string) : Prop :=
  match l with
  | String c _ => isspace c = false
  | EmptyString => False
  end.

(** Every character of [s] satisfies [P]. *)
Fixpoint all_chars (P : ascii -> bool) (s : string) : bool :=
  match s with
  | EmptyString => true
  | String c s' => P c && all_chars P s'
  end.

Definition is_delimiter (c : ascii) : bool :=
  bool_decide (c = "="%char \/ c = ":"%char).

(** A key that an option line shows as it is: not empty, without
    whitespace and delimiters, and not opening like a header or a
    comment. *)
Definition plain_key (k : string) : bool :=
  all_chars (fun c => negb (isspace c) && negb (is_delimiter c)) k
  && match k with
     | String c _ =>
         negb (bool_decide (c = "["%char \/ c = "#"%char \/ c = ";"%char))
     | EmptyString => false
     end.

(** *** The states of [_read] *)

(** [f] applied to the last element. *)
Fixpoint on_last {A : Type} (f : A -> A) (l : list A) : list A :=
  match l with
  | [] => []
  | [x] => [f x]
  | x :: l' => x :: on_last f l'
  end.

(** The sections as [_read] holds them: names, keys and value lines. *)
Abbreviation raw_sections := (list (string * list (string * list string))).

(** The [(sectname, optname)] pairs of the sections [secs]. *)
Definition option_pairs (secs : raw_sections) : list (string * string) :=
  secs ≫= fun sec => (fun kv => (sec.1, kv.1)) <$> sec.2.

(** The state of [_read] when the sections [secs] have been read, the last
    option of the last section being the current one. *)
Definition reading (secs : raw_sections) : configparser.ReadState :=
  {| configparser._sections := secs;
     configparser._defaults := [];
     configparser.added_sections := reverse secs.*1;
     configparser.added_options := reverse (option_pairs secs);
     configparser.cursect := configparser.InSection <$> last secs.*1;
     configparser.optname := last secs ≫= fun sec => last sec.2.*1;
     configparser.indent_level := 0;
     configparser.e := false |}.

(** An empty line after the current option. *)
Definition close_last (secs : raw_sections) : raw_sections :=
  on_last (fun sec => (sec.1, on_last (fun kv => (kv.1, kv.2 ++ [EmptyString])) sec.2))
    secs.

(** *** The file that the page writes *)

(** A section of the file, as the page writes it: its name and its keys
    with their values. *)
Abbreviation block := (string * list (string * string))%type.

Definition option_line (kv : string * string) : string :=
  kv.1 +:+ " = " +:+ kv.2.

Definition block_lines (b : block) : list string :=
  ("[" +:+ b.1 +:+ "]") :: (option_line <$> b.2) ++ [EmptyString].

(** The value lines that [_read] holds for the options of a section, and
    the section once the empty line behind it has been read. *)
Definition raw_options (kvs : list (string * string))
    : list (string * list string) :=
  (fun kv => (kv.1, [kv.2])) <$> kvs.

Definition closed_block (b : block) : string * list (string * list string) :=
  (b.1, on_last (fun kv => (kv.1, kv.2 ++ [EmptyString])) (raw_options b.2)).

(** A section that the parser reads back as written. *)
Definition good_block (b : block) : Prop :=
  b.1 <> EmptyString /\ b.1 <> "DEFAULT" /\ NoDup b.2.*1
  /\ Forall (fun kv => plain_key kv.1 = true /\ trimmed kv.2) b.2.

(** A section whose name and values hold no line break. *)
Definition one_line_block (b : block) : Prop :=
  one_line b.1 /\ Forall (fun kv => one_line kv.2) b.2.

(** The value that a form submits for the key [key] of the section
    [section]: that of the last field that stands for this pair, stripped;
    empty without such a field. *)
Definition submitted (form_data : list (string * string)) (section key : string)
    : string :=
  foldl (fun acc (item : string * string) =>
           if decide (config_ini.decode_field item.1 = Some (section, key))
           then strip item.2 else acc)
        EmptyString form_data.

(** The sections that the page writes for a form: those of the registry,
    every key with the value submitted for it. *)
Definition written (form_data : list (string * string)) : list block :=
  (fun sect =>
     (Sect.name sect,
      (fun o => (Opt.key o, submitted form_data (Sect.name sect) (Opt.key o)))
      <$> Sect.options sect))
  <$> config_ini._default_sections_structure.

(** The dictionary [by_section] after the first loop of
    [build_ini_from_form]. *)
Definition by_section (form : list (string * string)) : list (string * list (string * string)) :=
  foldl (fun by_section (item : string * string) =>
           match config_ini.decode_field item.1 with
           | None => by_section
           | Some (section, key) =>
               let value := strip item.2 in
               let by_section :=
                 if dict_contains section by_section then by_section
                 else dict_set section [] by_section in
               dict_alter (fun pairs => pairs ++ [(key, value)]) section
                 by_section
           end)
        [] form.

(** The entry that [parse_config] builds for an option of the parser. *)
Definition option_of_pair (section : string) (kv : string * string) : Opt.t :=
  {| Opt.key := kv.1;
     Opt.value := config_ini._strip_inline_comment kv.2;
     Opt.is_password := config_ini._is_password_key kv.1;
     Opt.form_section := config_ini._section_to_form section;
     Opt.hint := config_ini._get_option_hint section kv.1 |}.

(** The entry that [parse_config] builds for a section of the parser. *)
Definition section_of_block (b : block) : Sect.t :=
  {| Sect.name := b.1;
     Sect.form_section := config_ini._section_to_form b.1;
     Sect.hint := config_ini._get_section_hint b.1;
     Sect.options := option_of_pair b.1 <$> b.2 |}.

(** A section of the registry with the values that a form submits. *)
Definition with_submitted (form_data : list (string * string)) (sect : Sect.t)
    : Sect.t :=
  {| Sect.name := Sect.name sect;
     Sect.form_section := Sect.form_section sect;
     Sect.hint := Sect.hint sect;
     Sect.options :=
       (fun o => Opt.set_value
                   (submitted form_data (Sect.name sect) (Opt.key o)) o)
       <$> Sect.options sect |}.

(** The [(section, key)] pairs of the registry. *)
Definition registry_pairs : list (string * string) :=
  sect ← config_ini._default_sections_structure;
  (fun o => (Sect.name sect, Opt.key o)) <$> Sect.options sect.

(** A form with one field for every pair of the registry, named as the
    page names it: [timezone] holds [tz], every other field [" 1 "]. *)
Definition example_form (tz : string) : list (string * string) :=
  (fun p =>
     (config_ini.form_field_name (config_ini._section_to_form p.1) p.2,
      if decide (p = ("TimeZone", "timezone")) then tz else " 1 "))
  <$> registry_pairs.

(** [form_data] has a field for every pair of the registry. *)
Definition supplies_every_pair (form_data : list (string * string)) : Prop :=
  Forall (fun p => Exists (fun item : string * string =>
                             config_ini.decode_field item.1 = Some p)
                          form_data)
         registry_pairs.

#[global] Instance clean_dec (v : string) : Decision (clean v).
Proof. unfold clean, one_line. apply _. Defined.

(* PROPERTIES *)

(** * Properties of the job store *)

Section job_store.
Variable utcnow : nat -> Z.
Implicit Types (st : jobs.Store) (job_id : string).

Lemma update_job_status_absent job_id status error summary st :
    jobs._jobs st !! job_id = None ->
    jobs.update_job_status utcnow job_id status error summary st = st.
Proof. intros H. unfold jobs.update_job_status. by rewrite H. Qed.

Lemma append_job_log_absent job_id line st :
    jobs._jobs st !! job_id = None ->
    jobs.append_job_log utcnow job_id line st = st.
Proof. intros H. unfold jobs.append_job_log. by rewrite H. Qed.

Lemma update_job_status_lookup job_id status error summary st job :
    jobs._jobs st !! job_id = Some job ->
    jobs._jobs (jobs.update_job_status utcnow job_id status error summary st)
      !! job_id
    = Some {| Job.id := Job.id job; Job.mode := Job.mode job;
              Job.status := status;
              Job.created_at := Job.created_at job;
              Job.updated_at := utcnow (jobs.clock_reads st);
              Job.log_lines := Job.log_lines job;
              Job.error := from_option Some (Job.error job) error;
              Job.result_summary :=
                from_option Some (Job.result_summary job) summary |}.
Proof.
    intros H. unfold jobs.update_job_status. rewrite H. simpl.
    rewrite lookup_insert_eq. by destruct error, summary.
Qed.

Lemma update_job_status_lookup_ne job_id j status error summary st :
    j <> job_id ->
    jobs._jobs (jobs.update_job_status utcnow job_id status error summary st) !! j
    = jobs._jobs st !! j.
Proof.
    intros Hne. unfold jobs.update_job_status.
    destruct (jobs._jobs st !! job_id); [|done]. simpl.
    by rewrite lookup_insert_ne.
Qed.

Lemma append_job_log_lookup job_id line st job :
    jobs._jobs st !! job_id = Some job ->
    jobs._jobs (jobs.append_job_log utcnow job_id line st) !! job_id
    = Some {| Job.id := Job.id job; Job.mode := Job.mode job;
              Job.status := Job.status job;
              Job.created_at := Job.created_at job;
              Job.updated_at := utcnow (jobs.clock_reads st);
              Job.log_lines := Job.log_lines job ++ [line];
              Job.error := Job.error job;
              Job.result_summary := Job.result_summary job |}.
Proof.
    intros H. unfold jobs.append_job_log. rewrite H. simpl.
    by rewrite lookup_insert_eq.
Qed.

Lemma append_job_log_lookup_ne job_id j line st :
    j <> job_id ->
    jobs._jobs (jobs.append_job_log utcnow job_id line st) !! j
    = jobs._jobs st !! j.
Proof.
    intros Hne. unfold jobs.append_job_log.
    destruct (jobs._jobs st !! job_id); [|done]. simpl.
    by rewrite lookup_insert_ne.
Qed.

(** C8. For a job id that is absent from the store, [update_job_status]
      and [append_job_log] return the store as it was (every field of it),
      [get_job] returns [None], and the routes [get_job_api] and
      [get_job_logs] answer with the HTTP error 404 "Job not found"; all of
      them are total functions, so no call fails. *)
Theorem unknown_job_id_is_a_reported_miss
      (s : main.System) job_id status error summary line :
    jobs._jobs (runner.store (main.world s)) !! job_id = None ->
    let st := runner.store (main.world s) in
    jobs.update_job_status utcnow job_id status error summary st = st
    /\ jobs.append_job_log utcnow job_id line st = st
    /\ jobs.get_job job_id st = None
    /\ main.get_job_api job_id s = main.HTTPException 404 "Job not found"
    /\ main.get_job_logs job_id s = main.HTTPException 404 "Job not found".
Proof.
    intros H st. subst st. split_and!.
    - by apply update_job_status_absent.
    - by apply append_job_log_absent.
    - done.
    - unfold main.get_job_api, jobs.get_job. by rewrite H.
    - unfold main.get_job_logs, jobs.get_job. by rewrite H.
Qed.

(** C9. For a job present in the store, [update_job_status] sets [status]
      and refreshes [updated_at] from the clock; with [error = None] the
      recorded error stays, with [result_summary = None] the recorded
      summary stays (and a given value is recorded); [id], [mode],
      [created_at] and [log_lines] stay in every case, and so does every
      other job. *)
Theorem update_job_status_keeps_what_is_not_given
      job_id status error summary st job :
    jobs._jobs st !! job_id = Some job ->
    let st' := jobs.update_job_status utcnow job_id status error summary st in
    (exists job',
        jobs._jobs st' !! job_id = Some job'
        /\ Job.status job' = status
        /\ Job.updated_at job' = utcnow (jobs.clock_reads st)
        /\ (error = None -> Job.error job' = Job.error job)
        /\ (summary = None -> Job.result_summary job' = Job.result_summary job)
        /\ (forall e, error = Some e -> Job.error job' = Some e)
        /\ (forall r, summary = Some r -> Job.result_summary job' = Some r)
        /\ Job.id job' = Job.id job
        /\ Job.mode job' = Job.mode job
        /\ Job.created_at job' = Job.created_at job
        /\ Job.log_lines job' = Job.log_lines job)
    /\ (forall j, j <> job_id -> jobs._jobs st' !! j = jobs._jobs st !! j).
Proof.
    intros H st'. subst st'. split.
    - eexists. split; [by apply update_job_status_lookup|]. simpl.
      split_and!; try done; by intros; subst.
    - intros j Hj. by apply update_job_status_lookup_ne.
Qed.
End job_store.

Lemma unknown_job_id_is_a_reported_miss_witness :
  jobs._jobs (runner.store (main.world main.boot)) !! "no-such-job" = None
  /\ main.get_job_api "no-such-job" main.boot
     = main.HTTPException 404 "Job not found".
Proof.
  split; [reflexivity|].
  apply (unknown_job_id_is_a_reported_miss Demo.utcnow main.boot "no-such-job"
           FAILED None None "line").
  reflexivity.
Defined.

Lemma update_job_status_keeps_what_is_not_given_witness :
  exists job,
    jobs._jobs (Demo.store_with 1) !! "0" = Some job
    /\ forall j, j <> "0" ->
         jobs._jobs (jobs.update_job_status Demo.utcnow "0" RUNNING None None
                       (Demo.store_with 1)) !! j
         = jobs._jobs (Demo.store_with 1) !! j.
Proof.
  eexists. split; [reflexivity|].
  eapply (update_job_status_keeps_what_is_not_given Demo.utcnow "0" RUNNING
            None None (Demo.store_with 1)).
  reflexivity.
Defined.

(** * Listing jobs *)

Section listing.
Implicit Types (st : jobs.Store) (limit : Z).

Lemma slice_from_drop {A} (start : Z) (l : list A) :
    exists k, slice_from start l = drop k l.
Proof. unfold slice_from. eauto. Qed.

Lemma reverse_slice_last {A} limit (l : list A) :
    0 < limit ->
    reverse (slice_from (- limit) l) = take (Z.to_nat limit) (reverse l).
Proof.
    intros Hpos. unfold slice_from.
    destruct (Z.ltb_spec (- limit) 0) as [_|]; [|lia].
    rewrite reverse_drop.
    destruct (decide (Z.of_nat (length l) <= limit)) as [Hle|Hgt].
    - rewrite !take_ge; [done| |]; rewrite length_reverse; lia.
    - f_equal. lia.
Qed.

Lemma omap_take_prefix {A B} (f : A -> option B) n (l : list A) :
    omap f (take n l) `prefix_of` omap f l.
Proof.
    rewrite <- (take_drop n l) at 2. rewrite omap_app. by apply prefix_app_r.
Qed.

Lemma omap_length_le {A B} (f : A -> option B) (l : list A) :
    (length (omap f l) <= length l)%nat.
Proof.
    induction l as [|x l IH]; csimpl; [lia|]. destruct (f x); csimpl; lia.
Qed.

Lemma list_jobs_explicit_zero st :
    jobs.list_jobs (Some 0) st
    = omap (fun jid => jobs._jobs st !! jid) (reverse (jobs._job_order st)).
Proof. reflexivity. Qed.

(** C4, as the code has it. With [limit > 0], [list_jobs] returns the
      jobs of the [limit] most recently created ids, most recent first,
      hence at most [limit] jobs; with [limit = 0] it returns the jobs of
      all ids, most recent first; without the argument the limit is 50, in
      [jobs.list_jobs] and in the route alike; and for every integer [N],
      [list_jobs N] is a prefix of [list_jobs 0]. *)
Theorem list_jobs_bounded_newest_first st :
    (forall limit, 0 < limit ->
       jobs.list_jobs (Some limit) st
       = omap (fun jid => jobs._jobs st !! jid)
              (take (Z.to_nat limit) (reverse (jobs._job_order st)))
       /\ Z.of_nat (length (jobs.list_jobs (Some limit) st)) <= limit)
    /\ jobs.list_jobs (Some 0) st
       = omap (fun jid => jobs._jobs st !! jid) (reverse (jobs._job_order st))
    /\ jobs.list_jobs None st = jobs.list_jobs (Some 50) st
    /\ (forall s, main.list_jobs_route None s = main.list_jobs_route (Some 50) s)
    /\ (forall N, jobs.list_jobs (Some N) st `prefix_of` jobs.list_jobs (Some 0) st).
Proof.
    split_and!; try done.
    - intros limit Hpos.
      assert (jobs.list_jobs (Some limit) st
              = omap (fun jid => jobs._jobs st !! jid)
                  (take (Z.to_nat limit) (reverse (jobs._job_order st)))) as ->.
      { unfold jobs.list_jobs. simpl.
        rewrite bool_decide_eq_true_2 by lia.
        by rewrite reverse_slice_last. }
      split; [done|].
      pose proof (omap_length_le (fun jid => jobs._jobs st !! jid)
                    (take (Z.to_nat limit) (reverse (jobs._job_order st)))) as Hlen.
      rewrite length_take in Hlen. lia.
    - intros N. rewrite list_jobs_explicit_zero.
      unfold jobs.list_jobs. simpl. case_bool_decide; [|done].
      destruct (slice_from_drop (- N) (jobs._job_order st)) as [k ->].
      rewrite reverse_drop. apply omap_take_prefix.
Qed.

(** C4 as stated fails: a call that leaves [limit] unspecified does not
      return all jobs. In a store of 51 jobs it returns 50 of them. *)
Lemma list_jobs_unspecified_limit_is_not_all :
    length (jobs.list_jobs None (Demo.store_with 51)) = 50%nat
    /\ length (jobs.list_jobs (Some 0) (Demo.store_with 51)) = 51%nat
    /\ jobs.list_jobs None (Demo.store_with 51)
       <> jobs.list_jobs (Some 0) (Demo.store_with 51).
Proof.
    assert (length (jobs.list_jobs None (Demo.store_with 51)) = 50%nat) as H1
      by (vm_compute; reflexivity).
    assert (length (jobs.list_jobs (Some 0) (Demo.store_with 51)) = 51%nat) as H2
      by (vm_compute; reflexivity).
    split_and!; [done|done|]. intros Heq. rewrite Heq in H1. lia.
Qed.

(** A negative limit is sliced like any other: [_job_order[-limit:]]
      leaves out the [|limit|] oldest ids. *)
Lemma list_jobs_negative_limit_example :
    length (jobs.list_jobs (Some (-1)) (Demo.store_with 3)) = 2%nat
    /\ length (jobs.list_jobs (Some 0) (Demo.store_with 3)) = 3%nat.
Proof. split; vm_compute; reflexivity. Qed.
End listing.

Lemma list_jobs_bounded_newest_first_witness :
  0 < 2
  /\ Z.of_nat (length (jobs.list_jobs (Some 2) (Demo.store_with 3))) <= 2.
Proof.
  split; [lia|].
  apply (list_jobs_bounded_newest_first (Demo.store_with 3)). lia.
Defined.

(** * The runner and the worker loop *)

Section runner_props.
Import runner.
Variable utcnow : nat -> Z.
Variable core : Core.
Variable environ_config_path project_config_ini : string.
Implicit Types (st : jobs.Store) (w : World) (job_id mode : string).

Abbreviation run_mode := (run_mode utcnow core environ_config_path project_config_ini).
Abbreviation build_ARGS := (build_ARGS environ_config_path project_config_ini).
Abbreviation apply_appends := (apply_appends utcnow).

Lemma remove_last_snoc job_id hs : remove_last job_id (hs ++ [job_id]) = hs.
Proof.
    induction hs as [|h hs IH]; simpl.
    - by rewrite bool_decide_eq_true_2.
    - rewrite IH.
      rewrite (bool_decide_eq_false_2 (job_id ∉ hs ++ [job_id])).
      + by rewrite andb_false_r.
      + intros Hn. apply Hn, elem_of_app. right. apply list_elem_of_singleton. done.
Qed.

Lemma deliveries_cons hs r records :
    deliveries hs (r :: records) = deliveries hs [r] ++ deliveries hs records.
Proof.
    unfold deliveries. csimpl. destruct (format r); csimpl; [|done].
    by rewrite app_nil_r.
Qed.

Lemma logger_handle_store record w :
    logger_handle utcnow record w
    = (Ret tt, with_store (apply_appends (deliveries (handlers w) [record])) w).
Proof.
    unfold logger_handle, deliveries, emit. csimpl.
    destruct w as [st hs evs]. simpl.
    destruct (format record) as [msg|]; csimpl.
    - rewrite app_nil_r.
      assert (forall hs' st',
        foldl (fun (rw : Res unit * World) h =>
                 on_store (jobs.append_job_log utcnow h msg) rw.2)
              (Ret tt, {| store := st'; handlers := hs; events := evs |}) hs'
        = (Ret tt, {| store := apply_appends ((fun h => (h, msg)) <$> hs') st';
                      handlers := hs; events := evs |})) as Hgen.
      { induction hs' as [|h hs' IH]; intros st'; [done|].
        simpl. destruct hs' as [|h' hs'']; [done|]. by rewrite <- IH. }
      apply Hgen.
    - assert (forall hs',
        foldl (fun (rw : Res unit * World) (_ : string) => ret tt rw.2)
              (Ret tt, {| store := st; handlers := hs; events := evs |}) hs'
        = (Ret tt, {| store := st; handlers := hs; events := evs |})) as Hgen.
      { induction hs' as [|h hs' IH]; [done|]. simpl. apply IH. }
      apply Hgen.
Qed.

Lemma apply_appends_app ops1 ops2 st :
    apply_appends (ops1 ++ ops2) st = apply_appends ops2 (apply_appends ops1 st).
Proof. unfold runner.apply_appends. by rewrite foldl_app. Qed.

Lemma emission_store records w :
    foldl (fun w r => (logger_handle utcnow r w).2) w records
    = with_store (apply_appends (deliveries (handlers w) records)) w.
Proof.
    revert w. induction records as [|r records IH]; intros w.
    - by destruct w.
    - simpl. rewrite logger_handle_store. simpl. rewrite IH. simpl.
      unfold with_store. simpl. f_equal.
      by rewrite (deliveries_cons _ r records), apply_appends_app.
Qed.

Ltac run_unfold :=
    unfold runner.run_mode, invoke, bind, try_except, try_finally, call, ret,
      raise, on_store, log_event, addHandler, removeHandler; simpl.

(** Validation rejects the arguments: the world after [run_mode]. *)
Lemma run_mode_validation_fault job_id mode api_body w ARGS' m :
    import_core core = None ->
    checkArgs core (build_ARGS api_body) = (ARGS', Some (ValueError m)) ->
    run_mode job_id mode api_body w
    = (Ret tt,
       with_store (jobs.update_job_status utcnow job_id FAILED (Some m) None)
         (with_store (jobs.update_job_status utcnow job_id RUNNING None None) w)).
Proof.
    intros Himp Hchk. run_unfold. rewrite Himp. simpl.
    unfold runner.build_ARGS in Hchk. rewrite Hchk. reflexivity.
Qed.

(** What the outer clause [except Exception as e] makes of an exception
      raised in the world [w']: it is handled when it is an instance of
      [Exception] and leaves [run_mode] otherwise. *)
Lemma outer_clause job_id (e : exn) w' :
    (if is_Exception e
     then (on_store (jobs.append_job_log utcnow job_id ("Error: " +:+ str e)) ;;
           on_store (jobs.update_job_status utcnow job_id FAILED
                       (Some (str e)) None)) w'
     else (Raise e, w'))
    = if is_Exception e then (Ret tt, failed_with utcnow job_id e w')
      else (Raise e, w').
Proof. by destruct (is_Exception e). Qed.

(** An exception raised before the handler is attached: the world after
      [run_mode]. *)
Lemma run_mode_early_fault job_id mode api_body w e :
    (import_core core = Some e
     \/ import_core core = None
        /\ exists ARGS',
             (checkArgs core (build_ARGS api_body) = (ARGS', Some e)
              /\ forall m, e <> ValueError m)
             \/ checkArgs core (build_ARGS api_body) = (ARGS', None)
                /\ (set_GLOBAL_VARIABLES core ARGS' = Some e
                    \/ set_GLOBAL_VARIABLES core ARGS' = None
                       /\ (set_LOGGER core ARGS' = Some e
                           \/ set_LOGGER core ARGS' = None
                              /\ set_HELP_TEXTS core ARGS' = Some e))) ->
    let w1 :=
      with_store (jobs.update_job_status utcnow job_id RUNNING None None) w in
    run_mode job_id mode api_body w
    = if is_Exception e then (Ret tt, failed_with utcnow job_id e w1)
      else (Raise e, w1).
Proof.
    intros Hcase w1. rewrite <- outer_clause. subst w1.
    run_unfold.
    destruct Hcase as [Himp|(Himp & ARGS' & [[Hchk Hcls]|[Hchk Hset]])].
    - by rewrite Himp.
    - rewrite Himp. simpl. unfold runner.build_ARGS in Hchk. rewrite Hchk.
      simpl. destruct e as [m|m|m]; [by destruct (Hcls m)|done|done].
    - rewrite Himp. simpl. unfold runner.build_ARGS in Hchk. rewrite Hchk.
      simpl.
      destruct Hset as [Hg|(Hg & [Hl|(Hl & Hh)])].
      + by rewrite Hg.
      + by rewrite Hg, Hl.
      + by rewrite Hg, Hl, Hh.
Qed.

(** The engine is reached and returns or raises: the world after
      [run_mode]. *)
Lemma run_mode_engine_reached job_id mode api_body w ARGS' records r :
    import_core core = None ->
    checkArgs core (build_ARGS api_body) = (ARGS', None) ->
    set_GLOBAL_VARIABLES core ARGS' = None ->
    set_LOGGER core ARGS' = None ->
    set_HELP_TEXTS core ARGS' = None ->
    engine_outcome core mode ARGS' = Some (records, r) ->
    let w3 :=
      {| store :=
           apply_appends (deliveries (handlers w ++ [job_id]) records)
             (jobs.update_job_status utcnow job_id RUNNING None None (store w));
         handlers := handlers w;
         events := events w ++ [HandlerAdded job_id; EngineInvoked mode ARGS';
                                HandlerRemoved job_id] |} in
    run_mode job_id mode api_body w
    = match r with
      | None =>
          (Ret tt,
           with_store (jobs.update_job_status utcnow job_id DONE None
                         (Some "Completed successfully")) w3)
      | Some e =>
          if is_Exception e then (Ret tt, failed_with utcnow job_id e w3)
          else (Raise e, w3)
      end.
Proof.
    intros Himp Hchk Hg Hl Hh Hout. run_unfold. rewrite Himp. simpl.
    unfold runner.build_ARGS in Hchk. rewrite Hchk. simpl.
    rewrite Hg, Hl, Hh. simpl.
    unfold engine_outcome in Hout.
    assert (forall (out : list LogRecord * option exn),
      out = (records, r) ->
      forall w0, handlers w0 = handlers w ++ [job_id] ->
      foldl (fun w r => (logger_handle utcnow r w).2) w0 out.1
      = with_store (apply_appends (deliveries (handlers w ++ [job_id]) records)) w0)
      as Hemit.
    { intros out -> w0 Hw0. rewrite emission_store. by rewrite Hw0. }
    repeat case_bool_decide; simplify_eq; run_unfold;
      (erewrite Hemit; [|done|done]); rewrite Hout; simpl;
      (destruct r as [e|]; [destruct (is_Exception e)|]); simpl;
      unfold failed_with, with_store; simpl;
      rewrite remove_last_snoc, <- !app_assoc; reflexivity.
Qed.

(** The mode is not known: the world after [run_mode]. *)
Lemma run_mode_mode_unknown job_id mode api_body w ARGS' :
    mode <> "google-takeout" ->
    mode <> "automatic-migration" ->
    import_core core = None ->
    checkArgs core (build_ARGS api_body) = (ARGS', None) ->
    set_GLOBAL_VARIABLES core ARGS' = None ->
    set_LOGGER core ARGS' = None ->
    set_HELP_TEXTS core ARGS' = None ->
    run_mode job_id mode api_body w
    = (Ret tt,
       failed_with utcnow job_id (ValueError ("Unknown mode: " +:+ mode))
         {| store :=
              jobs.update_job_status utcnow job_id RUNNING None None (store w);
            handlers := handlers w;
            events := events w ++ [HandlerAdded job_id;
                                   HandlerRemoved job_id] |}).
Proof.
    intros Hm1 Hm2 Himp Hchk Hg Hl Hh.
    run_unfold. rewrite Himp. simpl.
    unfold runner.build_ARGS in Hchk. rewrite Hchk. simpl.
    rewrite Hg, Hl, Hh. simpl.
    rewrite !bool_decide_eq_false_2 by done. simpl.
    unfold failed_with, with_store. simpl.
    rewrite remove_last_snoc, <- !app_assoc. reflexivity.
Qed.

(** The lines that a sequence of [append_job_log] calls adds to one job. *)
Lemma apply_appends_lookup ops st j job :
    jobs._jobs st !! j = Some job ->
    exists job',
      jobs._jobs (apply_appends ops st) !! j = Some job'
      /\ Job.id job' = Job.id job /\ Job.mode job' = Job.mode job
      /\ Job.status job' = Job.status job
      /\ Job.created_at job' = Job.created_at job
      /\ Job.error job' = Job.error job
      /\ Job.result_summary job' = Job.result_summary job
      /\ Job.log_lines job'
         = Job.log_lines job ++ (filter (fun op => op.1 = j) ops).*2.
Proof.
    revert st job. induction ops as [|[h line] ops IH]; intros st job Hj.
    - exists job. rewrite app_nil_r. by split_and!.
    - simpl. destruct (decide (h = j)) as [->|Hne].
      + pose proof (append_job_log_lookup utcnow j line st job Hj) as Hj'.
        destruct (IH _ _ Hj') as (job' & ? & ? & ? & ? & ? & ? & ? & Hlog).
        exists job'. split_and!; try done.
        rewrite Hlog. simpl. rewrite filter_cons_True by done.
        simpl. by rewrite <- app_assoc.
      + assert (jobs._jobs (jobs.append_job_log utcnow h line st) !! j = Some job)
          as Hj' by (rewrite append_job_log_lookup_ne; done).
        destruct (IH _ _ Hj') as (job' & ? & ? & ? & ? & ? & ? & ? & Hlog).
        exists job'. split_and!; try done.
        rewrite Hlog. by rewrite filter_cons_False.
Qed.

Lemma deliveries_own job_id hs records :
    job_id ∉ hs ->
    (filter (fun op => op.1 = job_id) (deliveries (hs ++ [job_id]) records)).*2
    = omap format records.
Proof.
    intros Hnot. unfold deliveries.
    induction (omap format records) as [|msg msgs IH]; [done|].
    rewrite bind_cons, filter_app, fmap_app, IH. f_equal.
    rewrite fmap_app, filter_app. simpl.
    rewrite filter_cons_True, filter_nil by done.
    assert (filter (fun op : string * string => op.1 = job_id)
              ((fun h => (h, msg)) <$> hs) = []) as ->; [|done].
    clear IH. induction hs as [|h hs IH]; [done|]. simpl.
    rewrite filter_cons_False.
    - apply IH. intros Hin. apply Hnot. by right.
    - simpl. intros ->. apply Hnot. by left.
Qed.


Lemma failed_with_form job_id e w ops st0 :
    store w = apply_appends ops st0 ->
    failed_with utcnow job_id e w
    = {| store :=
           jobs.update_job_status utcnow job_id FAILED (Some (str e)) None
             (apply_appends (ops ++ [(job_id, "Error: " +:+ str e)]) st0);
         handlers := handlers w; events := events w |}.
Proof.
    intros Hst. unfold failed_with, with_store. simpl.
    by rewrite apply_appends_app, Hst.
Qed.

(** Whatever the collaborators do, [run_mode] either returns normally,
      with the job given a final status, or is left by an exception that is
      no instance of [Exception], without a further write to the status; in
      both cases the handlers are those attached before the call and the
      store is the one after the write of [running] and a sequence of log
      appends. *)
Lemma run_mode_summary job_id mode api_body w :
    exists ops evs (fin : option (JobStatus * option string * option string))
           res,
      run_mode job_id mode api_body w
      = (res,
         {| store :=
              (match fin with
               | Some (t, e, r) => jobs.update_job_status utcnow job_id t e r
               | None => fun st => st
               end)
                (apply_appends ops
                   (jobs.update_job_status utcnow job_id RUNNING None None
                      (store w)));
            handlers := handlers w;
            events := events w ++ evs |})
      /\ match fin with
         | Some (t, _, _) => (t = DONE \/ t = FAILED) /\ res = Ret tt
         | None => exists e, is_Exception e = false /\ res = Raise e
         end.
Proof.
    assert (forall e0 ops0 evs0,
      exists ops evs
             (fin : option (JobStatus * option string * option string)) res,
        (if is_Exception e0
         then (Ret tt,
               failed_with utcnow job_id e0
                 {| store :=
                      apply_appends ops0
                        (jobs.update_job_status utcnow job_id RUNNING None None
                           (store w));
                    handlers := handlers w; events := events w ++ evs0 |})
         else (Raise e0,
               {| store :=
                    apply_appends ops0
                      (jobs.update_job_status utcnow job_id RUNNING None None
                         (store w));
                  handlers := handlers w; events := events w ++ evs0 |}))
        = (res,
           {| store :=
                (match fin with
                 | Some (t, e, r) => jobs.update_job_status utcnow job_id t e r
                 | None => fun st => st
                 end)
                  (apply_appends ops
                     (jobs.update_job_status utcnow job_id RUNNING None None
                        (store w)));
              handlers := handlers w;
              events := events w ++ evs |})
        /\ match fin with
           | Some (t, _, _) => (t = DONE \/ t = FAILED) /\ res = Ret tt
           | None => exists e, is_Exception e = false /\ res = Raise e
           end) as Hfail.
    { intros e0 ops0 evs0. destruct (is_Exception e0) eqn:Hcls.
      - exists (ops0 ++ [(job_id, "Error: " +:+ str e0)]), evs0,
          (Some (FAILED, Some (str e0), None)), (Ret tt).
        split; [|split; [by right|done]].
        by erewrite failed_with_form.
      - exists ops0, evs0, None, (Raise e0). split; [done|]. by exists e0. }
    assert (forall e0,
      (import_core core = Some e0
       \/ import_core core = None
          /\ exists ARGS',
               (checkArgs core (build_ARGS api_body) = (ARGS', Some e0)
                /\ forall m, e0 <> ValueError m)
               \/ checkArgs core (build_ARGS api_body) = (ARGS', None)
                  /\ (set_GLOBAL_VARIABLES core ARGS' = Some e0
                      \/ set_GLOBAL_VARIABLES core ARGS' = None
                         /\ (set_LOGGER core ARGS' = Some e0
                             \/ set_LOGGER core ARGS' = None
                                /\ set_HELP_TEXTS core ARGS' = Some e0))) ->
      exists ops evs
             (fin : option (JobStatus * option string * option string)) res,
        run_mode job_id mode api_body w
        = (res,
           {| store :=
                (match fin with
                 | Some (t, e, r) => jobs.update_job_status utcnow job_id t e r
                 | None => fun st => st
                 end)
                  (apply_appends ops
                     (jobs.update_job_status utcnow job_id RUNNING None None
                        (store w)));
              handlers := handlers w;
              events := events w ++ evs |})
        /\ match fin with
           | Some (t, _, _) => (t = DONE \/ t = FAILED) /\ res = Ret tt
           | None => exists e, is_Exception e = false /\ res = Raise e
           end) as Hearly.
    { intros e0 Hcase.
      rewrite (run_mode_early_fault job_id mode api_body w e0 Hcase).
      destruct (Hfail e0 [] []) as (ops & evs & fin & res & Heq & Hfin).
      exists ops, evs, fin, res. split; [|done]. rewrite <- Heq.
      unfold with_store. simpl. by rewrite app_nil_r. }
    destruct (import_core core) as [e0|] eqn:Himp.
    { apply (Hearly e0). by left. }
    destruct (checkArgs core (build_ARGS api_body)) as [ARGS' [e0|]] eqn:Hchk.
    { assert ((exists m, e0 = ValueError m) \/ forall m, e0 <> ValueError m)
        as [[m ->]|Hcls].
      { destruct e0 as [m|m|m]; [left; by exists m|by right|by right]. }
      - exists [], [], (Some (FAILED, Some m, None)), (Ret tt).
        split; [|split; [by right|done]].
        rewrite app_nil_r. by erewrite run_mode_validation_fault.
      - apply (Hearly e0). right. split; [done|]. exists ARGS'. left.
        by split. }
    destruct (set_GLOBAL_VARIABLES core ARGS') as [e0|] eqn:Hg.
    { apply (Hearly e0). right. split; [done|]. exists ARGS'. right.
      split; [done|]. by left. }
    destruct (set_LOGGER core ARGS') as [e0|] eqn:Hl.
    { apply (Hearly e0). right. split; [done|]. exists ARGS'. right.
      split; [done|]. right. split; [done|]. by left. }
    destruct (set_HELP_TEXTS core ARGS') as [e0|] eqn:Hh.
    { apply (Hearly e0). right. split; [done|]. exists ARGS'. right.
      split; [done|]. right. split; [done|]. right. by split. }
    destruct (engine_outcome core mode ARGS') as [[records r]|] eqn:Hout.
    - rewrite (run_mode_engine_reached job_id mode api_body w ARGS' records r)
        by done.
      destruct r as [e0|].
      + apply Hfail.
      + eexists _, _, (Some (DONE, None, Some "Completed successfully")),
          (Ret tt).
        split; [reflexivity|]. split; [by left|done].
    - unfold engine_outcome in Hout. repeat case_bool_decide; try done.
      rewrite (run_mode_mode_unknown job_id mode api_body w ARGS') by done.
      destruct (Hfail (ValueError ("Unknown mode: " +:+ mode)) []
                  [HandlerAdded job_id; HandlerRemoved job_id])
        as (ops & evs & fin & res & Heq & Hfin).
      exists ops, evs, fin, res. split; [|done]. rewrite <- Heq. reflexivity.
Qed.
End runner_props.

(** * The life cycle of a job *)

Section status_history.
Import runner.
Variable utcnow : nat -> Z.
Implicit Types (st : jobs.Store) (j job_id : string).

Abbreviation apply_appends := (apply_appends utcnow).

Lemma history_update_ne j job_id t e r st :
    j <> job_id ->
    jobs.status_history j (jobs.update_job_status utcnow job_id t e r st)
    = jobs.status_history j st.
Proof.
    intros Hne. unfold jobs.update_job_status.
    destruct (jobs._jobs st !! job_id); [|done].
    unfold jobs.status_history. simpl.
    rewrite filter_app, filter_cons_False, filter_nil, app_nil_r; [done|].
    simpl. congruence.
Qed.

Lemma history_update_present job_id t e r st :
    is_Some (jobs._jobs st !! job_id) ->
    jobs.status_history job_id (jobs.update_job_status utcnow job_id t e r st)
    = jobs.status_history job_id st ++ [t].
Proof.
    intros [job Hjob]. unfold jobs.update_job_status. rewrite Hjob.
    unfold jobs.status_history. simpl.
    by rewrite filter_app, filter_cons_True, filter_nil, fmap_app.
Qed.

Lemma history_append j h line st :
    jobs.status_history j (jobs.append_job_log utcnow h line st)
    = jobs.status_history j st.
Proof.
    unfold jobs.append_job_log. by destruct (jobs._jobs st !! h).
Qed.

Lemma history_apply_appends j ops st :
    jobs.status_history j (apply_appends ops st) = jobs.status_history j st.
Proof.
    revert st. induction ops as [|op ops IH]; intros st; [done|].
    simpl. by rewrite IH, history_append.
Qed.

Lemma update_is_Some j job_id t e r st :
    is_Some (jobs._jobs (jobs.update_job_status utcnow job_id t e r st) !! j)
    <-> is_Some (jobs._jobs st !! j).
Proof.
    unfold jobs.update_job_status.
    destruct (jobs._jobs st !! job_id) eqn:Hjob; [|done]. simpl.
    destruct (decide (job_id = j)) as [->|Hne].
    - rewrite lookup_insert_eq, Hjob. split; eauto.
    - by rewrite lookup_insert_ne.
Qed.

Lemma append_is_Some j h line st :
    is_Some (jobs._jobs (jobs.append_job_log utcnow h line st) !! j)
    <-> is_Some (jobs._jobs st !! j).
Proof.
    unfold jobs.append_job_log.
    destruct (jobs._jobs st !! h) eqn:Hjob; [|done]. simpl.
    destruct (decide (h = j)) as [->|Hne].
    - rewrite lookup_insert_eq, Hjob. split; eauto.
    - by rewrite lookup_insert_ne.
Qed.

Lemma apply_appends_is_Some j ops st :
    is_Some (jobs._jobs (apply_appends ops st) !! j)
    <-> is_Some (jobs._jobs st !! j).
Proof.
    revert st. induction ops as [|op ops IH]; intros st; [done|].
    simpl. by rewrite IH, append_is_Some.
Qed.

Lemma uuid_draws_update job_id t e r st :
    jobs.uuid_draws (jobs.update_job_status utcnow job_id t e r st)
    = jobs.uuid_draws st.
Proof. unfold jobs.update_job_status. by destruct (jobs._jobs st !! job_id). Qed.

Lemma uuid_draws_apply_appends ops st :
    jobs.uuid_draws (apply_appends ops st) = jobs.uuid_draws st.
Proof.
    revert st. induction ops as [|op ops IH]; intros st; [done|].
    simpl. rewrite IH. unfold jobs.append_job_log.
    by destruct (jobs._jobs st !! op.1).
Qed.

Lemma status_is_last_write_update job_id t e r st :
    status_is_last_write st ->
    status_is_last_write (jobs.update_job_status utcnow job_id t e r st).
Proof.
    intros Hok j job Hj.
    destruct (jobs._jobs st !! job_id) as [job0|] eqn:Hjob.
    - destruct (decide (j = job_id)) as [->|Hne].
      + rewrite history_update_present by eauto.
        rewrite (update_job_status_lookup _ _ _ _ _ _ _ Hjob) in Hj.
        simplify_eq. simpl. by rewrite last_snoc.
      + rewrite history_update_ne by done.
        rewrite update_job_status_lookup_ne in Hj by done. by apply Hok.
    - rewrite update_job_status_absent in Hj |- * by done. by apply Hok.
Qed.

Lemma status_is_last_write_append h line st :
    status_is_last_write st ->
    status_is_last_write (jobs.append_job_log utcnow h line st).
Proof.
    intros Hok j job Hj. rewrite history_append.
    destruct (jobs._jobs st !! h) as [job0|] eqn:Hjob.
    - destruct (decide (j = h)) as [->|Hne].
      + rewrite (append_job_log_lookup _ _ _ _ _ Hjob) in Hj.
        simplify_eq. simpl. by apply Hok.
      + rewrite append_job_log_lookup_ne in Hj by done. by apply Hok.
    - rewrite append_job_log_absent in Hj by done. by apply Hok.
Qed.

Lemma status_is_last_write_apply_appends ops st :
    status_is_last_write st -> status_is_last_write (apply_appends ops st).
Proof.
    revert st. induction ops as [|op ops IH]; intros st Hok; [done|].
    simpl. by apply IH, status_is_last_write_append.
Qed.
End status_history.

Section lifecycle_invariant.
Import runner.
Variable utcnow : nat -> Z.
Variable uuid4 : nat -> string.
Variable core : Core.
Variable environ_config_path project_config_ini : string.
(** Identifiers drawn at different times are different. *)
Hypothesis uuid4_fresh : forall m n, uuid4 m = uuid4 n -> m = n.
Implicit Types (s : main.System) (st : jobs.Store) (j : string).

Abbreviation history j s := (jobs.status_history j (store (main.world s))).
Abbreviation step :=
    (main.step utcnow uuid4 core environ_config_path project_config_ini).
Abbreviation reachable :=
    (main.reachable utcnow uuid4 core environ_config_path project_config_ini).

(** What holds between two moves of the process. *)
Record invariant s : Prop := {
    inv_history : forall j,
      history j s ∈ [ []; [PENDING]; [PENDING; RUNNING];
                      [PENDING; RUNNING; DONE]; [PENDING; RUNNING; FAILED] ];
    inv_queued : forall j,
      j ∈ queued_ids (main._job_queue s) -> history j s = [PENDING];
    inv_nodup : NoDup (queued_ids (main._job_queue s));
    inv_drawn : forall j,
      history j s <> [] ->
      exists n, (n < jobs.uuid_draws (store (main.world s)))%nat /\ j = uuid4 n;
    inv_last : status_is_last_write (store (main.world s));
  }.

Lemma invariant_boot : invariant main.boot.
Proof.
    split.
    - intros j. by left.
    - intros j Hj. by apply elem_of_nil in Hj.
    - constructor.
    - intros j Hj. done.
    - intros j job Hj. change (jobs._jobs (store (main.world main.boot)))
        with (∅ : gmap string Job.t) in Hj. by rewrite lookup_empty in Hj.
Qed.

Lemma history_create j mode st :
    jobs.status_history j (jobs.create_job utcnow uuid4 mode st).2
    = jobs.status_history j st
      ++ (if decide (uuid4 (jobs.uuid_draws st) = j) then [PENDING] else []).
Proof.
    unfold jobs.status_history. simpl.
    rewrite filter_app, fmap_app. f_equal.
    case_decide.
    - by rewrite filter_cons_True.
    - by rewrite filter_cons_False.
Qed.

Lemma invariant_start s mode args :
    invariant s -> invariant (main.start_job utcnow uuid4 mode args s).2.
Proof.
    intros [Hh Hq Hn Hd Hl].
    set (new := uuid4 (jobs.uuid_draws (store (main.world s)))).
    assert (history new s = []) as Hnew.
    { destruct (history new s) eqn:Hhist; [done|].
      destruct (Hd new) as (n & Hlt & Heq); [by rewrite Hhist|].
      apply uuid4_fresh in Heq. lia. }
    assert (forall j,
      history j (main.start_job utcnow uuid4 mode args s).2
      = history j s ++ (if decide (new = j) then [PENDING] else [])) as Hhist.
    { intros j. apply history_create. }
    assert (queued_ids (main._job_queue (main.start_job utcnow uuid4 mode args s).2)
            = queued_ids (main._job_queue s) ++ [new]) as Hqueue.
    { unfold queued_ids. simpl. by rewrite omap_app. }
    split.
    - intros j. rewrite Hhist. case_decide as Hj.
      + subst j. rewrite Hnew. simpl. set_solver.
      + rewrite app_nil_r. apply Hh.
    - intros j. rewrite Hqueue, Hhist, elem_of_app, list_elem_of_singleton.
      intros [Hin| ->].
      + rewrite decide_False; [rewrite app_nil_r; by apply Hq|].
        intros <-. apply Hq in Hin. by rewrite Hnew in Hin.
      + by rewrite decide_True, Hnew.
    - rewrite Hqueue. apply NoDup_app. split_and!; [done| |apply NoDup_singleton].
      intros j Hin ->%list_elem_of_singleton.
      apply Hq in Hin. by rewrite Hnew in Hin.
    - intros j. rewrite Hhist. simpl. case_decide as Hj.
      + intros _. exists (jobs.uuid_draws (store (main.world s))). split; [lia|done].
      + rewrite app_nil_r. intros Hne. destruct (Hd j Hne) as (n & Hlt & Heq).
        exists n. split; [lia|done].
    - intros j job Hj. rewrite (Hhist j). simpl in Hj. fold new in Hj.
      destruct (decide (new = j)) as [<-|Hne].
      + rewrite lookup_insert_eq in Hj. injection Hj as <-. simpl.
        by rewrite last_snoc.
      + rewrite lookup_insert_ne in Hj by done. rewrite app_nil_r.
        by apply Hl.
Qed.

(** The store after a pass of [run_mode], see [run_mode_summary]. *)
Let after_run j0 (fin : option (JobStatus * option string * option string))
      ops st : jobs.Store :=
    (match fin with
     | Some (t, e, r) => jobs.update_job_status utcnow j0 t e r
     | None => fun st => st
     end)
      (runner.apply_appends utcnow ops
         (jobs.update_job_status utcnow j0 RUNNING None None st)).

Lemma history_after_run_ne j j0 fin ops st :
    j <> j0 ->
    jobs.status_history j (after_run j0 fin ops st) = jobs.status_history j st.
Proof.
    intros Hne. unfold after_run. destruct fin as [[[t e] r]|].
    - by rewrite history_update_ne, history_apply_appends, history_update_ne.
    - by rewrite history_apply_appends, history_update_ne.
Qed.

Lemma history_after_run j0 fin ops st :
    jobs.status_history j0 (after_run j0 fin ops st)
    = jobs.status_history j0 st
      ++ (if decide (is_Some (jobs._jobs st !! j0))
          then RUNNING :: match fin with Some (t, _, _) => [t] | None => [] end
          else []).
Proof.
    unfold after_run. case_decide as Hj.
    - destruct fin as [[[t e] r]|].
      + rewrite history_update_present.
        * rewrite history_apply_appends, history_update_present by done.
          by rewrite <- app_assoc.
        * by apply apply_appends_is_Some, update_is_Some.
      + by rewrite history_apply_appends, history_update_present.
    - assert (jobs._jobs st !! j0 = None) as Hnone
        by (by apply eq_None_not_Some).
      rewrite (update_job_status_absent utcnow j0 RUNNING None None st Hnone).
      rewrite app_nil_r. destruct fin as [[[t e] r]|].
      + rewrite update_job_status_absent.
        * by rewrite history_apply_appends.
        * apply eq_None_not_Some. by rewrite apply_appends_is_Some.
      + by rewrite history_apply_appends.
Qed.

Lemma invariant_run s j0 mode args rest fin ops hs evs alive :
    match fin with
    | Some (t, _, _) => t = DONE \/ t = FAILED
    | None => True
    end ->
    main._job_queue s = Some (j0, mode, args) :: rest ->
    invariant s ->
    invariant {| main.world :=
                   {| store := after_run j0 fin ops (store (main.world s));
                      handlers := hs; events := evs |};
                 main._job_queue := rest; main.worker_alive := alive |}.
Proof.
    intros Ht Hqueue [Hh Hq Hn Hd Hl].
    rewrite Hqueue in Hq, Hn. unfold queued_ids in Hq, Hn. simpl in Hq, Hn.
    fold (queued_ids rest) in Hq, Hn.
    apply NoDup_cons in Hn as [Hnotin Hn].
    assert (history j0 s = [PENDING]) as Hj0 by (apply Hq; by left).
    split; simpl.
    - intros j. destruct (decide (j = j0)) as [->|Hne].
      + rewrite history_after_run, Hj0. case_decide; simpl.
        * destruct fin as [[[t e] r]|].
          -- destruct Ht as [Hdone | Hfailed]; subst t;
               [do 3 right; by left | do 4 right; by left].
          -- do 2 right; by left.
        * right; by left.
      + rewrite history_after_run_ne by done. apply Hh.
    - intros j Hin. rewrite history_after_run_ne.
      + apply Hq. by right.
      + by intros ->.
    - done.
    - intros j.
      assert (jobs.uuid_draws (after_run j0 fin ops (store (main.world s)))
              = jobs.uuid_draws (store (main.world s))) as ->.
      { unfold after_run. destruct fin as [[[t e] r]|].
        - by rewrite uuid_draws_update, uuid_draws_apply_appends,
            uuid_draws_update.
        - by rewrite uuid_draws_apply_appends, uuid_draws_update. }
      destruct (decide (j = j0)) as [->|Hne].
      + intros _. apply Hd. by rewrite Hj0.
      + rewrite history_after_run_ne by done. apply Hd.
    - unfold after_run. destruct fin as [[[t e] r]|].
      + by apply status_is_last_write_update,
          status_is_last_write_apply_appends, status_is_last_write_update.
      + by apply status_is_last_write_apply_appends,
          status_is_last_write_update.
Qed.

Lemma invariant_step s s' : invariant s -> step s s' -> invariant s'.
Proof.
    intros Hinv Hstep. destruct Hstep as [mode args|item rest r w' _ Hqueue Hpass|].
    - by apply invariant_start.
    - destruct item as [[[j0 mode] args]|].
      + destruct (run_mode_summary utcnow core environ_config_path
                    project_config_ini j0 mode args (main.world s))
          as (ops & evs & fin & res & Hrun & Hfin).
        unfold main._worker_pass, try_except, bind, ret in Hpass.
        rewrite Hrun in Hpass.
        assert (w' = {| store := after_run j0 fin ops (store (main.world s));
                        handlers := handlers (main.world s);
                        events := events (main.world s) ++ evs |}) as ->.
        { destruct fin as [[[t e] r0]|].
          - destruct Hfin as [_ ->]. by injection Hpass as <- <-.
          - destruct Hfin as (e & Hcls & ->). rewrite Hcls in Hpass.
            by injection Hpass as <- <-. }
        eapply invariant_run; [|done|done].
        destruct fin as [[[t e] r0]|]; [by destruct Hfin|done].
      + unfold main._worker_pass, try_except, ret in Hpass.
        injection Hpass as <- <-.
        destruct Hinv as [Hh Hq Hn Hd Hl].
        rewrite Hqueue in Hq, Hn. by split.
    - destruct Hinv as [Hh Hq Hn Hd Hl].
      assert (queued_ids (main._job_queue s ++ [None])
              = queued_ids (main._job_queue s)) as Hsame.
      { unfold queued_ids. rewrite omap_app. simpl. by rewrite app_nil_r. }
      split; simpl; try done; by rewrite Hsame.
Qed.

Lemma invariant_reachable s : reachable s -> invariant s.
Proof.
    induction 1 as [|s s' _ IH Hstep].
    - apply invariant_boot.
    - by eapply invariant_step.
Qed.

(** C2. In every state that the process reaches (jobs are started by the
      request handlers through [create_job] and touched afterwards only by
      the worker's pass of [run_mode]), the values written so far to the
      [status] field of any job are a beginning of
      [pending, running, done] or of [pending, running, failed]; the field
      holds the value written last. Hence no other sequence of statuses can
      be observed, and nothing is written after [done] or [failed]. *)
Theorem status_follows_the_lifecycle s job_id :
    reachable s ->
    lifecycle (history job_id s)
    /\ (forall job,
          jobs._jobs (store (main.world s)) !! job_id = Some job ->
          last (history job_id s) = Some (Job.status job)).
Proof.
    intros Hreach. apply invariant_reachable in Hreach.
    destruct Hreach as [Hh _ _ _ Hl]. split; [|by apply Hl].
    specialize (Hh job_id). unfold lifecycle.
    repeat (apply elem_of_cons in Hh as [->|Hh]).
    - left. apply prefix_nil.
    - left. by exists [RUNNING; DONE].
    - left. by exists [DONE].
    - by left.
    - by right.
    - by apply elem_of_nil in Hh.
Qed.
End lifecycle_invariant.

(** * The worker loop after a fault *)

Section worker_loop.
Import runner.
Variable utcnow : nat -> Z.
Variable core : Core.
Variable environ_config_path project_config_ini : string.
Implicit Types (st : jobs.Store) (w : World) (job_id mode : string).

Abbreviation run_mode := (run_mode utcnow core environ_config_path project_config_ini).
Abbreviation build_ARGS := (build_ARGS environ_config_path project_config_ini).
Abbreviation _worker_pass :=
    (main._worker_pass utcnow core environ_config_path project_config_ini).
Abbreviation _worker :=
    (main._worker utcnow core environ_config_path project_config_ini).

(** A pass of [run_mode] for a job of the store writes [running] to its
      status before anything else. *)
Lemma run_mode_marks_running job_id mode api_body w job :
    jobs._jobs (store w) !! job_id = Some job ->
    exists res w',
      run_mode job_id mode api_body w = (res, w')
      /\ (jobs.status_history job_id (store w) ++ [RUNNING])
           `prefix_of` jobs.status_history job_id (store w').
Proof.
    intros Hjob.
    destruct (run_mode_summary utcnow core environ_config_path
                project_config_ini job_id mode api_body w)
      as (ops & evs & fin & res & Hrun & _).
    eexists _, _. split; [exact Hrun|]. simpl.
    assert (jobs.status_history job_id
              (runner.apply_appends utcnow ops
                 (jobs.update_job_status utcnow job_id RUNNING None None
                    (store w)))
            = jobs.status_history job_id (store w) ++ [RUNNING]) as Hrunning.
    { by rewrite history_apply_appends, history_update_present. }
    destruct fin as [[[t e] r]|].
    - rewrite history_update_present.
      + rewrite Hrunning. by apply prefix_app_r.
      + apply apply_appends_is_Some, update_is_Some. by eexists.
    - by rewrite Hrunning.
Qed.

(** C1, as the code has it. When the execution mode raises an exception
      [e] that is an instance of [Exception], [run_mode] returns normally;
      the job is [failed] with [error = str e]; its log is the log it had,
      then the lines captured during the run, then the final line
      ["Error: " + str e]; the handler is detached again. The worker
      survives: its pass for the item returns without leaving the loop, the
      thread stays alive with the rest of the queue, and the loop takes the
      next item from the queue and runs it in the world that the failed job
      left, which writes [running] to the status of the next job. *)
Theorem engine_fault_is_contained
      job_id mode api_body w job ARGS' records e :
    jobs._jobs (store w) !! job_id = Some job ->
    import_core core = None ->
    checkArgs core (build_ARGS api_body) = (ARGS', None) ->
    set_GLOBAL_VARIABLES core ARGS' = None ->
    set_LOGGER core ARGS' = None ->
    set_HELP_TEXTS core ARGS' = None ->
    engine_outcome core mode ARGS' = Some (records, Some e) ->
    is_Exception e = true ->
    exists w' job',
      run_mode job_id mode api_body w = (Ret tt, w')
      /\ jobs._jobs (store w') !! job_id = Some job'
      /\ Job.status job' = FAILED
      /\ Job.error job' = Some (str e)
      /\ last (Job.log_lines job') = Some ("Error: " +:+ str e)
      /\ (exists lines,
            Job.log_lines job'
            = Job.log_lines job ++ lines ++ ["Error: " +:+ str e]
            /\ (job_id ∉ handlers w -> lines = omap format records))
      /\ handlers w' = handlers w
      /\ _worker_pass (Some (job_id, mode, api_body)) w = (Ret false, w')
      /\ (forall uuid4 s rest,
            main.world s = w ->
            main.worker_alive s = true ->
            main._job_queue s = Some (job_id, mode, api_body) :: rest ->
            main.step utcnow uuid4 core environ_config_path project_config_ini
              s {| main.world := w'; main._job_queue := rest;
                   main.worker_alive := true |})
      /\ (forall j2 mode2 body2 job2,
            jobs._jobs (store w') !! j2 = Some job2 ->
            exists res2 w'',
              run_mode j2 mode2 body2 w' = (res2, w'')
              /\ _worker [Some (job_id, mode, api_body);
                          Some (j2, mode2, body2)] w
                 = (w'', [])
              /\ (forall rest,
                    _worker (Some (job_id, mode, api_body)
                             :: Some (j2, mode2, body2) :: rest) w
                    = match res2 with
                      | Ret _ => _worker rest w''
                      | Raise _ => (w'', rest)
                      end)
              /\ (jobs.status_history j2 (store w') ++ [RUNNING])
                   `prefix_of` jobs.status_history j2 (store w'')).
Proof.
    intros Hjob Himp Hchk Hg Hl Hh Hout Hcls.
    pose proof (run_mode_engine_reached utcnow core environ_config_path
                  project_config_ini job_id mode api_body w ARGS' records
                  (Some e) Himp Hchk Hg Hl Hh Hout) as Hrun.
    simpl in Hrun. rewrite Hcls in Hrun.
    pose proof (update_job_status_lookup utcnow job_id RUNNING None None
                  (store w) job Hjob) as H1.
    destruct (apply_appends_lookup utcnow
                (deliveries (handlers w ++ [job_id]) records) _ _ _ H1)
      as (job2 & H2 & _ & _ & _ & _ & _ & _ & Hlog2).
    pose proof (append_job_log_lookup utcnow job_id ("Error: " +:+ str e)
                  _ _ H2) as H3.
    pose proof (update_job_status_lookup utcnow job_id FAILED
                  (Some (str e)) None _ _ H3) as H4.
    assert (_worker_pass (Some (job_id, mode, api_body)) w
            = (Ret false, failed_with utcnow job_id e
                 {| store :=
                      runner.apply_appends utcnow
                        (deliveries (handlers w ++ [job_id]) records)
                        (jobs.update_job_status utcnow job_id RUNNING None None
                           (store w));
                    handlers := handlers w;
                    events := events w ++ [HandlerAdded job_id;
                                           EngineInvoked mode ARGS';
                                           HandlerRemoved job_id] |}))
      as Hpass.
    { unfold main._worker_pass, try_except, bind, ret. by rewrite Hrun. }
    eexists _, _. split; [exact Hrun|].
    split; [exact H4|].
    split_and!; try done.
    - simpl. by rewrite last_snoc.
    - simpl. eexists. rewrite Hlog2. simpl. rewrite <- app_assoc.
      split; [done|]. intros Hnot. by apply deliveries_own.
    - intros uuid4 s rest Hw Halive Hqueue.
      apply (main.step_worker utcnow uuid4 core environ_config_path
               project_config_ini s (Some (job_id, mode, api_body)) rest
               (Ret false)); [done|done|]. by rewrite Hw.
    - intros j2 mode2 body2 job3 Hj2.
      destruct (run_mode_marks_running j2 mode2 body2 _ job3 Hj2)
        as (res2 & w'' & Hrun2 & Hpre).
      assert (forall rest,
        _worker (Some (job_id, mode, api_body)
                 :: Some (j2, mode2, body2) :: rest) w
        = match res2 with
          | Ret _ => _worker rest w''
          | Raise _ => (w'', rest)
          end) as Hloop.
      { intros rest. simpl. rewrite Hpass.
        unfold main._worker_pass at 1. unfold try_except, bind, ret.
        rewrite Hrun2.
        destruct (run_mode_summary utcnow core environ_config_path
                    project_config_ini j2 mode2 body2
                    (failed_with utcnow job_id e
                       {| store :=
                            runner.apply_appends utcnow
                              (deliveries (handlers w ++ [job_id]) records)
                              (jobs.update_job_status utcnow job_id RUNNING
                                 None None (store w));
                          handlers := handlers w;
                          events := events w ++ [HandlerAdded job_id;
                                                 EngineInvoked mode ARGS';
                                                 HandlerRemoved job_id] |}))
          as (ops & evs & fin & res & Hsum & Hfin).
        rewrite Hrun2 in Hsum. injection Hsum as -> _.
        destruct fin as [[[t e2] r2]|].
        - by destruct Hfin as [_ ->].
        - destruct Hfin as (e2 & Hcls2 & ->). by rewrite Hcls2. }
      exists res2, w''. split; [exact Hrun2|]. split; [|by split].
      rewrite Hloop. by destruct res2.
Qed.
End worker_loop.

(** ** The results at the demonstration engine *)


Lemma engine_fault_is_contained_witness :
  exists w' job' w'',
    runner.run_mode Demo.utcnow Demo.core Demo.environ_config_path
      Demo.project_config_ini "0" "google-takeout" Demo.full_disk_body
      Demo.world2
    = (runner.Ret tt, w')
    /\ jobs._jobs (runner.store w') !! "0" = Some job'
    /\ Job.status job' = FAILED
    /\ Job.error job' = Some "disk full"
    /\ last (Job.log_lines job') = Some "Error: disk full"
    /\ main._worker Demo.utcnow Demo.core Demo.environ_config_path
         Demo.project_config_ini
         [Some ("0", "google-takeout", Demo.full_disk_body);
          Some ("1", "google-takeout", Demo.takeout_body)] Demo.world2
       = (w'', [])
    /\ Job.status <$> jobs._jobs (runner.store w'') !! "1" = Some DONE.
Proof.
  edestruct (engine_fault_is_contained Demo.utcnow Demo.core
               Demo.environ_config_path Demo.project_config_ini
               "0" "google-takeout" Demo.full_disk_body Demo.world2)
    with (e := Exception "disk full")
    as (w' & job' & H1 & H2 & H3 & H4 & H5 & _ & _ & _ & _ & Hnext);
    [vm_compute; reflexivity..|].
  assert (w' = (runner.run_mode Demo.utcnow Demo.core Demo.environ_config_path
                  Demo.project_config_ini "0" "google-takeout"
                  Demo.full_disk_body Demo.world2).2) as Hw'
    by (by rewrite H1).
  edestruct (Hnext "1" "google-takeout" Demo.takeout_body)
    as (res2 & w'' & _ & Hloop & _ & _).
  { rewrite Hw'. vm_compute. reflexivity. }
  exists w', job', w''. split_and!; try done.
  assert (w'' = (main._worker Demo.utcnow Demo.core Demo.environ_config_path
                   Demo.project_config_ini
                   [Some ("0", "google-takeout", Demo.full_disk_body);
                    Some ("1", "google-takeout", Demo.takeout_body)]
                   Demo.world2).1) as ->
    by (by rewrite Hloop).
  vm_compute. reflexivity.
Defined.

(** C1 as stated fails for an exception that is no instance of
    [Exception]: when the execution mode leaves through [SystemExit],
    neither [except Exception] clause catches it. [run_mode] is left by the
    exception, the job stays [running] without error and without a final
    log line, and the worker loop ends with the next item still in the
    queue and its job [pending]. *)
Lemma engine_exit_is_not_contained :
  exists w' job',
    runner.run_mode Demo.utcnow Demo.core_exiting Demo.environ_config_path
      Demo.project_config_ini "0" "google-takeout" Demo.takeout_body
      Demo.world2
    = (runner.Raise (BaseException "1"), w')
    /\ jobs._jobs (runner.store w') !! "0" = Some job'
    /\ Job.status job' = RUNNING
    /\ Job.error job' = None
    /\ Job.log_lines job' = []
    /\ main._worker Demo.utcnow Demo.core_exiting Demo.environ_config_path
         Demo.project_config_ini
         [Some ("0", "google-takeout", Demo.takeout_body);
          Some ("1", "google-takeout", Demo.takeout_body)] Demo.world2
       = (w', [Some ("1", "google-takeout", Demo.takeout_body)])
    /\ Job.status <$> jobs._jobs (runner.store w') !! "1" = Some PENDING.
Proof.
  eexists (runner.run_mode Demo.utcnow Demo.core_exiting
             Demo.environ_config_path Demo.project_config_ini "0"
             "google-takeout" Demo.takeout_body Demo.world2).2, _.
  split_and!; vm_compute; reflexivity.
Qed.

Lemma Demo_uuid4_fresh m n : Demo.uuid4 m = Demo.uuid4 n -> m = n.
Proof. apply pretty_nat_inj. Qed.

Lemma Demo_worked_reachable :
  main.reachable Demo.utcnow Demo.uuid4 Demo.core Demo.environ_config_path
    Demo.project_config_ini Demo.worked.
Proof.
  eapply main.reachable_step.
  - eapply main.reachable_step; [apply main.reachable_boot|].
    apply (main.step_start _ _ _ _ _ _ "google-takeout" Demo.full_disk_body).
  - change Demo.worked with
      {| main.world := Demo.worked.(main.world);
         main._job_queue := [];
         main.worker_alive :=
           match runner.Ret false with
           | runner.Ret false => true
           | _ => false
           end |}.
    eapply main.step_worker; [reflexivity|reflexivity|].
    vm_compute. reflexivity.
Qed.

Lemma status_follows_the_lifecycle_witness :
  lifecycle (jobs.status_history "0" (runner.store (main.world Demo.worked)))
  /\ jobs.status_history "0" (runner.store (main.world Demo.worked))
     = [PENDING; RUNNING; FAILED].
Proof.
  split; [|vm_compute; reflexivity].
  apply (status_follows_the_lifecycle Demo.utcnow Demo.uuid4 Demo.core
           Demo.environ_config_path Demo.project_config_ini
           Demo_uuid4_fresh Demo.worked "0" Demo_worked_reachable).
Defined.

(** * The configuration schema engine *)

Section section_names.
Import config_ini.

Lemma replace_char_back (a b : ascii) (s : string) :
  has_char b s = false -> replace_char b a (replace_char a b s) = s.
Proof.
  induction s as [|c s IH]; simpl; [done|].
  intros [Hc Hs]%orb_false_elim. apply bool_decide_eq_false in Hc.
  rewrite IH by done. f_equal.
  destruct (decide (c = a)) as [->|Hne].
  - by rewrite decide_True.
  - by rewrite decide_False.
Qed.

(** C7 as stated fails: a section name that holds an underscore is not
    restored by decoding its encoding. *)
Lemma section_name_with_underscore_is_not_restored :
  _form_to_section (_section_to_form "a_b") = "a b"
  /\ _form_to_section (_section_to_form "a_b") <> "a_b".
Proof. split; [reflexivity|]. vm_compute. discriminate. Qed.

(** C7, as the code has it. For every section name without an
    underscore, decoding reverses encoding; the section names of the
    registry are such names. *)
Theorem section_name_decoding_reverses_encoding (s : string) :
  has_char "_" s = false ->
  _form_to_section (_section_to_form s) = s.
Proof. apply replace_char_back. Qed.

Lemma registry_section_names_are_restored :
  Forall (fun sect =>
            _form_to_section (_section_to_form (Sect.name sect)) = Sect.name sect
            /\ Sect.form_section sect = _section_to_form (Sect.name sect))
         _default_sections_structure.
Proof. repeat constructor. Qed.
End section_names.

Lemma section_name_decoding_reverses_encoding_witness :
  has_char "_" "Immich Photos" = false
  /\ config_ini._form_to_section (config_ini._section_to_form "Immich Photos")
     = "Immich Photos".
Proof.
  split; [reflexivity|].
  apply (section_name_decoding_reverses_encoding "Immich Photos").
  reflexivity.
Defined.

(** ** Dictionaries *)

Section dict_facts.
Context {V : Type}.
Implicit Types (d ps : list (string * V)) (k : string) (v : V).

Lemma dict_get_None k d : dict_get k d = None <-> k ∉ d.*1.
Proof.
  induction d as [|[k' v'] d IH]; simpl.
  - split; [intros _; apply not_elem_of_nil|done].
  - rewrite not_elem_of_cons. case_decide as Hk.
    + split; [done|]. by intros [? _].
    + rewrite IH. split; [by intros ?; split | by intros [_ ?]].
Qed.

Lemma dict_get_set k k' v d :
  dict_get k (dict_set k' v d) = if decide (k = k') then Some v else dict_get k d.
Proof.
  induction d as [|[k0 v0] d IH]; simpl.
  - by repeat case_decide.
  - destruct (decide (k' = k0)) as [->|Hne]; simpl.
    + by repeat case_decide.
    + rewrite IH. repeat case_decide; congruence.
Qed.

Lemma dict_set_fresh k v d : k ∉ d.*1 -> dict_set k v d = d ++ [(k, v)].
Proof.
  induction d as [|[k0 v0] d IH]; simpl; [done|].
  rewrite not_elem_of_cons. intros [Hne Hnot].
  rewrite decide_False by done. by rewrite IH.
Qed.

Lemma dict_fold_fresh d ps :
  NoDup (d.*1 ++ ps.*1) ->
  foldl (fun d kv => dict_set kv.1 kv.2 d) d ps = d ++ ps.
Proof.
  revert d. induction ps as [|[k v] ps IH]; intros d Hnd; simpl.
  - by rewrite app_nil_r.
  - simpl in Hnd. rewrite dict_set_fresh.
    + rewrite IH; [by rewrite <- app_assoc|].
      rewrite fmap_app. simpl. by rewrite <- app_assoc.
    + apply NoDup_app in Hnd as (_ & Hdis & _).
      intros Hin. apply (Hdis k Hin). by left.
Qed.

Lemma dict_of_pairs_nodup ps : NoDup ps.*1 -> dict_of_pairs ps = ps.
Proof. intros Hnd. unfold dict_of_pairs. by rewrite dict_fold_fresh. Qed.

Lemma dict_alter_absent (f : V -> V) k d :
  dict_get k d = None -> dict_alter f k d = d.
Proof.
  induction d as [|[k0 v0] d IH]; simpl; [done|].
  case_decide; [done|]. intros Hk. by rewrite IH.
Qed.
End dict_facts.

Lemma dict_get_keyed {A V} (f : A -> string) (g : A -> V) (l : list A) x :
  NoDup (f <$> l) -> x ∈ l ->
  dict_get (f x) ((fun y => (f y, g y)) <$> l) = Some (g x).
Proof.
  induction l as [|a l IH]; simpl; intros Hnd Hin.
  - by apply elem_of_nil in Hin.
  - apply NoDup_cons in Hnd as [Hnot Hnd].
    apply elem_of_cons in Hin as [->|Hin].
    + by rewrite decide_True.
    + rewrite decide_False; [by apply IH|].
      intros Heq. apply Hnot. rewrite <- Heq. by apply list_elem_of_fmap_2.
Qed.

(** ** Merging a parse result with the registry *)

Section merge.
Import config_ini.
Implicit Types (o k : Opt.t) (os ks : list Opt.t) (sect : Sect.t)
  (parsed schema : list Sect.t).

Lemma set_value_own o : Opt.set_value (Opt.value o) o = o.
Proof. by destruct o. Qed.

Lemma set_value_twice v w o :
  Opt.set_value v (Opt.set_value w o) = Opt.set_value v o.
Proof. done. Qed.

(** One assignment [schema_keys[k]["value"] = v], on the options. *)
Let assign (v key : string) os : list Opt.t :=
  (fun o => if decide (Opt.key o = key) then Opt.set_value v o else o) <$> os.

Let keyed os : list (string * Opt.t) := (fun o => (Opt.key o, o)) <$> os.

Lemma assign_keys v key os : Opt.key <$> assign v key os = Opt.key <$> os.
Proof.
  unfold assign. rewrite <- list_fmap_compose. apply list_fmap_ext.
  intros i o _. simpl. by case_decide.
Qed.

Lemma assign_absent v key os : key ∉ Opt.key <$> os -> assign v key os = os.
Proof.
  induction os as [|o os IH]; simpl; [done|].
  rewrite not_elem_of_cons. intros [Hne Hnot].
  rewrite decide_False by done. f_equal. by apply IH.
Qed.

Lemma dict_alter_keyed v key os :
  NoDup (Opt.key <$> os) ->
  dict_alter (Opt.set_value v) key (keyed os) = keyed (assign v key os).
Proof.
  induction os as [|o os IH]; simpl; [done|].
  intros [Hnot Hnd]%NoDup_cons.
  destruct (decide (key = Opt.key o)) as [->|Hne].
  - rewrite decide_True by done. simpl. f_equal.
    fold (assign v (Opt.key o) os). by rewrite assign_absent.
  - rewrite decide_False by done. f_equal. by apply IH.
Qed.

Lemma fold_assign_keyed os ks :
  NoDup (Opt.key <$> os) ->
  foldl (fun schema_keys k =>
           if dict_contains (Opt.key k) schema_keys
           then dict_alter (Opt.set_value (Opt.value k)) (Opt.key k) schema_keys
           else schema_keys)
        (keyed os) ks
  = keyed (foldl (fun os k => assign (Opt.value k) (Opt.key k) os) os ks).
Proof.
  revert os. induction ks as [|k ks IH]; intros os Hnd; simpl; [done|].
  rewrite <- IH by (by rewrite assign_keys).
  f_equal. unfold dict_contains. case_bool_decide as Hin.
  - by apply dict_alter_keyed.
  - rewrite <- dict_alter_keyed by done.
    rewrite dict_alter_absent; [done|].
    by apply eq_None_not_Some.
Qed.

Lemma fold_assign_fill os ks :
  foldl (fun os k => assign (Opt.value k) (Opt.key k) os) os ks = fill ks os.
Proof.
  revert os. induction ks as [|k ks IH]; intros os; simpl.
  - unfold fill. simpl. rewrite <- (list_fmap_id os) at 1.
    apply list_fmap_ext. intros i o _. simpl. by rewrite set_value_own.
  - rewrite IH. unfold fill, assign. rewrite <- list_fmap_compose.
    apply list_fmap_ext. intros i o _. simpl.
    repeat case_decide; try congruence; done.
Qed.

(** The merge, section by section. *)
Lemma merge_by_section parsed schema :
  Forall (fun sect => NoDup (Opt.key <$> Sect.options sect)) schema ->
  _merge_parsed_with_schema parsed schema = merged_section parsed <$> schema.
Proof.
  intros Hkeys. unfold _merge_parsed_with_schema.
  apply Forall_fmap_ext_1. eapply Forall_impl; [exact Hkeys|].
  intros sect Hnd. simpl. unfold merged_section. f_equal. f_equal.
  rewrite (dict_of_pairs_nodup ((fun k => (Opt.key k, k)) <$> Sect.options sect))
    by (by rewrite <- list_fmap_compose).
  unfold options_of.
  destruct (dict_get (Sect.name sect) _) as [found|].
  - fold (keyed (Sect.options sect)).
    rewrite fold_assign_keyed, fold_assign_fill by done.
    unfold keyed. rewrite <- list_fmap_compose. apply list_fmap_id.
  - unfold fill. simpl. rewrite <- !list_fmap_compose.
    apply list_fmap_ext. intros i o _. simpl. by rewrite set_value_own.
Qed.

Lemma last_value_no_match ks key w :
  key ∉ Opt.key <$> ks -> last_value ks key w = w.
Proof.
  revert w. induction ks as [|k ks IH]; intros w; simpl; [done|].
  rewrite not_elem_of_cons. intros [Hne Hnot].
  rewrite decide_False by done. by apply IH.
Qed.

Lemma last_value_unique (h : Opt.t -> Opt.t) os o w :
  (forall o', Opt.key (h o') = Opt.key o') ->
  NoDup (Opt.key <$> os) -> o ∈ os ->
  last_value (h <$> os) (Opt.key o) w = Opt.value (h o).
Proof.
  intros Hkey. revert w. induction os as [|a os IH]; intros w Hnd Hin.
  - by apply elem_of_nil in Hin.
  - simpl in Hnd. apply NoDup_cons in Hnd as [Hnot Hnd]. simpl.
    rewrite Hkey. apply elem_of_cons in Hin as [->|Hin].
    + rewrite decide_True by done. apply last_value_no_match.
      rewrite <- list_fmap_compose.
      rewrite (list_fmap_ext (Opt.key ∘ h) Opt.key os); [done|].
      intros i x _. apply Hkey.
    + rewrite decide_False; [by apply IH|].
      intros Heq. apply Hnot. rewrite Heq. by apply list_elem_of_fmap_2.
Qed.

Lemma merged_section_again parsed schema sect :
  well_formed schema -> sect ∈ schema ->
  merged_section (merged_section parsed <$> schema) sect
  = merged_section parsed sect.
Proof.
  intros [Hnames Hkeys] Hin.
  assert (NoDup (Opt.key <$> Sect.options sect)) as Hnd
    by (by eapply Forall_forall in Hkeys).
  assert (options_of (merged_section parsed <$> schema) (Sect.name sect)
          = Sect.options (merged_section parsed sect)) as Hfound.
  { unfold options_of.
    rewrite <- list_fmap_compose.
    rewrite dict_of_pairs_nodup by (by rewrite <- list_fmap_compose).
    change ((fun s : Sect.t => (Sect.name s, s)) ∘ merged_section parsed)
      with (fun y : Sect.t => (Sect.name y, merged_section parsed y)).
    by rewrite (dict_get_keyed Sect.name (merged_section parsed) schema sect). }
  unfold merged_section at 1. rewrite Hfound. unfold merged_section. simpl.
  f_equal. unfold fill at 1. rewrite <- list_fmap_compose.
  set (fs := _section_to_form (Sect.name sect)).
  set (ks := options_of parsed (Sect.name sect)).
  set (h := fun o => Opt.set_form_section fs
                       (Opt.set_value (last_value ks (Opt.key o) (Opt.value o)) o)).
  assert (Opt.set_form_section fs <$> fill ks (Sect.options sect)
          = h <$> Sect.options sect) as ->
    by (unfold fill; by rewrite <- list_fmap_compose).
  apply list_fmap_ext. intros i o Hi. simpl.
  rewrite (last_value_unique h); [done|done|done|].
  by eapply list_elem_of_lookup_2.
Qed.

(** Merging is idempotent for every well-formed schema. *)
Lemma merge_idempotent parsed schema :
  well_formed schema ->
  _merge_parsed_with_schema (_merge_parsed_with_schema parsed schema) schema
  = _merge_parsed_with_schema parsed schema.
Proof.
  intros Hwf. rewrite !merge_by_section by apply Hwf.
  apply Forall_fmap_ext_1, Forall_forall. intros sect Hin.
  by apply merged_section_again.
Qed.

Lemma registry_well_formed : well_formed _default_sections_structure.
Proof.
  split.
  - apply (bool_decide_unpack _). by vm_compute.
  - repeat constructor; apply (bool_decide_unpack _); by vm_compute.
Qed.

(** C5. For every parse result [p], merging the structure
    [_merge_parsed_with_schema p schema] with the registry schema once more
    yields that very structure: the same sections, keys, values and
    order. *)
Theorem merge_is_idempotent (p : list Sect.t) :
  _merge_parsed_with_schema
    (_merge_parsed_with_schema p _default_sections_structure)
    _default_sections_structure
  = _merge_parsed_with_schema p _default_sections_structure.
Proof. apply merge_idempotent, registry_well_formed. Qed.
End merge.

(** ** Reading the configuration file *)

Section reading.
Import config_ini.

Lemma registry_merged_with_itself :
  _merge_parsed_with_schema _default_sections_structure
    _default_sections_structure
  = _default_sections_structure.
Proof. vm_compute. reflexivity. Qed.

Lemma parse_config_no_sections path cp :
  exists_ path = true ->
  configparser.read path = Some cp ->
  configparser.sections cp = [] ->
  parse_config path = _default_sections_structure.
Proof.
  intros Hex Hread Hnone. unfold parse_config.
  rewrite Hex, Hread, Hnone. reflexivity.
Qed.

(** C10. When the file exists and is read without error but has no
    section, [parse_config] and [parse_config_with_schema] return the
    complete default structure of the registry, with its default values
    ([album = all], [max_photos = 10000], [timezone = US/Central]) and not
    an empty list. *)
Theorem file_without_sections_is_served_as_the_defaults path cp :
  exists_ path = true ->
  configparser.read path = Some cp ->
  configparser.sections cp = [] ->
  parse_config path = _default_sections_structure
  /\ parse_config_with_schema path = _default_sections_structure
  /\ parse_config_with_schema path <> []
  /\ shown_value "Apple Photos" "album" (parse_config_with_schema path)
     = Some "all"
  /\ shown_value "Apple Photos" "max_photos" (parse_config_with_schema path)
     = Some "10000"
  /\ shown_value "TimeZone" "timezone" (parse_config_with_schema path)
     = Some "US/Central".
Proof.
  intros Hex Hread Hnone.
  pose proof (parse_config_no_sections path cp Hex Hread Hnone) as Hparse.
  assert (parse_config_with_schema path = _default_sections_structure) as Hserved.
  { unfold parse_config_with_schema. rewrite Hex, Hparse.
    change (_merge_parsed_with_schema _default_sections_structure
              _default_sections_structure = _default_sections_structure).
    apply registry_merged_with_itself. }
  rewrite Hserved. split_and!; done.
Qed.
End reading.

Lemma file_without_sections_is_served_as_the_defaults_witness :
  exists_ (Text "") = true
  /\ config_ini.parse_config (Text "") = config_ini._default_sections_structure
  /\ config_ini.parse_config_with_schema (Text "")
     = config_ini._default_sections_structure.
Proof.
  split; [reflexivity|].
  pose proof (file_without_sections_is_served_as_the_defaults (Text "")
                {| configparser.cp_sections := [];
                   configparser.cp_defaults := [] |}
                eq_refl eq_refl eq_refl) as (H1 & H2 & _).
  by split.
Defined.

(** ** Strings *)

Section string_facts.
Implicit Types (a b s l : string) (c : ascii).
#[local] Arguments String.append : simpl nomatch.

Lemma sapp_assoc a b s : (a +:+ b) +:+ s = a +:+ (b +:+ s).
Proof. induction a as [|c a IH]; simpl; [done|]. by rewrite IH. Qed.

Lemma sapp_nil_r a : a +:+ EmptyString = a.
Proof. induction a as [|c a IH]; simpl; [done|]. by rewrite IH. Qed.

Lemma has_char_app c a b : has_char c (a +:+ b) = has_char c a || has_char c b.
Proof.
  induction a as [|x a IH]; simpl; [done|]. by rewrite IH, orb_assoc.
Qed.

Lemma rstrip_solid c s : isspace c = false -> rstrip (String c s) <> EmptyString.
Proof. intros Hc. simpl. rewrite Hc. by destruct (rstrip s). Qed.

Lemma rstrip_app_solid a b :
  rstrip b <> EmptyString -> rstrip (a +:+ b) = a +:+ rstrip b.
Proof.
  intros Hb. induction a as [|c a IH]; simpl; [done|].
  rewrite IH. destruct (a +:+ rstrip b) eqn:Heq; [|done].
  destruct a; simpl in Heq; [done|discriminate].
Qed.

Lemma rstrip_app_blank a b :
  rstrip b = EmptyString -> rstrip (a +:+ b) = rstrip a.
Proof.
  intros Hb. induction a as [|c a IH]; simpl; [done|]. by rewrite IH.
Qed.

Lemma rstrip_rstrip s : rstrip (rstrip s) = rstrip s.
Proof.
  induction s as [|c s IH]; simpl; [done|].
  destruct (rstrip s) as [|c' r] eqn:Hr.
  - destruct (isspace c) eqn:Hc; simpl; [done|]. by rewrite Hc.
  - simpl in *. rewrite IH. done.
Qed.

Lemma lstrip_solid l : solid l -> lstrip l = l.
Proof. destruct l as [|c l]; simpl; [done|]. by intros ->. Qed.

Lemma lstrip_lstrip s : lstrip (lstrip s) = lstrip s.
Proof.
  induction s as [|c s IH]; simpl; [done|].
  destruct (isspace c) eqn:Hc; [done|]. simpl. by rewrite Hc.
Qed.

(** What [lstrip] removes is whitespace: stripping on the right commutes. *)
Lemma rstrip_lstrip s : rstrip (lstrip s) = lstrip (rstrip s).
Proof.
  induction s as [|c s IH]; simpl; [done|].
  destruct (isspace c) eqn:Hc.
  - rewrite IH. destruct (rstrip s) as [|c' r]; simpl; [done|]. by rewrite Hc.
  - simpl. destruct (rstrip s); simpl; by rewrite Hc.
Qed.

Lemma strip_trimmed s : trimmed (strip s).
Proof.
  unfold trimmed, strip. split.
  - apply lstrip_lstrip.
  - by rewrite rstrip_lstrip, rstrip_rstrip.
Qed.

Lemma strip_of_trimmed s : trimmed s -> strip s = s.
Proof. intros [Hl Hr]. unfold strip. by rewrite Hr. Qed.

Lemma has_char_lstrip c s : has_char c s = false -> has_char c (lstrip s) = false.
Proof.
  induction s as [|x s IH]; simpl; [done|].
  intros [Hx Hs]%orb_false_elim. destruct (isspace x); [by apply IH|].
  simpl. by rewrite Hx, Hs.
Qed.

Lemma has_char_rstrip c s : has_char c s = false -> has_char c (rstrip s) = false.
Proof.
  induction s as [|x s IH]; simpl; [done|].
  intros [Hx Hs]%orb_false_elim. specialize (IH Hs).
  destruct (rstrip s) as [|y r].
  - destruct (isspace x); simpl; [done|]. by rewrite Hx.
  - simpl in *. by rewrite Hx, IH.
Qed.

Lemma has_char_strip c s : has_char c s = false -> has_char c (strip s) = false.
Proof. intros H. by apply has_char_lstrip, has_char_rstrip. Qed.

Lemma join_lines_snoc ls l : join_lines (ls ++ [l]) = concat_lines ls +:+ l.
Proof.
  induction ls as [|x ls IH]; [done|].
  change (join_lines (x :: (ls ++ [l])) = (nl x +:+ concat_lines ls) +:+ l).
  rewrite sapp_assoc, <- IH. unfold nl. rewrite sapp_assoc. simpl.
  by destruct (ls ++ [l]) eqn:Heq; [destruct ls|].
Qed.

Lemma concat_lines_app ls ls' :
  concat_lines (ls ++ ls') = concat_lines ls +:+ concat_lines ls'.
Proof.
  induction ls as [|x ls IH]; simpl; [done|]. by rewrite IH, sapp_assoc.
Qed.

Lemma readlines_line l rest :
  one_line l -> readlines (nl l +:+ rest) = nl l :: readlines rest.
Proof.
  intros [Hlf Hcr]. induction l as [|c l IH]; simpl.
  - done.
  - simpl in Hlf, Hcr.
    apply orb_false_elim in Hlf as [Hc1 Hlf].
    apply orb_false_elim in Hcr as [Hc2 Hcr].
    apply bool_decide_eq_false in Hc1. apply bool_decide_eq_false in Hc2.
    rewrite !decide_False by done.
    unfold nl in IH. rewrite IH by done. done.
Qed.

Lemma readlines_concat ls :
  Forall one_line ls -> readlines (concat_lines ls) = nl <$> ls.
Proof.
  induction 1 as [|l ls Hl _ IH]; [done|].
  simpl. rewrite readlines_line by done. by rewrite IH.
Qed.
End string_facts.

(** ** The lines of a configuration file, one by one *)

Section line_facts.
Import configparser.
#[local] Arguments String.append : simpl nomatch.
Implicit Types (a b s l k v name : string) (c : ascii).

Lemma rstrip_app_keep a b : rstrip a = a -> rstrip (a +:+ b) = a +:+ rstrip b.
Proof.
  intros Ha. destruct (rstrip b) eqn:Hb.
  - rewrite rstrip_app_blank by done. by rewrite sapp_nil_r.
  - rewrite rstrip_app_solid; [by rewrite Hb|]. by rewrite Hb.
Qed.

Lemma rstrip_snoc a c : isspace c = false ->
  rstrip (a +:+ String c EmptyString) = a +:+ String c EmptyString.
Proof.
  intros Hc. rewrite rstrip_app_solid; simpl; by rewrite Hc.
Qed.

Lemma rstrip_no_space s :
  all_chars (fun c => negb (isspace c)) s = true -> rstrip s = s.
Proof.
  induction s as [|c s IH]; simpl; [done|].
  intros [Hc Hs]%andb_true_iff. rewrite IH by done.
  apply negb_true_iff in Hc. rewrite Hc. by destruct s.
Qed.

Lemma all_chars_impl (P Q : ascii -> bool) s :
  (forall c, P c = true -> Q c = true) ->
  all_chars P s = true -> all_chars Q s = true.
Proof.
  intros HPQ. induction s as [|c s IH]; simpl; [done|].
  intros [Hc Hs]%andb_true_iff. by rewrite HPQ, IH.
Qed.

Lemma strip_nl l : strip (nl l) = strip l.
Proof. unfold strip, nl. by rewrite rstrip_app_blank. Qed.

Lemma first_nonspace_solid l : solid l -> first_nonspace l = 0%nat.
Proof. destruct l as [|c l]; simpl; [done|]. by intros ->. Qed.

Lemma solid_app a b : solid a -> solid (a +:+ b).
Proof. by destruct a. Qed.

Lemma strip_solid l : solid l -> strip l = rstrip l.
Proof.
  intros Hl. unfold strip. apply lstrip_solid.
  destruct l as [|c l]; [done|]. simpl in *. rewrite Hl.
  by destruct (rstrip l).
Qed.

Lemma before_last_snoc c s :
  before_last c (s +:+ String c EmptyString) = Some s.
Proof.
  induction s as [|x s IH]; simpl.
  - by rewrite decide_True.
  - by rewrite IH.
Qed.

Lemma SECTCRE_match_header name :
  name <> EmptyString ->
  SECTCRE_match ("[" +:+ name +:+ "]") = Some name.
Proof.
  intros Hne. simpl. rewrite before_last_snoc. by destruct name.
Qed.

Lemma strip_header name :
  strip (nl ("[" +:+ name +:+ "]")) = "[" +:+ name +:+ "]".
Proof.
  rewrite strip_nl, strip_solid by done.
  change ("[" +:+ name +:+ "]") with (String "[" (name +:+ "]")).
  change (String "[" (name +:+ "]")) with (("[" +:+ name) +:+ "]") at 1.
  rewrite rstrip_snoc by done. done.
Qed.

Lemma split_delimiter_app a b :
  all_chars (fun c => negb (is_delimiter c)) a = true ->
  split_delimiter (a +:+ String "=" b) = Some (a, b).
Proof.
  induction a as [|c a IH]; simpl; [done|].
  intros [Hc Ha]%andb_true_iff. apply negb_true_iff in Hc.
  unfold is_delimiter in Hc. rewrite Hc, IH by done. done.
Qed.

Lemma strip_space_trimmed v : trimmed v -> strip (String " " v) = v.
Proof.
  intros [Hl Hr]. unfold strip. rewrite <- rstrip_lstrip. simpl.
  by rewrite Hl, Hr.
Qed.
End line_facts.

(** ** The parser on the lines that the builder writes *)

Section reading_facts.
Import configparser.
#[local] Arguments String.append : simpl nomatch.
Implicit Types (secs : raw_sections) (k v name : string).

Lemma on_last_snoc {A} (f : A -> A) (l : list A) x :
  on_last f (l ++ [x]) = l ++ [f x].
Proof.
  induction l as [|y l IH]; [done|].
  simpl. rewrite IH. by destruct l.
Qed.

Lemma dict_alter_snoc {V} (f : V -> V) k (d : list (string * V)) (x : V) :
  k ∉ d.*1 -> dict_alter f k (d ++ [(k, x)]) = d ++ [(k, f x)].
Proof.
  induction d as [|[k0 v0] d IH]; simpl.
  - intros _. by rewrite decide_True.
  - rewrite not_elem_of_cons. intros [Hne Hnot].
    rewrite decide_False by done. by rewrite IH.
Qed.

Lemma not_commented c s :
  c <> "#"%char -> c <> ";"%char ->
  startswith (String c s) "#" || startswith (String c s) ";" = false.
Proof.
  intros H1 H2. simpl.
  rewrite !bool_decide_eq_false_2 by congruence. done.
Qed.

Lemma dict_contains_false {V} k (d : list (string * V)) :
  k ∉ d.*1 -> dict_contains k d = false.
Proof.
  intros Hk. unfold dict_contains. apply bool_decide_eq_false_2.
  apply dict_get_None in Hk. rewrite Hk. by intros [? ?].
Qed.

(** No line of the builder is a continuation line: none is indented. *)
Lemma not_continued secs :
  match cursect (reading secs) with
  | Some cur =>
      match optname (reading secs) with
      | Some (String _ _ as name0) =>
          if (indent_level (reading secs) <? 0)%nat
          then Some (cur, name0) else None
      | _ => None
      end
  | None => None
  end = None.
Proof.
  destruct (cursect (reading secs)); [|done].
  by destruct (optname (reading secs)) as [[|]|].
Qed.

Lemma read_header secs name :
  name <> EmptyString -> name <> "DEFAULT" -> name ∉ secs.*1 ->
  read_line (reading secs) (nl ("[" +:+ name +:+ "]"))
  = Some (reading (secs ++ [(name, [])])).
Proof.
  intros Hne Hdef Hfresh. unfold read_line.
  rewrite strip_header.
  change ("[" +:+ name +:+ "]") with (String "[" (name +:+ "]")).
  rewrite not_commented by done.
  rewrite bool_decide_eq_false_2 by done.
  rewrite first_nonspace_solid by done.
  rewrite not_continued.
  assert (SECTCRE_match (String "[" (name +:+ "]")) = Some name) as ->
    by apply (SECTCRE_match_header name Hne).
  simpl.
  rewrite dict_contains_false by done.
  rewrite bool_decide_eq_false_2 by done.
  unfold reading. f_equal. f_equal.
  - by apply dict_set_fresh.
  - rewrite fmap_app. simpl. by rewrite reverse_snoc.
  - unfold option_pairs. rewrite bind_app. simpl. by rewrite app_nil_r.
  - rewrite fmap_app. simpl. by rewrite last_snoc.
  - by rewrite last_snoc.
Qed.

Lemma plain_key_first k :
  plain_key k = true ->
  exists c k', k = String c k' /\ isspace c = false
    /\ c <> "["%char /\ c <> "#"%char /\ c <> ";"%char.
Proof.
  unfold plain_key. intros [Hall Hfirst]%andb_true_iff.
  destruct k as [|c k']; [done|]. exists c, k'.
  simpl in Hall. apply andb_true_iff in Hall as [Hc _].
  apply andb_true_iff in Hc as [Hc _]. apply negb_true_iff in Hc.
  apply negb_true_iff, bool_decide_eq_false in Hfirst.
  split_and!; [done|done|..]; intros ->; apply Hfirst; auto.
Qed.

Lemma plain_key_rstrip k : plain_key k = true -> rstrip k = k.
Proof.
  unfold plain_key. intros [Hall _]%andb_true_iff.
  apply rstrip_no_space. revert Hall. apply all_chars_impl.
  by intros c [? _]%andb_true_iff.
Qed.

Lemma plain_key_no_delimiter k :
  plain_key k = true -> all_chars (fun c => negb (is_delimiter c)) k = true.
Proof.
  unfold plain_key. intros [Hall _]%andb_true_iff.
  revert Hall. apply all_chars_impl. by intros c [_ ?]%andb_true_iff.
Qed.

Lemma all_chars_app P a b :
  all_chars P (a +:+ b) = all_chars P a && all_chars P b.
Proof.
  induction a as [|c a IH]; simpl; [done|]. by rewrite IH, andb_assoc.
Qed.

(** The option line of the builder, as [read_line] sees it. *)
Lemma strip_option_line k v :
  plain_key k = true ->
  strip (nl (k +:+ " = " +:+ v)) = (k +:+ " ") +:+ String "=" (rstrip (String " " v)).
Proof.
  intros Hk. destruct (plain_key_first k Hk) as (c & k' & -> & Hc & _).
  rewrite strip_nl, strip_solid by done.
  change (String c k' +:+ " = " +:+ v)
    with (String c k' +:+ (" =" +:+ String " " v)).
  rewrite <- sapp_assoc.
  rewrite rstrip_app_keep.
  - by rewrite !sapp_assoc.
  - change (String c k' +:+ " =") with (String c k' +:+ (" " +:+ "=")).
    rewrite <- sapp_assoc. by rewrite rstrip_snoc.
Qed.

Lemma OPTCRE_match_option_line k v :
  plain_key k = true -> trimmed v ->
  OPTCRE_match (strip (nl (k +:+ " = " +:+ v))) = Some (k, v).
Proof.
  intros Hk Hv. rewrite strip_option_line by done.
  unfold OPTCRE_match. rewrite split_delimiter_app.
  - rewrite rstrip_app_blank by done. rewrite plain_key_rstrip by done.
    f_equal. f_equal. by apply strip_space_trimmed.
  - rewrite all_chars_app, plain_key_no_delimiter by done. done.
Qed.

Lemma option_pairs_snoc secs name (os : list (string * list string)) :
  option_pairs (secs ++ [(name, os)])
  = option_pairs secs ++ ((fun kv => (name, kv.1)) <$> os).
Proof. unfold option_pairs. rewrite bind_app. simpl. by rewrite app_nil_r. Qed.

Lemma pair_not_added secs name (os : list (string * list string)) k :
  name ∉ secs.*1 -> k ∉ os.*1 ->
  (name, k) ∉ reverse (option_pairs (secs ++ [(name, os)])).
Proof.
  intros Hname Hk. rewrite elem_of_reverse, option_pairs_snoc, elem_of_app.
  intros [Hin|Hin].
  - apply list_elem_of_bind in Hin as ([n os'] & Hin & Hsec).
    apply list_elem_of_fmap in Hin as (kv & [= <- _] & _).
    apply Hname. by apply (list_elem_of_fmap_2 fst) in Hsec.
  - apply list_elem_of_fmap in Hin as (kv & [= ->] & Hkv).
    apply Hk. by apply (list_elem_of_fmap_2 fst) in Hkv.
Qed.

End reading_facts.

(** * Further properties of the runner *)

Section runner_paths.
Import runner.
Variable utcnow : nat -> Z.
Variable core : Core.
Variable environ_config_path project_config_ini : string.
Implicit Types (st : jobs.Store) (w : World) (job_id mode : string).

Abbreviation run_mode := (run_mode utcnow core environ_config_path project_config_ini).
Abbreviation build_ARGS := (build_ARGS environ_config_path project_config_ini).

(** Whatever the imports, the validation, the set-up and the execution mode
    do (return, raise an instance of [Exception], or raise an exception
    outside [Exception]), the handlers attached to the logger after
    [run_mode] are those attached before the call, and no job is created.
    [run_mode] is left by an exception only when that is no instance of
    [Exception]; then the status of the job is still [running], and
    otherwise it is [done] or [failed]. *)
Theorem run_mode_restores_the_handlers job_id mode api_body w :
  exists res w',
    run_mode job_id mode api_body w = (res, w')
    /\ handlers w' = handlers w
    /\ jobs._job_order (store w') = jobs._job_order (store w)
    /\ jobs.uuid_draws (store w') = jobs.uuid_draws (store w)
    /\ (res = Ret tt \/ exists e, is_Exception e = false /\ res = Raise e)
    /\ forall job,
         jobs._jobs (store w) !! job_id = Some job ->
         exists job',
           jobs._jobs (store w') !! job_id = Some job'
           /\ match res with
              | Ret _ => Job.status job' = DONE \/ Job.status job' = FAILED
              | Raise _ => Job.status job' = RUNNING
              end.
Proof.
  destruct (run_mode_summary utcnow core environ_config_path project_config_ini
              job_id mode api_body w) as (ops & evs & fin & res & Hrun & Hfin).
  eexists _, _. split; [exact Hrun|]. simpl. split; [done|].
  assert (forall ops st,
    jobs._job_order (apply_appends utcnow ops st) = jobs._job_order st) as Happ.
  { clear. intros ops. induction ops as [|op ops IH]; intros st; [done|].
    simpl. rewrite IH. unfold jobs.append_job_log.
    by destruct (jobs._jobs st !! op.1). }
  assert (forall j t e r st,
    jobs._job_order (jobs.update_job_status utcnow j t e r st)
    = jobs._job_order st) as Hupd.
  { clear. intros. unfold jobs.update_job_status.
    by destruct (jobs._jobs st !! j). }
  split_and!.
  - destruct fin as [[[t e] r]|]; by rewrite ?Hupd, Happ, Hupd.
  - destruct fin as [[[t e] r]|];
      by rewrite ?uuid_draws_update, uuid_draws_apply_appends,
        uuid_draws_update.
  - destruct fin as [[[t e] r]|]; [left; by destruct Hfin|by right].
  - intros job Hjob.
    pose proof (update_job_status_lookup utcnow job_id RUNNING None None
                  (store w) job Hjob) as H1.
    destruct (apply_appends_lookup utcnow ops _ _ _ H1)
      as (job2 & H2 & _ & _ & Hst & _).
    destruct fin as [[[t e] r]|].
    + destruct Hfin as [Ht ->].
      pose proof (update_job_status_lookup utcnow job_id t e r _ _ H2) as H3.
      eexists. split; [exact H3|]. exact Ht.
    + destruct Hfin as (e & _ & ->). exists job2. by split.
Qed.

(** When the imports, the validation and the set-up succeed and the
    execution mode selected by [mode] returns, the job is [done] with the
    summary ["Completed successfully"]; its error field is not written; its
    log is the log it had followed by the records of the run as the
    formatter renders them, in emission order, without the records whose
    formatting raised; and the run attached the handler, invoked the mode
    once with the validated arguments and detached the handler, in that
    order. *)
Theorem run_mode_success job_id mode api_body w job ARGS' records :
  jobs._jobs (store w) !! job_id = Some job ->
  job_id ∉ handlers w ->
  import_core core = None ->
  checkArgs core (build_ARGS api_body) = (ARGS', None) ->
  set_GLOBAL_VARIABLES core ARGS' = None ->
  set_LOGGER core ARGS' = None ->
  set_HELP_TEXTS core ARGS' = None ->
  engine_outcome core mode ARGS' = Some (records, None) ->
  exists w' job',
    run_mode job_id mode api_body w = (Ret tt, w')
    /\ jobs._jobs (store w') !! job_id = Some job'
    /\ Job.status job' = DONE
    /\ Job.result_summary job' = Some "Completed successfully"
    /\ Job.error job' = Job.error job
    /\ Job.log_lines job' = Job.log_lines job ++ omap format records
    /\ events w'
       = events w ++ [HandlerAdded job_id; EngineInvoked mode ARGS';
                      HandlerRemoved job_id].
Proof.
  intros Hjob Hnot Himp Hchk Hg Hl Hh Hout.
  pose proof (run_mode_engine_reached utcnow core environ_config_path
                project_config_ini job_id mode api_body w ARGS' records
                None Himp Hchk Hg Hl Hh Hout) as Hrun.
  simpl in Hrun.
  pose proof (update_job_status_lookup utcnow job_id RUNNING None None
                (store w) job Hjob) as H1.
  destruct (apply_appends_lookup utcnow
              (deliveries (handlers w ++ [job_id]) records) _ _ _ H1)
    as (job2 & H2 & _ & _ & _ & _ & Herr & _ & Hlog2).
  pose proof (update_job_status_lookup utcnow job_id DONE None
                (Some "Completed successfully") _ _ H2) as H3.
  eexists _, _. split; [exact Hrun|]. split; [exact H3|]. simpl.
  split_and!; try done.
  rewrite Hlog2. simpl. f_equal. by apply deliveries_own.
Qed.

(** When the execution mode raises an exception that is no instance of
    [Exception] (it calls [sys.exit], say), no clause of [run_mode] catches
    it: [run_mode] is left by that exception after the [finally] clause
    detached the handler; the job stays [running], with the lines captured
    so far in its log and no line for the fault; and the worker loop ends,
    with the items behind it left in the queue. *)
Theorem exit_leaves_the_job_running
    job_id mode api_body w job ARGS' records e rest :
  jobs._jobs (store w) !! job_id = Some job ->
  job_id ∉ handlers w ->
  import_core core = None ->
  checkArgs core (build_ARGS api_body) = (ARGS', None) ->
  set_GLOBAL_VARIABLES core ARGS' = None ->
  set_LOGGER core ARGS' = None ->
  set_HELP_TEXTS core ARGS' = None ->
  engine_outcome core mode ARGS' = Some (records, Some e) ->
  is_Exception e = false ->
  exists w' job',
    run_mode job_id mode api_body w = (Raise e, w')
    /\ jobs._jobs (store w') !! job_id = Some job'
    /\ Job.status job' = RUNNING
    /\ Job.error job' = Job.error job
    /\ Job.result_summary job' = Job.result_summary job
    /\ Job.log_lines job' = Job.log_lines job ++ omap format records
    /\ handlers w' = handlers w
    /\ main._worker utcnow core environ_config_path project_config_ini
         (Some (job_id, mode, api_body) :: rest) w
       = (w', rest).
Proof.
  intros Hjob Hnot Himp Hchk Hg Hl Hh Hout Hcls.
  pose proof (run_mode_engine_reached utcnow core environ_config_path
                project_config_ini job_id mode api_body w ARGS' records
                (Some e) Himp Hchk Hg Hl Hh Hout) as Hrun.
  simpl in Hrun. rewrite Hcls in Hrun.
  pose proof (update_job_status_lookup utcnow job_id RUNNING None None
                (store w) job Hjob) as H1.
  destruct (apply_appends_lookup utcnow
              (deliveries (handlers w ++ [job_id]) records) _ _ _ H1)
    as (job2 & H2 & _ & _ & Hst & _ & Herr & Hsum & Hlog2).
  eexists _, job2. split; [exact Hrun|]. split; [exact H2|].
  split_and!; try done.
  - rewrite Hlog2. simpl. f_equal. by apply deliveries_own.
  - simpl. unfold main._worker_pass, try_except, bind, ret.
    by rewrite Hrun, Hcls.
Qed.

(** A [mode] that is neither ["google-takeout"] nor ["automatic-migration"]
    is found out only after the validation and the set-up have run: the
    handler is attached and detached, no execution mode is invoked, and the
    job is [failed] with the error ["Unknown mode: " + mode], which is also
    the last line of its log. *)
Theorem run_mode_unknown_mode job_id mode api_body w job ARGS' :
  jobs._jobs (store w) !! job_id = Some job ->
  mode <> "google-takeout" ->
  mode <> "automatic-migration" ->
  import_core core = None ->
  checkArgs core (build_ARGS api_body) = (ARGS', None) ->
  set_GLOBAL_VARIABLES core ARGS' = None ->
  set_LOGGER core ARGS' = None ->
  set_HELP_TEXTS core ARGS' = None ->
  exists w' job',
    run_mode job_id mode api_body w = (Ret tt, w')
    /\ jobs._jobs (store w') !! job_id = Some job'
    /\ Job.status job' = FAILED
    /\ Job.error job' = Some ("Unknown mode: " +:+ mode)
    /\ Job.result_summary job' = Job.result_summary job
    /\ Job.log_lines job'
       = Job.log_lines job ++ ["Error: Unknown mode: " +:+ mode]
    /\ events w' = events w ++ [HandlerAdded job_id; HandlerRemoved job_id].
Proof.
  intros Hjob Hm1 Hm2 Himp Hchk Hg Hl Hh.
  pose proof (update_job_status_lookup utcnow job_id RUNNING None None
                (store w) job Hjob) as H1.
  pose proof (append_job_log_lookup utcnow job_id
                ("Error: Unknown mode: " +:+ mode) _ _ H1) as H2.
  pose proof (update_job_status_lookup utcnow job_id FAILED
                (Some ("Unknown mode: " +:+ mode)) None _ _ H2) as H3.
  eexists _, _.
  split; [by apply (run_mode_mode_unknown utcnow core environ_config_path
                      project_config_ini job_id mode api_body w ARGS')|].
  split; [exact H3|]. by split_and!.
Qed.

(** An exception [e], instance of [Exception], raised by the imports, by
    [checkArgs] (any class but [ValueError]) or by one of the three set-up
    calls is caught by the outer clause: the job is [failed] with
    [error = str e], the line ["Error: " + str e] is appended to its log,
    and nothing was attached to the logger nor invoked. *)
Theorem fault_before_the_handler_is_logged job_id mode api_body w job e :
  jobs._jobs (store w) !! job_id = Some job ->
  is_Exception e = true ->
  (import_core core = Some e
   \/ import_core core = None
      /\ exists ARGS',
           (checkArgs core (build_ARGS api_body) = (ARGS', Some e)
            /\ forall m, e <> ValueError m)
           \/ checkArgs core (build_ARGS api_body) = (ARGS', None)
              /\ (set_GLOBAL_VARIABLES core ARGS' = Some e
                  \/ set_GLOBAL_VARIABLES core ARGS' = None
                     /\ (set_LOGGER core ARGS' = Some e
                         \/ set_LOGGER core ARGS' = None
                            /\ set_HELP_TEXTS core ARGS' = Some e))) ->
  exists w' job',
    run_mode job_id mode api_body w = (Ret tt, w')
    /\ jobs._jobs (store w') !! job_id = Some job'
    /\ Job.status job' = FAILED
    /\ Job.error job' = Some (str e)
    /\ Job.log_lines job' = Job.log_lines job ++ ["Error: " +:+ str e]
    /\ events w' = events w
    /\ handlers w' = handlers w.
Proof.
  intros Hjob Hcls Hcase.
  pose proof (update_job_status_lookup utcnow job_id RUNNING None None
                (store w) job Hjob) as H1.
  pose proof (append_job_log_lookup utcnow job_id ("Error: " +:+ str e)
                _ _ H1) as H2.
  pose proof (update_job_status_lookup utcnow job_id FAILED
                (Some (str e)) None _ _ H2) as H3.
  pose proof (run_mode_early_fault utcnow core environ_config_path
                project_config_ini job_id mode api_body w e Hcase) as Hrun.
  simpl in Hrun. rewrite Hcls in Hrun.
  eexists _, _. split; [exact Hrun|]. split; [exact H3|]. by split_and!.
Qed.

(** [run_mode] only adds to the jobs that were there, whether it returns
    or is left by an exception: every job of the store is still in it
    afterwards with its id, mode and creation time, and with a log that
    starts with the log it had; a job other than the one being run also
    keeps its status, error and summary. *)
Theorem run_mode_only_extends_the_logs job_id mode api_body w j job :
  jobs._jobs (store w) !! j = Some job ->
  exists res w' job' lines,
    run_mode job_id mode api_body w = (res, w')
    /\ jobs._jobs (store w') !! j = Some job'
    /\ Job.id job' = Job.id job
    /\ Job.mode job' = Job.mode job
    /\ Job.created_at job' = Job.created_at job
    /\ Job.log_lines job' = Job.log_lines job ++ lines
    /\ (j <> job_id ->
        Job.status job' = Job.status job
        /\ Job.error job' = Job.error job
        /\ Job.result_summary job' = Job.result_summary job).
Proof.
  intros Hj.
  destruct (run_mode_summary utcnow core environ_config_path project_config_ini
              job_id mode api_body w) as (ops & evs & fin & res & Hrun & _).
  rewrite Hrun.
  destruct (decide (j = job_id)) as [->|Hne].
  - pose proof (update_job_status_lookup utcnow job_id RUNNING None None
                  (store w) job Hj) as H1.
    destruct (apply_appends_lookup utcnow ops _ _ _ H1)
      as (job2 & H2 & Hid & Hmode & _ & Hcr & _ & _ & Hlog2).
    destruct fin as [[[t e] r]|].
    + pose proof (update_job_status_lookup utcnow job_id t e r _ _ H2) as H3.
      eexists _, _, _, _. split; [done|]. split; [exact H3|]. simpl.
      by split_and!.
    + eexists _, _, job2, _. split; [done|]. split; [exact H2|].
      by split_and!.
  - assert (jobs._jobs (jobs.update_job_status utcnow job_id RUNNING None None
                          (store w)) !! j = Some job) as H1.
    { by rewrite update_job_status_lookup_ne. }
    destruct (apply_appends_lookup utcnow ops _ _ _ H1)
      as (job2 & H2 & Hid & Hmode & Hst & Hcr & Herr & Hsum & Hlog2).
    eexists _, _, job2, _. split; [done|].
    split; [|by split_and!].
    simpl. destruct fin as [[[t e] r]|]; [|done].
    by rewrite update_job_status_lookup_ne.
Qed.
End runner_paths.

Lemma run_mode_success_witness :
  exists w' job',
    runner.run_mode Demo.utcnow Demo.core_logging Demo.environ_config_path
      Demo.project_config_ini "0" "google-takeout" Demo.takeout_body
      Demo.world1
    = (runner.Ret tt, w')
    /\ jobs._jobs (runner.store w') !! "0" = Some job'
    /\ Job.status job' = DONE
    /\ Job.result_summary job' = Some "Completed successfully"
    /\ Job.log_lines job'
       = ["2024-06-15 14:30:00,000 [INFO] Processing Takeout";
          "2024-06-15 14:30:01,000 [ERROR] Album skipped"
          +:+ String "010" "Traceback (most recent call last):"
          +:+ String "010" "OSError: unreadable"].
Proof.
  edestruct (run_mode_success Demo.utcnow Demo.core_logging
               Demo.environ_config_path Demo.project_config_ini
               "0" "google-takeout" Demo.takeout_body Demo.world1)
    as (w' & job' & H1 & H2 & H3 & H4 & H5 & H6 & H7);
    [first [apply not_elem_of_nil | vm_compute; reflexivity]..|].
  exists w', job'. by split_and!.
Defined.

Lemma exit_leaves_the_job_running_witness :
  exists w' job',
    runner.run_mode Demo.utcnow Demo.core_exiting Demo.environ_config_path
      Demo.project_config_ini "0" "google-takeout" Demo.takeout_body
      Demo.world2
    = (runner.Raise (BaseException "1"), w')
    /\ jobs._jobs (runner.store w') !! "0" = Some job'
    /\ Job.status job' = RUNNING
    /\ main._worker Demo.utcnow Demo.core_exiting Demo.environ_config_path
         Demo.project_config_ini
         [Some ("0", "google-takeout", Demo.takeout_body);
          Some ("1", "google-takeout", Demo.takeout_body)] Demo.world2
       = (w', [Some ("1", "google-takeout", Demo.takeout_body)]).
Proof.
  edestruct (exit_leaves_the_job_running Demo.utcnow Demo.core_exiting
               Demo.environ_config_path Demo.project_config_ini
               "0" "google-takeout" Demo.takeout_body Demo.world2)
    with (e := BaseException "1")
         (rest := [Some ("1", "google-takeout", Demo.takeout_body)])
    as (w' & job' & H1 & H2 & H3 & H4 & H5 & H6 & H7 & H8);
    [first [apply not_elem_of_nil | vm_compute; reflexivity]..|].
  exists w', job'. by split_and!.
Defined.

Lemma run_mode_unknown_mode_witness :
  exists w' job',
    runner.run_mode Demo.utcnow Demo.core Demo.environ_config_path
      Demo.project_config_ini "0" "bogus" Demo.takeout_body Demo.world1
    = (runner.Ret tt, w')
    /\ jobs._jobs (runner.store w') !! "0" = Some job'
    /\ Job.status job' = FAILED
    /\ Job.error job' = Some "Unknown mode: bogus"
    /\ Job.log_lines job' = ["Error: Unknown mode: bogus"]
    /\ runner.events w' = [HandlerAdded "0"; HandlerRemoved "0"].
Proof.
  edestruct (run_mode_unknown_mode Demo.utcnow Demo.core
               Demo.environ_config_path Demo.project_config_ini
               "0" "bogus" Demo.takeout_body Demo.world1)
    as (w' & job' & H1 & H2 & H3 & H4 & H5 & H6 & H7);
    [first [vm_compute; reflexivity | done]..|].
  exists w', job'. by split_and!.
Defined.

Lemma fault_before_the_handler_is_logged_witness :
  exists w' job',
    runner.run_mode Demo.utcnow Demo.core_not_installed
      Demo.environ_config_path Demo.project_config_ini "0" "google-takeout"
      Demo.takeout_body Demo.world1
    = (runner.Ret tt, w')
    /\ jobs._jobs (runner.store w') !! "0" = Some job'
    /\ Job.status job' = FAILED
    /\ Job.error job' = Some "No module named 'Core'"
    /\ Job.log_lines job' = ["Error: No module named 'Core'"]
    /\ runner.events w' = [].
Proof.
  edestruct (fault_before_the_handler_is_logged Demo.utcnow
               Demo.core_not_installed
               Demo.environ_config_path Demo.project_config_ini
               "0" "google-takeout" Demo.takeout_body Demo.world1)
    with (e := Exception "No module named 'Core'")
    as (w' & job' & H1 & H2 & H3 & H4 & H5 & H6 & H7);
    [vm_compute; reflexivity | reflexivity | left; reflexivity |].
  exists w', job'. by split_and!.
Defined.

Lemma run_mode_only_extends_the_logs_witness :
  exists res w' job',
    runner.run_mode Demo.utcnow Demo.core Demo.environ_config_path
      Demo.project_config_ini "1" "google-takeout" Demo.full_disk_body
      Demo.world2
    = (res, w')
    /\ jobs._jobs (runner.store w') !! "0" = Some job'
    /\ Job.status job' = PENDING
    /\ Job.error job' = None.
Proof.
  edestruct (run_mode_only_extends_the_logs Demo.utcnow Demo.core
               Demo.environ_config_path Demo.project_config_ini
               "1" "google-takeout" Demo.full_disk_body Demo.world2 "0")
    as (res & w' & job' & lines & H1 & H2 & H3 & H4 & H5 & H6 & H7);
    [vm_compute; reflexivity|].
  destruct H7 as (H7 & H8 & H9); [done|].
  exists res, w', job'. by split_and!.
Defined.

(** * The arguments handed to the engine *)

Section arguments.
Import runner.
Variable environ_config_path project_config_ini : string.
Implicit Types (d a body : Args) (k : string) (v : value).

Abbreviation _default_args := (_default_args environ_config_path project_config_ini).
Abbreviation build_ARGS := (build_ARGS environ_config_path project_config_ini).

Lemma dict_of_pairs_snoc {V} (ps : list (string * V)) k (x : V) :
  dict_of_pairs (ps ++ [(k, x)]) = dict_set k x (dict_of_pairs ps).
Proof. unfold dict_of_pairs. by rewrite foldl_app. Qed.

Lemma dict_get_is_Some {V} k (d : list (string * V)) :
  is_Some (dict_get k d) <-> k ∈ d.*1.
Proof.
  rewrite <- not_eq_None_Some, dict_get_None.
  split; [apply dec_stable | by intros ? ?].
Qed.

Lemma dict_contains_keys {V} k (d : list (string * V)) :
  dict_contains k d = true <-> k ∈ d.*1.
Proof.
  unfold dict_contains. by rewrite bool_decide_eq_true, dict_get_is_Some.
Qed.

Lemma dict_of_pairs_keys {V} k (ps : list (string * V)) :
  k ∈ (dict_of_pairs ps).*1 <-> k ∈ ps.*1.
Proof.
  induction ps as [|[k' x] ps IH] using rev_ind; [done|].
  rewrite dict_of_pairs_snoc, fmap_app, elem_of_app, <- IH.
  rewrite <- !dict_get_is_Some, dict_get_set. simpl.
  case_decide as Hk.
  - split; [intros _; right; eauto|intros _; eauto].
  - split; [by left|]. by intros [?|[? ?]].
Qed.

Lemma dict_set_keys {V} k (x : V) (d : list (string * V)) :
  k ∈ d.*1 -> (dict_set k x d).*1 = d.*1.
Proof.
  induction d as [|[k0 v0] d IH]; simpl.
  - by intros ?%elem_of_nil.
  - intros Hin. case_decide as Hk; simpl; [by rewrite Hk|].
    f_equal. apply IH. apply elem_of_cons in Hin as [?|?]; done.
Qed.

Lemma merge_snoc d a k v :
  _merge_api_args d (a ++ [(k, v)])
  = if dict_contains k (_merge_api_args d a)
    then dict_set k v (_merge_api_args d a) else _merge_api_args d a.
Proof. unfold _merge_api_args. by rewrite foldl_app. Qed.

Lemma merge_keys d a : (_merge_api_args d a).*1 = d.*1.
Proof.
  induction a as [|[k v] a IH] using rev_ind; [done|].
  rewrite merge_snoc. destruct (dict_contains k _) eqn:Hc; [|done].
  apply dict_contains_keys in Hc. by rewrite dict_set_keys.
Qed.

Lemma merge_get d a k :
  dict_get k (_merge_api_args d a)
  = match dict_get k d with
    | Some v => Some (default v (dict_get k (dict_of_pairs a)))
    | None => None
    end.
Proof.
  induction a as [|[k' v'] a IH] using rev_ind.
  - simpl. by destruct (dict_get k d).
  - rewrite merge_snoc, dict_of_pairs_snoc, dict_get_set.
    destruct (dict_contains k' _) eqn:Hc.
    + rewrite dict_get_set, IH. case_decide as Hk; [|done].
      subst k'. apply dict_contains_keys in Hc. rewrite merge_keys in Hc.
      destruct (dict_get k d) eqn:Hd; [done|].
      by apply dict_get_None in Hd.
    + rewrite IH. case_decide as Hk; [|done]. subst k'.
      destruct (dict_get k d) eqn:Hd; [|done].
      assert (dict_contains k (_merge_api_args d a) = true) as Hc'; [|congruence].
      apply dict_contains_keys. rewrite merge_keys.
      apply dec_stable. intros Hnot. apply dict_get_None in Hnot. congruence.
Qed.

(** [_merge_api_args] returns a dictionary with the keys of [default], in
    the order of [default]; a key that the payload holds too has the
    payload's value, every other key keeps its default, and a key of the
    payload that [default] lacks is dropped. *)
Theorem merge_api_args_overrides_known_keys d a :
  (_merge_api_args d a).*1 = d.*1
  /\ forall k,
       dict_get k (_merge_api_args d a)
       = match dict_get k d with
         | Some v => Some (default v (dict_get k (dict_of_pairs a)))
         | None => None
         end.
Proof. split; [apply merge_keys|intros k; apply merge_get]. Qed.

Lemma normalize_keys body d :
  "find-duplicates" ∈ d.*1 -> (normalize_find_duplicates body d).*1 = d.*1.
Proof.
  intros Hin. unfold normalize_find_duplicates.
  destruct (dict_contains "find-duplicates" body); [|done].
  destruct (default VNone (dict_get "find-duplicates" d));
    by rewrite dict_set_keys.
Qed.

Lemma default_args_keys : NoDup _default_args.*1 /\ "find-duplicates" ∈ _default_args.*1.
Proof.
  split.
  - apply (bool_decide_unpack _). by vm_compute.
  - apply (bool_decide_unpack _). by vm_compute.
Qed.

(** Whatever the request body holds, the arguments that [run_mode] hands
    to [checkArgs] have exactly the keys of [_default_args], in the same
    order, and their ["find-duplicates"] entry is a list. *)
Theorem build_ARGS_has_the_default_keys body :
  (build_ARGS body).*1 = _default_args.*1
  /\ exists l, dict_get "find-duplicates" (build_ARGS body) = Some (VList l).
Proof.
  destruct default_args_keys as [_ Hfd].
  unfold runner.build_ARGS. split.
  - rewrite normalize_keys; [apply merge_keys|]. by rewrite merge_keys.
  - unfold normalize_find_duplicates.
    destruct (dict_contains "find-duplicates" body) eqn:Hbody.
    + destruct (default VNone (dict_get "find-duplicates" _)) eqn:Hv;
        rewrite dict_get_set, decide_True by done;
        try (destruct (truthy _)); eauto.
    + rewrite merge_get.
      assert (dict_get "find-duplicates" (dict_of_pairs body) = None) as ->.
      { apply dict_get_None. rewrite dict_of_pairs_keys.
        rewrite <- dict_contains_keys. congruence. }
      simpl. eauto.
Qed.
End arguments.

(** * The request handlers *)

Section routes.
Import runner.
Variable utcnow : nat -> Z.
Variable uuid4 : nat -> string.
Variable core : Core.
Variable environ_config_path project_config_ini : string.
Implicit Types (body : Args) (k : string) (s : main.System).

Abbreviation build_ARGS := (build_ARGS environ_config_path project_config_ini).
Abbreviation to_kebab := (replace_char "_" "-").

Lemma to_kebab_inj k k' :
  has_char "-" k = false -> has_char "-" k' = false ->
  to_kebab k = to_kebab k' -> k = k'.
Proof.
  intros Hk Hk' Heq.
  rewrite <- (replace_char_back "_" "-" k), <- (replace_char_back "_" "-" k')
    by done.
  by rewrite Heq.
Qed.

Lemma api_to_args_fold mode body :
  schemas.api_to_args mode body
  = dict_of_pairs ((fun kv => (to_kebab kv.1, kv.2)) <$> body).
Proof.
  unfold schemas.api_to_args, dict_of_pairs.
  generalize (@nil (string * value)) as acc. 
  induction body as [|kv body IH]; intros acc; [done|]. simpl. apply IH.
Qed.

(** For a request body whose keys are distinct and hold no hyphen (the
    field names of a request model), [api_to_args] returns the entries of
    the body in their order, each under its key with every underscore
    replaced by a hyphen; [mode] plays no part. *)
Lemma api_to_args_renames_the_keys_aux mode body :
  NoDup body.*1 ->
  Forall (fun k => has_char "-" k = false) body.*1 ->
  schemas.api_to_args mode body
  = (fun kv => (to_kebab kv.1, kv.2)) <$> body.
Proof.
  intros Hnd Hplain. rewrite api_to_args_fold.
  apply dict_of_pairs_nodup.
  assert (((fun kv : string * value => (to_kebab kv.1, kv.2)) <$> body).*1
          = to_kebab <$> body.*1) as ->.
  { by rewrite <- !list_fmap_compose. }
  apply NoDup_fmap_2_strong; [|done].
  intros k k' Hk Hk'. rewrite Forall_forall in Hplain.
  apply to_kebab_inj; by apply Hplain.
Qed.

Theorem api_to_args_renames_the_keys mode body :
  NoDup body.*1 ->
  Forall (fun k => has_char "-" k = false) body.*1 ->
  schemas.api_to_args mode body
  = (fun kv => (to_kebab kv.1, kv.2)) <$> body
  /\ Forall (fun k => has_char "_" k = false) (schemas.api_to_args mode body).*1.
Proof.
  intros Hnd Hplain.
  rewrite api_to_args_renames_the_keys_aux by done. split; [done|].
  rewrite Forall_fmap, Forall_fmap. apply Forall_forall. intros [k v] _.
  simpl. clear. induction k as [|c k IH]; [done|]. simpl.
  rewrite IH, orb_false_r. apply bool_decide_eq_false.
  by case_decide as Hc; [|done].
Qed.

Lemma dict_get_renamed body k :
  Forall (fun k => has_char "-" k = false) body.*1 ->
  has_char "-" k = false ->
  dict_get (to_kebab k)
    ((fun kv : string * value => (to_kebab kv.1, kv.2)) <$> body)
  = dict_get k body.
Proof.
  intros Hplain Hk. induction body as [|[k0 v0] body IH]; [done|].
  apply Forall_cons in Hplain as [Hk0 Hplain]. simpl in *.
  destruct (decide (k = k0)) as [->|Hne].
  - by rewrite decide_True.
  - rewrite decide_False; [by apply IH|].
    intros Heq. apply Hne. by apply to_kebab_inj.
Qed.

Lemma dict_set_NoDup {V} k (x : V) (d : list (string * V)) :
  NoDup d.*1 -> NoDup (dict_set k x d).*1.
Proof.
  intros Hnd. destruct (decide (k ∈ d.*1)) as [Hin|Hnot].
  - by rewrite dict_set_keys.
  - rewrite dict_set_fresh, fmap_app by done. simpl.
    apply NoDup_app. split_and!; [done| |apply NoDup_singleton].
    by intros k' Hk' ->%list_elem_of_singleton.
Qed.

Lemma normalize_get_ne body d k :
  k <> "find-duplicates" ->
  dict_get k (normalize_find_duplicates body d) = dict_get k d.
Proof.
  intros Hne. unfold normalize_find_duplicates.
  destruct (dict_contains "find-duplicates" body); [|done].
  destruct (default VNone (dict_get "find-duplicates" d));
    by rewrite dict_get_set, decide_False.
Qed.

(** What [run_mode] makes of arguments with distinct keys, at a key other
    than ["find-duplicates"]: the value given, when the key is a key of the
    defaults, and nothing otherwise. *)
Lemma build_ARGS_get args k :
  NoDup args.*1 ->
  k <> "find-duplicates" ->
  dict_get k (build_ARGS args)
  = match dict_get k (_default_args environ_config_path project_config_ini) with
    | Some v => Some (default v (dict_get k args))
    | None => None
    end.
Proof.
  intros Hnd Hne. unfold runner.build_ARGS.
  rewrite normalize_get_ne, merge_get by done.
  by rewrite dict_of_pairs_nodup.
Qed.

(** The route [POST /api/jobs/google-takeout]. For a body whose keys are
    distinct and hold no hyphen, with the fields [takeout_folder] and
    [output_folder]: the entry put on the queue carries the id of the job
    created, and after the merge of [run_mode] the engine finds the Takeout
    folder under ["google-takeout"], the value of [output_folder] (whatever
    it is, [None] included) under ["output-folder"], and every other field
    of the body under its hyphenated name, when that is a key of the
    defaults. *)
Theorem api_google_takeout_arguments body s takeout_folder output_folder :
  NoDup body.*1 ->
  Forall (fun k => has_char "-" k = false) body.*1 ->
  dict_get "takeout_folder" body = Some takeout_folder ->
  dict_get "output_folder" body = Some output_folder ->
  exists args,
    main._job_queue (main.start_google_takeout utcnow uuid4 body s).2
    = main._job_queue s
      ++ [Some ((main.start_google_takeout utcnow uuid4 body s).1,
                "google-takeout", args)]
    /\ jobs.get_job (main.start_google_takeout utcnow uuid4 body s).1
         (store (main.world (main.start_google_takeout utcnow uuid4 body s).2))
       = Some {| Job.id := (main.start_google_takeout utcnow uuid4 body s).1;
                 Job.mode := "google-takeout"; Job.status := PENDING;
                 Job.created_at :=
                   utcnow (jobs.clock_reads (store (main.world s)));
                 Job.updated_at :=
                   utcnow (jobs.clock_reads (store (main.world s)));
                 Job.log_lines := []; Job.error := None;
                 Job.result_summary := None |}
    /\ dict_get "google-takeout" (build_ARGS args) = Some takeout_folder
    /\ dict_get "output-folder" (build_ARGS args) = Some output_folder
    /\ forall k v,
         dict_get k body = Some v ->
         to_kebab k ∉ ["google-takeout"; "output-folder"; "find-duplicates"] ->
         to_kebab k ∈ (_default_args environ_config_path project_config_ini).*1 ->
         dict_get (to_kebab k) (build_ARGS args) = Some v.
Proof.
  intros Hnd Hplain Htf Hof.
  set (A0 := schemas.api_to_args "google-takeout" body).
  set (A1 := dict_set "google-takeout" takeout_folder A0).
  set (A2 := if truthy output_folder
             then dict_set "output-folder" output_folder A1 else A1).
  assert (A0 = (fun kv : string * value => (to_kebab kv.1, kv.2)) <$> body)
    as HA0 by (by apply api_to_args_renames_the_keys_aux).
  assert (NoDup A2.*1) as HndA2.
  { unfold A2, A1. destruct (truthy output_folder);
      repeat apply dict_set_NoDup; rewrite HA0;
      (assert (((fun kv : string * value => (to_kebab kv.1, kv.2)) <$> body).*1
               = to_kebab <$> body.*1) as -> by (by rewrite <- !list_fmap_compose));
      (apply NoDup_fmap_2_strong; [|done]);
      intros k k' Hk Hk'; rewrite Forall_forall in Hplain;
      apply to_kebab_inj; by apply Hplain. }
  assert (forall k,
    dict_get k A2
    = if decide (k = "output-folder")
      then Some output_folder
      else if decide (k = "google-takeout") then Some takeout_folder
           else dict_get k A0) as HgetA2.
  { intros k. unfold A2, A1. destruct (truthy output_folder) eqn:Htruthy.
    - rewrite !dict_get_set. by repeat case_decide.
    - rewrite dict_get_set.
      destruct (decide (k = "output-folder")) as [->|Hk]; [|done].
      rewrite decide_False by done.
      rewrite HA0. change "output-folder" with (to_kebab "output_folder").
      by rewrite dict_get_renamed. }
  exists A2. split_and!.
  - unfold main.start_google_takeout, main.start_job. simpl.
    rewrite Htf, Hof. reflexivity.
  - unfold main.start_google_takeout, main.start_job, jobs.get_job. simpl.
    by rewrite lookup_insert_eq.
  - rewrite build_ARGS_get, HgetA2 by done.
    rewrite decide_False, decide_True by done. reflexivity.
  - rewrite build_ARGS_get, HgetA2 by done.
    rewrite decide_True by done. reflexivity.
  - intros k v Hk Hnot Hin.
    assert (to_kebab k <> "google-takeout" /\ to_kebab k <> "output-folder"
            /\ to_kebab k <> "find-duplicates") as (H1 & H2 & H3).
    { split_and!; intros Heq; apply Hnot; rewrite Heq;
        apply (bool_decide_unpack _); by vm_compute. }
    rewrite build_ARGS_get, HgetA2 by done.
    rewrite !decide_False by done.
    rewrite HA0, dict_get_renamed, Hk; [|done|].
    + apply dict_get_is_Some in Hin as [d Hd]. by rewrite Hd.
    + rewrite Forall_forall in Hplain. apply Hplain.
      apply dict_get_is_Some. by rewrite Hk.
Qed.

End routes.

Lemma api_to_args_renames_the_keys_witness :
  schemas.api_to_args "google-takeout" Demo.api_body
  = [("takeout-folder", VStr "/data/takeout"); ("output-folder", VNone);
     ("google-skip-gpth-tool", VBool true); ("show-gpth-info", VBool true)].
Proof.
  destruct (api_to_args_renames_the_keys "google-takeout" Demo.api_body)
    as [Heq _].
  - apply (bool_decide_unpack _). by vm_compute.
  - by repeat constructor.
  - exact Heq.
Defined.

Lemma api_google_takeout_arguments_witness :
  exists args,
    main._job_queue
      (main.start_google_takeout Demo.utcnow Demo.uuid4 Demo.api_body
         main.boot).2
    = [Some ("0", "google-takeout", args)]
    /\ dict_get "google-takeout"
         (runner.build_ARGS Demo.environ_config_path Demo.project_config_ini
            args)
       = Some (VStr "/data/takeout")
    /\ dict_get "output-folder"
         (runner.build_ARGS Demo.environ_config_path Demo.project_config_ini
            args)
       = Some VNone
    /\ dict_get "google-skip-gpth-tool"
         (runner.build_ARGS Demo.environ_config_path Demo.project_config_ini
            args)
       = Some (VBool true).
Proof.
  destruct (api_google_takeout_arguments Demo.utcnow Demo.uuid4
              Demo.environ_config_path Demo.project_config_ini
              Demo.api_body main.boot (VStr "/data/takeout") VNone)
    as (args & Hq & _ & Htf & Hof & Hother).
  - apply (bool_decide_unpack _). by vm_compute.
  - by repeat constructor.
  - reflexivity.
  - reflexivity.
  - exists args. split_and!; try done.
    apply (Hother "google_skip_gpth_tool"); [reflexivity| |].
    + apply (bool_decide_unpack _). by vm_compute.
    + apply (bool_decide_unpack _). by vm_compute.
Defined.

(** * Creation and listing *)

Section creation.
Variable utcnow : nat -> Z.
Variable uuid4 : nat -> string.
Implicit Types (st : jobs.Store) (mode : string).

Lemma omap_lookup_insert_fresh (m : gmap string Job.t) j job (l : list string) :
  m !! j = None ->
  Forall (fun i => is_Some (m !! i)) l ->
  omap (fun i => <[j := job]> m !! i) l = omap (fun i => m !! i) l.
Proof.
  intros Hj Hl. induction Hl as [|i l [x Hi] _ IH]; [done|]. csimpl.
  rewrite IH, lookup_insert_ne; [done|]. intros ->. congruence.
Qed.

(** The job that [create_job] returns is pending, is what [get_job]
    returns for its id, leaves the other ids as they were, and is the first
    job of every listing with a limit that is not negative (the default
    limit included). When its id is new and every id of the index is in
    the registry, the complete listing is the new job followed by the
    complete listing before. *)
Theorem created_job_is_found_and_listed_first mode st :
  let job := (jobs.create_job utcnow uuid4 mode st).1 in
  let st' := (jobs.create_job utcnow uuid4 mode st).2 in
  Job.status job = PENDING
  /\ jobs.get_job (Job.id job) st' = Some job
  /\ (forall j, j <> Job.id job -> jobs.get_job j st' = jobs.get_job j st)
  /\ (forall limit, 0 <= limit -> head (jobs.list_jobs (Some limit) st') = Some job)
  /\ head (jobs.list_jobs None st') = Some job
  /\ (jobs._jobs st !! Job.id job = None ->
      Forall (fun i => is_Some (jobs._jobs st !! i)) (jobs._job_order st) ->
      jobs.list_jobs (Some 0) st' = job :: jobs.list_jobs (Some 0) st).
Proof.
  simpl.
  set (job := {| Job.id := uuid4 (jobs.uuid_draws st); Job.mode := mode;
                 Job.status := PENDING;
                 Job.created_at := utcnow (jobs.clock_reads st);
                 Job.updated_at := utcnow (jobs.clock_reads st);
                 Job.log_lines := []; Job.error := None;
                 Job.result_summary := None |}).
  assert (forall limit, 0 <= limit ->
    head (jobs.list_jobs (Some limit)
            (jobs.create_job utcnow uuid4 mode st).2) = Some job) as Hhead.
  { intros limit Hlim. unfold jobs.list_jobs. simpl.
    case_bool_decide as Hz.
    - rewrite reverse_slice_last by lia.
      rewrite reverse_app. simpl.
      destruct (Z.to_nat limit) as [|n] eqn:Hn; [lia|]. csimpl.
      by rewrite lookup_insert_eq.
    - rewrite reverse_app. csimpl. by rewrite lookup_insert_eq. }
  split_and!.
  - done.
  - unfold jobs.get_job. simpl. by rewrite lookup_insert_eq.
  - intros j Hne. unfold jobs.get_job. simpl. by rewrite lookup_insert_ne.
  - exact Hhead.
  - apply (Hhead 50). lia.
  - intros Hnew Hall. unfold jobs.list_jobs. simpl.
    rewrite reverse_app. csimpl. rewrite lookup_insert_eq. f_equal.
    apply omap_lookup_insert_fresh; [done|].
    by apply Forall_reverse.
Qed.
End creation.

Lemma created_job_is_found_and_listed_first_witness :
  jobs.list_jobs (Some 0)
    (jobs.create_job Demo.utcnow Demo.uuid4 "automatic-migration"
       (Demo.store_with 2)).2
  = (jobs.create_job Demo.utcnow Demo.uuid4 "automatic-migration"
       (Demo.store_with 2)).1
    :: jobs.list_jobs (Some 0) (Demo.store_with 2).
Proof.
  apply (created_job_is_found_and_listed_first Demo.utcnow Demo.uuid4
           "automatic-migration" (Demo.store_with 2)).
  - vm_compute. reflexivity.
  - repeat constructor; vm_compute; eauto.
Defined.

(** * The index and the registry of the store *)

Section index.
Import runner.
Variable utcnow : nat -> Z.
Variable uuid4 : nat -> string.
Variable core : Core.
Variable environ_config_path project_config_ini : string.
Implicit Types (s : main.System) (st : jobs.Store) (j : string).

Abbreviation step :=
    (main.step utcnow uuid4 core environ_config_path project_config_ini).
Abbreviation reachable :=
    (main.reachable utcnow uuid4 core environ_config_path project_config_ini).

Lemma job_order_update job_id t e r st :
  jobs._job_order (jobs.update_job_status utcnow job_id t e r st)
  = jobs._job_order st.
Proof. unfold jobs.update_job_status. by destruct (jobs._jobs st !! job_id). Qed.

Lemma job_order_apply_appends ops st :
  jobs._job_order (apply_appends utcnow ops st) = jobs._job_order st.
Proof.
  revert st. induction ops as [|op ops IH]; intros st; [done|].
  simpl. rewrite IH. unfold jobs.append_job_log.
  by destruct (jobs._jobs st !! op.1).
Qed.

Lemma update_keeps_id job_id t e r st j job' :
  jobs._jobs (jobs.update_job_status utcnow job_id t e r st) !! j = Some job' ->
  exists job, jobs._jobs st !! j = Some job /\ Job.id job' = Job.id job.
Proof.
  intros Hafter.
  destruct (decide (j = job_id)) as [->|Hne].
  - assert (is_Some (jobs._jobs st !! job_id)) as [job Hjob].
    { eapply update_is_Some. by eexists. }
    exists job. split; [done|].
    rewrite (update_job_status_lookup utcnow job_id t e r st job Hjob) in Hafter.
    by injection Hafter as <-.
  - rewrite update_job_status_lookup_ne in Hafter by done. by exists job'.
Qed.

Lemma apply_appends_keeps_id ops st j job' :
  jobs._jobs (apply_appends utcnow ops st) !! j = Some job' ->
  exists job, jobs._jobs st !! j = Some job /\ Job.id job' = Job.id job.
Proof.
  intros Hafter.
  assert (is_Some (jobs._jobs st !! j)) as [job Hjob].
  { eapply apply_appends_is_Some. by eexists. }
  exists job. split; [done|].
  destruct (apply_appends_lookup utcnow ops st j job Hjob)
    as (job2 & H2 & Hid & _).
  rewrite Hafter in H2. by injection H2 as ->.
Qed.

(** What holds of the store and the logger between two moves of the
    process. *)
Lemma index_step s s' :
  step s s' ->
  (jobs._job_order (store (main.world s))
   = uuid4 <$> seq 0 (jobs.uuid_draws (store (main.world s)))
   /\ (forall j, is_Some (jobs._jobs (store (main.world s)) !! j)
                 <-> j ∈ jobs._job_order (store (main.world s)))
   /\ (forall j job, jobs._jobs (store (main.world s)) !! j = Some job ->
                     Job.id job = j)
   /\ handlers (main.world s) = []) ->
  jobs._job_order (store (main.world s'))
  = uuid4 <$> seq 0 (jobs.uuid_draws (store (main.world s')))
  /\ (forall j, is_Some (jobs._jobs (store (main.world s')) !! j)
                <-> j ∈ jobs._job_order (store (main.world s')))
  /\ (forall j job, jobs._jobs (store (main.world s')) !! j = Some job ->
                    Job.id job = j)
  /\ handlers (main.world s') = [].
Proof.
  intros Hstep (Horder & Hdom & Hid & Hh).
  destruct Hstep as [mode args|item rest r w' _ Hqueue Hpass|]; [| |done].
  - set (st := store (main.world s)) in *.
    set (new := uuid4 (jobs.uuid_draws st)).
    assert (jobs._job_order
              (store (main.world (main.start_job utcnow uuid4 mode args s).2))
            = jobs._job_order st ++ [new]) as -> by done.
    assert (jobs.uuid_draws
              (store (main.world (main.start_job utcnow uuid4 mode args s).2))
            = S (jobs.uuid_draws st)) as -> by done.
    split_and!.
    + rewrite Horder, seq_S, fmap_app. done.
    + intros j. simpl. fold st. fold new.
      rewrite lookup_insert_is_Some, elem_of_app, Hdom.
      rewrite list_elem_of_singleton.
      split.
      * intros [<-|[_ Hin]]; [by right|by left].
      * intros [Hin| ->]; [|by left].
        destruct (decide (new = j)); [by left|right; by split].
    + intros j job. simpl. fold st. fold new. rewrite lookup_insert_Some.
      intros [[<- <-]|[_ Hj]]; [done|by apply Hid].
    + done.
  - destruct item as [[[j0 mode] args]|].
    + destruct (run_mode_summary utcnow core environ_config_path
                  project_config_ini j0 mode args (main.world s))
        as (ops & evs & fin & res & Hrun & Hfin).
      unfold main._worker_pass, try_except, bind, ret in Hpass.
      rewrite Hrun in Hpass.
      assert (w' = {| store :=
                        (match fin with
                         | Some (t, e, r) =>
                             jobs.update_job_status utcnow j0 t e r
                         | None => fun st => st
                         end)
                          (apply_appends utcnow ops
                             (jobs.update_job_status utcnow j0 RUNNING None
                                None (store (main.world s))));
                      handlers := handlers (main.world s);
                      events := events (main.world s) ++ evs |}) as ->.
      { destruct fin as [[[t e] r0]|].
        - destruct Hfin as [_ ->]. by injection Hpass as <- <-.
        - destruct Hfin as (e & Hcls & ->). rewrite Hcls in Hpass.
          by injection Hpass as <- <-. }
      simpl. clear Hpass Hrun Hfin.
      assert (jobs._job_order
                ((match fin with
                  | Some (t, e, r) => jobs.update_job_status utcnow j0 t e r
                  | None => fun st => st
                  end)
                   (apply_appends utcnow ops
                      (jobs.update_job_status utcnow j0 RUNNING None None
                         (store (main.world s)))))
              = jobs._job_order (store (main.world s))) as Hsame.
      { destruct fin as [[[t e] r0]|];
          by rewrite ?job_order_update, job_order_apply_appends,
            job_order_update. }
      split_and!.
      * rewrite Hsame, Horder. f_equal. f_equal.
        destruct fin as [[[t e] r0]|];
          by rewrite ?uuid_draws_update, uuid_draws_apply_appends,
            uuid_draws_update.
      * intros j. rewrite Hsame, <- Hdom.
        destruct fin as [[[t e] r0]|];
          by rewrite ?update_is_Some, apply_appends_is_Some, update_is_Some.
      * intros j job Hj. destruct fin as [[[t e] r0]|].
        -- apply update_keeps_id in Hj as (job1 & Hj & ->).
           apply apply_appends_keeps_id in Hj as (job2 & Hj & ->).
           apply update_keeps_id in Hj as (job3 & Hj & ->). by apply Hid.
        -- apply apply_appends_keeps_id in Hj as (job2 & Hj & ->).
           apply update_keeps_id in Hj as (job3 & Hj & ->). by apply Hid.
      * done.
    + unfold main._worker_pass, try_except, ret in Hpass.
      by injection Hpass as <- <-.
Qed.

(** Identifiers drawn at different times are different. *)
Hypothesis uuid4_fresh : forall m n, uuid4 m = uuid4 n -> m = n.

(** In every state that the process reaches, the index [_job_order] holds
    the ids in the order in which they were drawn, each once; the registry
    [_jobs] holds a job for exactly these ids, each stored under its own
    id; no handler of a finished run is left on the logger; and the
    complete listing shows every job once, the newest first. *)
Theorem index_and_registry_agree s :
  reachable s ->
  let st := store (main.world s) in
  jobs._job_order st = uuid4 <$> seq 0 (jobs.uuid_draws st)
  /\ NoDup (jobs._job_order st)
  /\ (forall j, is_Some (jobs.get_job j st) <-> j ∈ jobs._job_order st)
  /\ (forall j job, jobs.get_job j st = Some job -> Job.id job = j)
  /\ handlers (main.world s) = []
  /\ Job.id <$> jobs.list_jobs (Some 0) st = reverse (jobs._job_order st).
Proof.
  intros Hreach.
  assert (jobs._job_order (store (main.world s))
          = uuid4 <$> seq 0 (jobs.uuid_draws (store (main.world s)))
          /\ (forall j, is_Some (jobs._jobs (store (main.world s)) !! j)
                        <-> j ∈ jobs._job_order (store (main.world s)))
          /\ (forall j job, jobs._jobs (store (main.world s)) !! j = Some job ->
                            Job.id job = j)
          /\ handlers (main.world s) = []) as (Horder & Hdom & Hid & Hh).
  { induction Hreach as [|s s' _ IH Hstep].
    - split_and!; try done.
      intros j. change (jobs._jobs (store (main.world main.boot)))
        with (∅ : gmap string Job.t).
      rewrite lookup_empty. split; [by intros [? ?]|].
      by intros ?%elem_of_nil.
    - by apply (index_step s s'). }
  simpl. split_and!; try done.
  - rewrite Horder. apply NoDup_fmap_2_strong; [|apply NoDup_seq].
    intros m n _ _. apply uuid4_fresh.
  - unfold jobs.list_jobs. simpl.
    assert (forall l,
      Forall (fun j => j ∈ jobs._job_order (store (main.world s))) l ->
      Job.id <$> omap (fun jid => jobs._jobs (store (main.world s)) !! jid) l
      = l) as Hlist.
    { intros l Hl. induction Hl as [|j l Hj _ IH]; [done|]. csimpl.
      apply Hdom in Hj as [job Hjob]. rewrite Hjob. csimpl.
      by rewrite IH, (Hid j job Hjob). }
    apply Hlist. apply Forall_forall. intros j. by rewrite elem_of_reverse.
Qed.
End index.

Lemma index_and_registry_agree_witness :
  jobs._job_order (runner.store (main.world Demo.worked)) = ["0"]
  /\ Job.id <$> jobs.list_jobs (Some 0) (runner.store (main.world Demo.worked))
     = ["0"]
  /\ runner.handlers (main.world Demo.worked) = [].
Proof.
  destruct (index_and_registry_agree Demo.utcnow Demo.uuid4 Demo.core
              Demo.environ_config_path Demo.project_config_ini
              Demo_uuid4_fresh Demo.worked Demo_worked_reachable)
    as (Horder & _ & _ & _ & Hh & Hlist).
  split_and!; [|exact Hlist|exact Hh].
  rewrite Horder. reflexivity.
Defined.

(** * The worker loop and the shutdown sentinel *)

Section sentinel.
Import runner.
Variable utcnow : nat -> Z.
Variable core : Core.
Variable environ_config_path project_config_ini : string.
Implicit Types (w : World) (items rest : list (string * string * Args)).

Abbreviation run_mode := (run_mode utcnow core environ_config_path project_config_ini).
Abbreviation _worker_pass :=
    (main._worker_pass utcnow core environ_config_path project_config_ini).
Abbreviation _worker :=
    (main._worker utcnow core environ_config_path project_config_ini).

(** The clause [except Exception: pass] of the loop never has anything to
    catch: a pass for a job ends as [run_mode] ends. *)
Lemma worker_pass_as_run_mode job_id mode args w :
  _worker_pass (Some (job_id, mode, args)) w
  = match run_mode job_id mode args w with
    | (Ret _, w') => (Ret false, w')
    | (Raise e, w') => (Raise e, w')
    end.
Proof.
  destruct (run_mode_summary utcnow core environ_config_path
              project_config_ini job_id mode args w)
    as (ops & evs & fin & res & Hrun & Hfin).
  unfold main._worker_pass, try_except, bind, ret. rewrite Hrun.
  destruct fin as [[[t e] r]|].
  - by destruct Hfin as [_ ->].
  - destruct Hfin as (e & Hcls & ->). by rewrite Hcls.
Qed.

(** The worker takes the queue in order and stops at the shutdown
    sentinel: what was put on the queue behind the sentinel stays there,
    and the world is the one that the items before the sentinel alone
    would have left. A pass for a job ends as [run_mode] ends, so the
    clause [except Exception: pass] of the loop is never used. *)
Theorem nothing_behind_the_sentinel_is_run items (rest : list main.Item) w :
  (_worker ((Some <$> items) ++ None :: rest) w).1
  = (_worker (Some <$> items) w).1
  /\ rest `suffix_of` (_worker ((Some <$> items) ++ None :: rest) w).2
  /\ _worker (None :: rest) w = (w, rest)
  /\ forall job_id mode args,
       _worker (Some (job_id, mode, args) :: rest) w
       = match run_mode job_id mode args w with
         | (Ret _, w') => _worker rest w'
         | (Raise _, w') => (w', rest)
         end.
Proof.
  split_and!.
  - revert w. induction items as [|[[j m] a] items IH]; intros w; [done|].
    csimpl. rewrite worker_pass_as_run_mode.
    destruct (run_mode j m a w) as [[[]|e] w']; [apply IH|done].
  - revert w. induction items as [|[[j m] a] items IH]; intros w.
    + done.
    + csimpl. rewrite worker_pass_as_run_mode.
      destruct (run_mode j m a w) as [[[]|e] w']; [apply IH|]. simpl.
      apply suffix_app_r. by apply suffix_cons_r.
  - done.
  - intros job_id mode args. simpl. rewrite worker_pass_as_run_mode.
    by destruct (run_mode job_id mode args w) as [[[]|e] w'].
Qed.
End sentinel.

(** * Further properties of the configuration engine *)

Section config_values.
Import config_ini.
Implicit Types (s v k : string).
#[local] Arguments String.append : simpl nomatch.

Lemma before_char_no_char c s : has_char c (before_char c s) = false.
Proof.
  induction s as [|a s IH]; simpl; [done|].
  case_decide as Ha; [done|]. simpl. rewrite IH, orb_false_r.
  by apply bool_decide_eq_false.
Qed.

Lemma before_char_absent c s : has_char c s = false -> before_char c s = s.
Proof.
  induction s as [|a s IH]; simpl; [done|].
  intros [Ha Hs]%orb_false_elim. apply bool_decide_eq_false in Ha.
  rewrite decide_False by done. by rewrite IH.
Qed.

(** What [_strip_inline_comment] returns holds no comment sign and no
    whitespace at either end, and is left as it is by a second pass: the
    values that [parse_config] shows are stable under re-reading. *)
Theorem strip_inline_comment_is_idempotent v :
  has_char "#" (_strip_inline_comment v) = false
  /\ strip (_strip_inline_comment v) = _strip_inline_comment v
  /\ _strip_inline_comment (_strip_inline_comment v) = _strip_inline_comment v.
Proof.
  assert (has_char "#" (_strip_inline_comment v) = false
          /\ trimmed (_strip_inline_comment v)) as [Hno Htrim].
  { unfold _strip_inline_comment. case_bool_decide as Hv.
    - by subst v.
    - split; [apply has_char_strip, before_char_no_char|apply strip_trimmed]. }
  split_and!; [done|by apply strip_of_trimmed|].
  unfold _strip_inline_comment at 1. case_bool_decide; [done|].
  rewrite before_char_absent by done. by apply strip_of_trimmed.
Qed.

Lemma startswith_nil s : startswith s EmptyString = true.
Proof. by destruct s. Qed.

Lemma split_once_at fs k :
  has_char "|" fs = false ->
  split_once FORM_SEP (fs +:+ FORM_SEP +:+ k) = Some (fs, k).
Proof.
  induction fs as [|c fs IH]; intros Hfs.
  - change (EmptyString +:+ FORM_SEP +:+ k) with (String "|" (String "|" k)).
    cbn [split_once].
    assert (startswith (String "|" (String "|" k)) FORM_SEP = true) as ->.
    { simpl. rewrite ?bool_decide_eq_true_2 by done. simpl. apply startswith_nil. }
    done.
  - simpl in Hfs. apply orb_false_elim in Hfs as [Hc Hfs].
    apply bool_decide_eq_false in Hc.
    change (String c fs +:+ FORM_SEP +:+ k)
      with (String c (fs +:+ FORM_SEP +:+ k)).
    cbn [split_once]. rewrite (IH Hfs).
    assert (startswith (String c (fs +:+ FORM_SEP +:+ k)) FORM_SEP = false)
      as ->; [|done].
    simpl. rewrite bool_decide_eq_false_2; [done|]. by intros <-.
Qed.

Lemma contains_after fs k :
  contains FORM_SEP (fs +:+ FORM_SEP +:+ k) = true.
Proof.
  induction fs as [|c fs IH].
  - change (EmptyString +:+ FORM_SEP +:+ k) with (String "|" (String "|" k)).
    cbn [contains]. simpl.
    rewrite ?bool_decide_eq_true_2 by done; simpl; by rewrite ?startswith_nil.
  - change (String c fs +:+ FORM_SEP +:+ k)
      with (String c (fs +:+ FORM_SEP +:+ k)).
    cbn [contains]. rewrite IH. apply orb_true_r.
Qed.

(** The field name that the page gives to the key [k] of the section [s]
    is read back by [build_ini_from_form] as that section and that key,
    when the section name holds neither an underscore nor a vertical bar;
    the key may be any text. *)
Theorem field_name_is_read_back s k :
  has_char "_" s = false ->
  has_char "|" s = false ->
  decode_field (form_field_name (_section_to_form s) k) = Some (s, k).
Proof.
  intros Hu Hb. unfold decode_field, form_field_name.
  change ("v" +:+ FORM_SEP +:+ _section_to_form s +:+ FORM_SEP +:+ k)
    with (String "v" (String "|" (String "|"
            (_section_to_form s +:+ FORM_SEP +:+ k)))).
  change (skip (String.length ("v" +:+ FORM_SEP))
            (String "v" (String "|" (String "|"
               (_section_to_form s +:+ FORM_SEP +:+ k)))))
    with (_section_to_form s +:+ FORM_SEP +:+ k).
  assert (startswith
            (String "v" (String "|" (String "|"
               (_section_to_form s +:+ FORM_SEP +:+ k))))
            ("v" +:+ FORM_SEP) = true) as ->.
  { simpl. rewrite ?bool_decide_eq_true_2 by done; simpl; by rewrite ?startswith_nil. }
  rewrite contains_after. cbn [negb orb].
  rewrite split_once_at.
  - unfold _form_to_section, _section_to_form.
    by rewrite replace_char_back.
  - unfold _section_to_form. clear Hu.
    induction s as [|c s IH]; [done|]. simpl in *.
    apply orb_false_elim in Hb as [Hc Hs]. rewrite (IH Hs), orb_false_r.
    apply bool_decide_eq_false in Hc. apply bool_decide_eq_false.
    case_decide; [done|done].
Qed.

(** A form field whose name is not of the shape [v||section||key] plays
    no part in the file text that [build_ini_from_form] returns. *)
Theorem foreign_fields_are_ignored (before after : list (string * string))
    name value :
  decode_field name = None ->
  build_ini_from_form (before ++ (name, value) :: after)
  = build_ini_from_form (before ++ after).
Proof.
  intros Hname. unfold build_ini_from_form.
  rewrite !foldl_app. simpl. by rewrite Hname.
Qed.
End config_values.

Lemma field_name_is_read_back_witness :
  config_ini.decode_field "v||Apple_Photos||max_photos"
  = Some ("Apple Photos", "max_photos").
Proof.
  apply (field_name_is_read_back "Apple Photos" "max_photos"); reflexivity.
Defined.

Lemma foreign_fields_are_ignored_witness :
  config_ini.build_ini_from_form
    [("v||TimeZone||timezone", "UTC"); ("csrf_token", "x")]
  = config_ini.build_ini_from_form [("v||TimeZone||timezone", "UTC")].
Proof.
  apply (foreign_fields_are_ignored [("v||TimeZone||timezone", "UTC")] []
           "csrf_token" "x").
  reflexivity.
Defined.

(** * What the configuration page is served *)

Section served.
Import config_ini.
Implicit Types (parsed schema : list Sect.t) (name key : string).

Lemma list_find_by_key {A} (f : A -> string) (l : list A) k :
  snd <$> list_find (fun x => f x = k) l
  = dict_get k ((fun x => (f x, x)) <$> l).
Proof.
  induction l as [|x l IH]; [done|]. csimpl.
  destruct (decide (f x = k)) as [Hx|Hx].
  - by rewrite decide_True.
  - rewrite decide_False by done. rewrite <- IH.
    by destruct (list_find (fun x => f x = k) l) as [[i y]|].
Qed.

Lemma shown_value_by_key name key structure :
  shown_value name key structure
  = match dict_get name ((fun s => (Sect.name s, s)) <$> structure) with
    | Some sect =>
        match dict_get key ((fun o => (Opt.key o, o)) <$> Sect.options sect) with
        | Some o => Some (Opt.value o)
        | None => None
        end
    | None => None
    end.
Proof.
  unfold shown_value.
  rewrite <- (list_find_by_key Sect.name structure name).
  destruct (list_find (fun sect => Sect.name sect = name) structure)
    as [[i sect]|]; [|done]. simpl.
  rewrite <- (list_find_by_key Opt.key (Sect.options sect) key).
  by destruct (list_find (fun k => Opt.key k = key) (Sect.options sect))
    as [[j o]|].
Qed.

Lemma dict_get_mapped {A} (f : A -> string) (h : A -> A) (l : list A) k :
  (forall x, f (h x) = f x) ->
  dict_get k ((fun x => (f x, x)) <$> (h <$> l))
  = h <$> dict_get k ((fun x => (f x, x)) <$> l).
Proof.
  intros Hf. induction l as [|x l IH]; [done|]. csimpl. rewrite Hf.
  by case_decide.
Qed.

Lemma last_value_by_key ks key w :
  NoDup (Opt.key <$> ks) ->
  last_value ks key w
  = match dict_get key ((fun o => (Opt.key o, o)) <$> ks) with
    | Some o => Opt.value o
    | None => w
    end.
Proof.
  revert w. induction ks as [|o ks IH]; intros w Hnd; [done|].
  apply NoDup_cons in Hnd as [Hnot Hnd]. csimpl.
  destruct (decide (Opt.key o = key)) as [Ho|Ho].
  - rewrite decide_True by done. apply last_value_no_match. by rewrite <- Ho.
  - rewrite decide_False by done. by apply IH.
Qed.

(** The value that the merge shows for a key of a section. A pair unknown
    to the schema is not shown, whatever the file holds for it; a pair of
    the schema shows the value that the file has for it, and the default
    of the schema when the file has none. (Sections and keys are distinct
    in the schema, and in the parse result as the parser delivers it.) *)
Theorem merge_shows_the_value_of_the_file parsed schema name key :
  well_formed schema ->
  well_formed parsed ->
  shown_value name key (_merge_parsed_with_schema parsed schema)
  = match shown_value name key schema with
    | Some dflt => Some (default dflt (shown_value name key parsed))
    | None => None
    end.
Proof.
  intros [_ Hkeys] [Hpnames Hpkeys].
  rewrite merge_by_section by done.
  rewrite !shown_value_by_key.
  rewrite (dict_get_mapped Sect.name (merged_section parsed) schema name)
    by done.
  destruct (dict_get name ((fun s => (Sect.name s, s)) <$> schema))
    as [sect|] eqn:Hsect; [|done].
  assert (Sect.name sect = name) as Hname.
  { clear -Hsect. induction schema as [|x l IH]; [done|]. csimpl in Hsect.
    case_decide; [by injection Hsect as <-|by apply IH]. }
  csimpl. unfold fill.
  rewrite (dict_get_mapped Opt.key (Opt.set_form_section _)) by done.
  rewrite (dict_get_mapped Opt.key
             (fun o => Opt.set_value
                         (last_value (options_of parsed (Sect.name sect))
                            (Opt.key o) (Opt.value o)) o)) by done.
  destruct (dict_get key ((fun o => (Opt.key o, o)) <$> Sect.options sect))
    as [o|] eqn:Ho; [|done].
  assert (Opt.key o = key) as Hkey.
  { clear -Ho. induction (Sect.options sect) as [|x l IH]; [done|].
    csimpl in Ho. case_decide; [by injection Ho as <-|by apply IH]. }
  csimpl. f_equal. rewrite Hname, Hkey. unfold options_of.
  rewrite dict_of_pairs_nodup by (by rewrite <- list_fmap_compose).
  destruct (dict_get name ((fun s => (Sect.name s, s)) <$> parsed))
    as [found|] eqn:Hfound; [|done].
  rewrite last_value_by_key.
  - by destruct (dict_get key
                   ((fun o0 : Opt.t => (Opt.key o0, o0)) <$> Sect.options found)).
  - rewrite Forall_forall in Hpkeys. apply Hpkeys.
    clear -Hfound. induction parsed as [|x l IH]; [done|]. csimpl in Hfound.
    case_decide; [injection Hfound as <-; by left|right; by apply IH].
Qed.

Lemma registry_entries :
  Forall (fun sect =>
            Sect.form_section sect = _section_to_form (Sect.name sect)
            /\ Sect.hint sect = _get_section_hint (Sect.name sect)
            /\ Forall (fun o =>
                         Opt.form_section o = _section_to_form (Sect.name sect))
                      (Sect.options sect))
         _default_sections_structure.
Proof. repeat constructor. Qed.

End served.

Lemma merge_shows_the_value_of_the_file_witness :
  shown_value "TimeZone" "timezone"
    (config_ini._merge_parsed_with_schema Demo.parsed_file
       config_ini._default_sections_structure)
  = Some "Europe/Rome"
  /\ shown_value "Apple Photos" "album"
       (config_ini._merge_parsed_with_schema Demo.parsed_file
          config_ini._default_sections_structure)
     = Some "all"
  /\ shown_value "TimeZone" "locale"
       (config_ini._merge_parsed_with_schema Demo.parsed_file
          config_ini._default_sections_structure)
     = None.
Proof.
  assert (well_formed Demo.parsed_file) as Hparsed.
  { split.
    - apply (bool_decide_unpack _). by vm_compute.
    - repeat constructor; apply (bool_decide_unpack _); by vm_compute. }
  split_and!;
    rewrite (merge_shows_the_value_of_the_file Demo.parsed_file
               config_ini._default_sections_structure)
      by (apply registry_well_formed || exact Hparsed);
    reflexivity.
Defined.

(** * The file written for a form, read back *)

Section reading_more.
Import configparser.
#[local] Arguments String.append : simpl nomatch.
Implicit Types (secs : raw_sections) (k v name : string) (b : block).

Lemma reading_cursect secs name (os : list (string * list string)) :
  cursect (reading (secs ++ [(name, os)])) = Some (InSection name).
Proof. unfold reading. cbn [cursect]. rewrite fmap_app. simpl. by rewrite last_snoc. Qed.

Lemma read_option secs name (os : list (string * list string)) k v :
  name ∉ secs.*1 -> k ∉ os.*1 -> plain_key k = true -> trimmed v ->
  read_line (reading (secs ++ [(name, os)])) (nl (k +:+ " = " +:+ v))
  = Some (reading (secs ++ [(name, os ++ [(k, [v])])])).
Proof.
  intros Hname Hfresh Hk Hv. unfold read_line.
  pose proof (OPTCRE_match_option_line k v Hk Hv) as Hopt.
  pose proof (strip_option_line k v Hk) as Hstrip.
  destruct (plain_key_first k Hk) as (c & k' & -> & Hc & Hc1 & Hc2 & Hc3).
  rewrite Hstrip in Hopt.
  change ((String c k' +:+ " ") +:+ String "=" (rstrip (String " " v)))
    with (String c ((k' +:+ " ") +:+ String "=" (rstrip (String " " v))))
    in Hstrip, Hopt.
  cbv zeta. rewrite Hstrip.
  rewrite not_commented by done.
  rewrite bool_decide_eq_false_2 by done.
  rewrite first_nonspace_solid by done.
  rewrite not_continued.
  rewrite Hopt.
  assert (SECTCRE_match
            (String c ((k' +:+ " ") +:+ String "=" (rstrip (String " " v))))
          = None) as ->.
  { simpl. by destruct c as [[] [] [] [] [] [] [] []]. }
  cbn [cursect e added_options _sections _defaults added_sections optname indent_level].
  rewrite reading_cursect.
  rewrite plain_key_rstrip by done.
  rewrite bool_decide_eq_false_2 by (by apply pair_not_added).
  rewrite (strip_of_trimmed v Hv).
  unfold reading, cursect_set. cbn [cursor_name _sections _defaults added_sections added_options cursect optname indent_level e].
  f_equal. f_equal.
  - rewrite dict_alter_snoc by done. f_equal. f_equal. f_equal.
    by apply dict_set_fresh.
  - by rewrite !fmap_app.
  - rewrite !option_pairs_snoc, fmap_app, app_assoc. simpl.
    by rewrite reverse_snoc.
  - rewrite fmap_app. simpl. by rewrite last_snoc.
  - rewrite last_snoc. simpl. rewrite fmap_app. simpl. by rewrite last_snoc.
Qed.

Lemma reading_optname secs name (os : list (string * list string)) k vs :
  optname (reading (secs ++ [(name, os ++ [(k, vs)])])) = Some k.
Proof.
  unfold reading. cbn [optname]. rewrite last_snoc. simpl.
  rewrite fmap_app. simpl. by rewrite last_snoc.
Qed.

Lemma strip_blank_line : strip (nl EmptyString) = EmptyString.
Proof. reflexivity. Qed.

Lemma read_blank_after_option secs name (os : list (string * list string)) k vs :
  name ∉ secs.*1 -> k ∉ os.*1 -> k <> EmptyString ->
  read_line (reading (secs ++ [(name, os ++ [(k, vs)])])) (nl EmptyString)
  = Some (reading (secs ++ [(name, os ++ [(k, vs ++ [EmptyString])])])).
Proof.
  intros Hname Hk Hne. unfold read_line. rewrite strip_blank_line.
  cbn [startswith orb]. rewrite bool_decide_eq_true_2 by done.
  rewrite reading_cursect, reading_optname.
  destruct k as [|c k']; [done|].
  unfold reading, cursect_append.
  cbn [_sections _defaults added_sections added_options cursect optname
       indent_level e].
  f_equal. f_equal.
  - rewrite dict_alter_snoc by done. f_equal. f_equal. f_equal.
    by rewrite dict_alter_snoc.
  - rewrite !fmap_app. by simpl.
  - rewrite !option_pairs_snoc, !fmap_app. by simpl.
  - rewrite !fmap_app. by simpl.
  - rewrite !last_snoc. simpl. rewrite !fmap_app. simpl.
    by rewrite !last_snoc.
Qed.

Lemma read_blank_after_header secs name :
  read_line (reading (secs ++ [(name, [])])) (nl EmptyString)
  = Some (reading (secs ++ [(name, [])])).
Proof.
  unfold read_line. rewrite strip_blank_line.
  cbn [startswith orb]. rewrite bool_decide_eq_true_2 by done.
  rewrite reading_cursect.
  assert (optname (reading (secs ++ [(name, [])])) = None) as ->; [|done].
  unfold reading. cbn [optname]. by rewrite last_snoc.
Qed.

Lemma read_options secs name (os : list (string * list string))
    (kvs : list (string * string)) :
  name ∉ secs.*1 ->
  NoDup (os.*1 ++ kvs.*1) ->
  Forall (fun kv => plain_key kv.1 = true /\ trimmed kv.2) kvs ->
  read_lines (reading (secs ++ [(name, os)])) (nl <$> (option_line <$> kvs))
  = Some (reading (secs ++ [(name, os ++ raw_options kvs)])).
Proof.
  intros Hname. revert os.
  induction kvs as [|[k v] kvs IH]; intros os Hnd Hgood.
  - simpl. by rewrite app_nil_r.
  - apply Forall_cons in Hgood as [[Hk Hv] Hgood].
    simpl in Hnd. apply NoDup_app in Hnd as (Hos & Hdis & Hkvs).
    apply NoDup_cons in Hkvs as [Hknew Hkvs].
    cbn [fmap list_fmap read_lines]. unfold option_line at 1. cbn [fst snd].
    rewrite read_option; try done.
    + rewrite IH; try done.
      * unfold raw_options. cbn [fmap list_fmap]. simpl.
        by rewrite <- app_assoc.
      * rewrite fmap_app. simpl. rewrite <- app_assoc. simpl.
        apply NoDup_app. split_and!; [done| |by apply NoDup_cons].
        intros x Hx. by apply Hdis.
    + intros Hin. apply (Hdis k Hin). by left.
Qed.

Lemma read_lines_app st ls ls' :
  read_lines st (ls ++ ls')
  = match read_lines st ls with
    | Some st' => read_lines st' ls'
    | None => None
    end.
Proof.
  revert st. induction ls as [|l ls IH]; intros st; [done|]. simpl.
  destruct (read_line st l); [apply IH|done].
Qed.

Lemma plain_key_nonempty k : plain_key k = true -> k <> EmptyString.
Proof. by destruct k. Qed.

Lemma read_blank_closes secs name (kvs : list (string * string)) :
  name ∉ secs.*1 ->
  NoDup kvs.*1 ->
  Forall (fun kv => plain_key kv.1 = true /\ trimmed kv.2) kvs ->
  read_line (reading (secs ++ [(name, raw_options kvs)])) (nl EmptyString)
  = Some (reading (secs ++ [closed_block (name, kvs)])).
Proof.
  intros Hname Hnd Hgood. unfold closed_block. cbn [fst snd].
  destruct kvs as [|kv kvs _] using rev_ind.
  - apply read_blank_after_header.
  - unfold raw_options. rewrite fmap_app. cbn [fmap list_fmap].
    rewrite on_last_snoc. cbn [fst snd].
    rewrite fmap_app in Hnd. apply NoDup_app in Hnd as (_ & Hdis & _).
    apply Forall_app in Hgood as [_ [[Hk _] _]%Forall_cons].
    apply read_blank_after_option; [done| |by apply plain_key_nonempty].
    rewrite <- list_fmap_compose.
    intros Hin. apply (Hdis kv.1 Hin). by left.
Qed.

Lemma read_block secs b :
  good_block b -> b.1 ∉ secs.*1 ->
  read_lines (reading secs) (nl <$> block_lines b)
  = Some (reading (secs ++ [closed_block b])).
Proof.
  destruct b as [name kvs]. intros (Hne & Hdef & Hnd & Hgood) Hnew.
  cbn [fst snd] in *. unfold block_lines. cbn [fst snd fmap list_fmap read_lines].
  rewrite read_header by done.
  rewrite fmap_app, read_lines_app.
  rewrite (read_options secs name [] kvs) by done.
  cbn [app fmap list_fmap read_lines].
  by rewrite read_blank_closes.
Qed.

Lemma read_blocks secs (bs : list block) :
  Forall good_block bs ->
  NoDup (secs.*1 ++ bs.*1) ->
  read_lines (reading secs) (nl <$> concat (block_lines <$> bs))
  = Some (reading (secs ++ (closed_block <$> bs))).
Proof.
  revert secs. induction bs as [|b bs IH]; intros secs Hgood Hnd.
  - simpl. by rewrite app_nil_r.
  - apply Forall_cons in Hgood as [Hb Hgood].
    cbn [fmap list_fmap concat]. rewrite fmap_app, read_lines_app.
    rewrite read_block; [|done|].
    + rewrite IH; [|done|].
      * by rewrite <- app_assoc.
      * rewrite fmap_app. simpl. rewrite <- app_assoc. exact Hnd.
    + simpl in Hnd. apply NoDup_app in Hnd as (_ & Hdis & Hbs).
      intros Hin. apply (Hdis b.1 Hin). by left.
Qed.

Lemma rstrip_keeps_solid l : solid l -> solid (rstrip l).
Proof.
  destruct l as [|c s]; [done|]. simpl. intros Hc.
  destruct (rstrip s); [by rewrite Hc|done].
Qed.

Lemma read_line_rstrip st l :
  solid l -> read_line st (nl (rstrip l)) = read_line st (nl l).
Proof.
  intros Hl. unfold read_line. rewrite !strip_nl.
  assert (strip (rstrip l) = strip l) as ->.
  { unfold strip. by rewrite rstrip_rstrip. }
  rewrite (first_nonspace_solid (nl (rstrip l)))
    by (by apply solid_app, rstrip_keeps_solid).
  by rewrite (first_nonspace_solid (nl l)) by (by apply solid_app).
Qed.

Lemma option_line_solid k v : plain_key k = true -> solid (option_line (k, v)).
Proof.
  intros Hk. destruct (plain_key_first k Hk) as (c & k' & -> & Hc & _).
  exact Hc.
Qed.

Lemma read_last_block secs name (kvs : list (string * string)) k v :
  good_block (name, kvs ++ [(k, v)]) -> name ∉ secs.*1 ->
  read_lines (reading secs)
    (nl <$> (("[" +:+ name +:+ "]")
             :: (option_line <$> kvs) ++ [rstrip (option_line (k, v))]))
  = Some (reading (secs ++ [(name, raw_options (kvs ++ [(k, v)]))])).
Proof.
  intros (Hne & Hdef & Hnd & Hgood) Hnew. cbn [fst snd] in *.
  apply Forall_app in Hgood as [Hgood [[Hk Hv] _]%Forall_cons].
  cbn [fst snd] in *.
  rewrite fmap_app in Hnd.
  cbn [fmap list_fmap read_lines].
  rewrite read_header by done.
  rewrite fmap_app, read_lines_app.
  rewrite (read_options secs name [] kvs); [|done| |done].
  - cbn [app fmap list_fmap read_lines].
    rewrite read_line_rstrip by (by apply option_line_solid).
    unfold option_line. cbn [fst snd].
    rewrite read_option; try done.
    + unfold raw_options. rewrite fmap_app. done.
    + unfold raw_options. rewrite <- list_fmap_compose.
      apply NoDup_app in Hnd as (_ & Hdis & _).
      intros Hin. apply (Hdis k Hin). by left.
  - simpl. by apply NoDup_app in Hnd as (? & _ & _).
Qed.

(** The lines of the text that the page writes, before the text is
    stripped. *)
Lemma written_text (init : list block) name (kvs : list (string * string)) k v :
  plain_key k = true ->
  strip (join_lines (["# Config.ini File"; EmptyString]
                     ++ concat (block_lines <$> (init ++ [(name, kvs ++ [(k, v)])]))))
  +:+ String LF EmptyString
  = concat_lines
      (["# Config.ini File"; EmptyString]
       ++ concat (block_lines <$> init)
       ++ ("[" +:+ name +:+ "]")
          :: (option_line <$> kvs) ++ [rstrip (option_line (k, v))]).
Proof.
  intros Hk.
  set (P := ["# Config.ini File"; EmptyString]
            ++ concat (block_lines <$> init)
            ++ ("[" +:+ name +:+ "]") :: (option_line <$> kvs)).
  assert (["# Config.ini File"; EmptyString]
          ++ concat (block_lines <$> (init ++ [(name, kvs ++ [(k, v)])]))
          = (P ++ [option_line (k, v)]) ++ [EmptyString]) as ->.
  { unfold P. rewrite fmap_app, concat_app. simpl. rewrite app_nil_r.
    unfold block_lines at 2. cbn [fst snd]. rewrite fmap_app. simpl.
    rewrite <- ?app_assoc. simpl. rewrite <- ?app_assoc. done. }
  assert (["# Config.ini File"; EmptyString]
          ++ concat (block_lines <$> init)
          ++ ("[" +:+ name +:+ "]")
             :: (option_line <$> kvs) ++ [rstrip (option_line (k, v))]
          = P ++ [rstrip (option_line (k, v))]) as ->.
  { unfold P. rewrite <- ?app_assoc. simpl. by rewrite <- ?app_assoc. }
  rewrite join_lines_snoc, sapp_nil_r, !concat_lines_app.
  cbn [concat_lines]. rewrite !sapp_nil_r.
  pose proof (option_line_solid k v Hk) as Hsolid.
  assert (rstrip (nl (option_line (k, v))) = rstrip (option_line (k, v)))
    as Hlast by (by apply rstrip_app_blank).
  assert (rstrip (option_line (k, v)) <> EmptyString) as Hne.
  { destruct (option_line (k, v)) as [|c s]; [done|]. by apply rstrip_solid. }
  unfold strip. rewrite rstrip_app_solid by (by rewrite Hlast).
  rewrite Hlast, lstrip_solid.
  - unfold nl. by rewrite sapp_assoc.
  - unfold P. done.
Qed.

Lemma join_raw (kvs : list (string * string)) :
  Forall (fun kv => trimmed kv.2) kvs -> join_options (raw_options kvs) = kvs.
Proof.
  intros Hv. unfold join_options, raw_options. rewrite <- list_fmap_compose.
  rewrite <- (list_fmap_id kvs) at 2. apply Forall_fmap_ext_1.
  eapply Forall_impl; [exact Hv|]. intros [k v] [_ Hr]. simpl in *.
  unfold join_value. simpl. by rewrite Hr.
Qed.

Lemma join_closed (kvs : list (string * string)) :
  Forall (fun kv => trimmed kv.2) kvs ->
  join_options (on_last (fun kv => (kv.1, kv.2 ++ [EmptyString])) (raw_options kvs))
  = kvs.
Proof.
  intros Hv. destruct kvs as [|[k v] kvs _] using rev_ind; [done|].
  apply Forall_app in Hv as [Hinit [[_ Hr] _]%Forall_cons]. simpl in Hr.
  unfold raw_options. rewrite fmap_app. cbn [fmap list_fmap].
  rewrite on_last_snoc. unfold join_options. rewrite fmap_app.
  fold (raw_options kvs). fold (join_options (raw_options kvs)).
  rewrite join_raw by done. f_equal. simpl. f_equal. f_equal.
  unfold join_value.
  change (join_lines [v; EmptyString]) with (v +:+ String "010" EmptyString).
  rewrite rstrip_app_blank by done. exact Hr.
Qed.

Lemma good_block_values b :
  good_block b -> Forall (fun kv => trimmed kv.2) b.2.
Proof.
  intros (_ & _ & _ & Hgood). eapply Forall_impl; [exact Hgood|].
  by intros kv [_ ?].
Qed.

Lemma plain_key_one_line k : plain_key k = true -> one_line k.
Proof.
  unfold plain_key. intros [Hall _]%andb_true_iff.
  assert (forall c, isspace c = true -> has_char c k = false) as Hno.
  { intros c Hc. induction k as [|a k IH]; [done|]. simpl in *.
    apply andb_true_iff in Hall as [Ha Hall].
    apply andb_true_iff in Ha as [Ha _]. apply negb_true_iff in Ha.
    rewrite (IH Hall), orb_false_r. apply bool_decide_eq_false.
    intros ->. congruence. }
  split; by apply Hno.
Qed.

Lemma one_line_app a c : one_line a -> one_line c -> one_line (a +:+ c).
Proof.
  intros [Ha1 Ha2] [Hc1 Hc2]. split; by rewrite has_char_app, ?Ha1, ?Ha2.
Qed.

Lemma option_line_one_line k v :
  plain_key k = true -> one_line v -> one_line (option_line (k, v)).
Proof.
  intros Hk Hv. unfold option_line. cbn [fst snd].
  apply one_line_app; [by apply plain_key_one_line|].
  by apply (one_line_app " = ").
Qed.

Lemma block_lines_one_line b :
  good_block b -> one_line_block b -> Forall one_line (block_lines b).
Proof.
  destruct b as [name kvs]. intros (_ & _ & _ & Hgood) [Hname Hvals].
  cbn [fst snd] in *. unfold block_lines. cbn [fst snd].
  apply Forall_cons. split.
  - apply (one_line_app "["); [done|]. by apply one_line_app.
  - apply Forall_app. split; [|by apply Forall_singleton].
    apply Forall_fmap. apply Forall_forall. intros [k v] Hin.
    rewrite Forall_forall in Hgood, Hvals.
    apply option_line_one_line; [by apply (Hgood _ Hin)|by apply (Hvals _ Hin)].
Qed.

(** What the parser holds after reading the text that the page writes
    for the sections [init] and a last section: these sections, names,
    keys and values as they were written. *)
Lemma read_written (init : list block) name (kvs : list (string * string)) k v :
  Forall good_block (init ++ [(name, kvs ++ [(k, v)])]) ->
  Forall one_line_block (init ++ [(name, kvs ++ [(k, v)])]) ->
  NoDup (init ++ [(name, kvs ++ [(k, v)])]).*1 ->
  read (Text (strip (join_lines
                       (["# Config.ini File"; EmptyString]
                        ++ concat (block_lines
                                   <$> (init ++ [(name, kvs ++ [(k, v)])]))))
              +:+ String LF EmptyString))
  = Some {| cp_sections := init ++ [(name, kvs ++ [(k, v)])];
            cp_defaults := [] |}.
Proof.
  intros Hgood Hone Hnd.
  apply Forall_app in Hgood as [Hginit [Hglast _]%Forall_cons].
  apply Forall_app in Hone as [Hoinit [Holast _]%Forall_cons].
  assert (plain_key k = true /\ trimmed v) as [Hk Hv].
  { destruct Hglast as (_ & _ & _ & Hl). cbn [snd] in Hl.
    by apply Forall_app in Hl as [_ [? _]%Forall_cons]. }
  unfold read. rewrite written_text by done.
  rewrite readlines_concat.
  - unfold _read. cbn [app fmap list_fmap read_lines].
    assert (read_line fresh (nl "# Config.ini File") = Some (reading []))
      as -> by reflexivity.
    assert (read_line (reading []) (nl EmptyString) = Some (reading []))
      as -> by reflexivity.
    rewrite fmap_app, read_lines_app.
    rewrite (read_blocks [] init); [|done|].
    + rewrite read_last_block; [|done|].
      * unfold reading. cbn [e _sections _defaults app].
        rewrite fmap_app. cbn [fmap list_fmap fst snd].
        f_equal. f_equal. f_equal.
        -- rewrite <- list_fmap_compose.
           rewrite <- (list_fmap_id init) at 2. apply Forall_fmap_ext_1.
           eapply Forall_impl; [exact Hginit|]. intros [n os] Hb. simpl.
           f_equal. apply join_closed. by apply (good_block_values (n, os)).
        -- f_equal. f_equal. apply join_raw.
           by apply (good_block_values (name, kvs ++ [(k, v)])).
      * simpl. rewrite fmap_app in Hnd. apply NoDup_app in Hnd as (_ & Hdis & _).
        rewrite <- list_fmap_compose. intros Hin.
        apply (Hdis name); [|by left].
        clear -Hin. induction init as [|b init IH]; [done|].
        simpl in *. apply elem_of_cons in Hin as [->|Hin]; [by left|].
        right. by apply IH.
    + simpl. rewrite fmap_app in Hnd. by apply NoDup_app in Hnd as (? & _ & _).
  - apply Forall_app. split; [by repeat constructor|].
    apply Forall_app. split.
    + apply Forall_concat. apply Forall_fmap. apply Forall_forall.
      intros b Hb. rewrite Forall_forall in Hginit, Hoinit.
      apply block_lines_one_line; [by apply Hginit|by apply Hoinit].
    + pose proof (block_lines_one_line _ Hglast Holast) as Hlines.
      unfold block_lines in Hlines. cbn [fst snd] in Hlines.
      apply Forall_cons in Hlines as [Hhead Hrest].
      apply Forall_cons. split; [done|].
      rewrite fmap_app in Hrest. cbn [fmap list_fmap] in Hrest.
      rewrite <- app_assoc in Hrest.
      apply Forall_app in Hrest as [Hopts Hlast].
      apply Forall_app. split; [done|].
      apply Forall_cons in Hlast as [[Hl1 Hl2] _].
      apply Forall_singleton. split; by apply has_char_rstrip.
Qed.
End reading_more.

Section building.
Import config_ini.
#[local] Arguments String.append : simpl nomatch.
Implicit Types (form : list (string * string)) (s k : string).

Lemma dict_get_alter {V} (f : V -> V) k k' (d : list (string * V)) :
  dict_get k (dict_alter f k' d)
  = if decide (k = k') then f <$> dict_get k d else dict_get k d.
Proof.
  induction d as [|[k0 v0] d IH]; simpl.
  - by case_decide.
  - destruct (decide (k' = k0)) as [->|Hne]; simpl.
    + by destruct (decide (k = k0)).
    + rewrite IH. destruct (decide (k = k0)) as [->|Hk]; [|done].
      by destruct (decide (k0 = k')) as [<-|].
Qed.

Lemma dict_alter_keys {V} (f : V -> V) k (d : list (string * V)) :
  (dict_alter f k d).*1 = d.*1.
Proof.
  induction d as [|[k0 v0] d IH]; [done|]. cbn [dict_alter].
  case_decide; csimpl; [done|]. by rewrite IH.
Qed.

Lemma dict_get_fmap_values {V W} (g : V -> W) k (d : list (string * V)) :
  dict_get k ((fun kv => (kv.1, g kv.2)) <$> d) = g <$> dict_get k d.
Proof.
  induction d as [|[k0 v0] d IH]; simpl; [done|]. by case_decide.
Qed.

Lemma foldl_fmap_list {A B C} (f : C -> B -> C) (g : A -> B) c (l : list A) :
  foldl (fun c x => f c (g x)) c l = foldl f c (g <$> l).
Proof. revert c. induction l as [|x l IH]; intros c; [done|]. simpl. apply IH. Qed.

Lemma by_section_spec form :
  NoDup (by_section form).*1
  /\ forall s k,
       default EmptyString
         (dict_get k (dict_of_pairs (default [] (dict_get s (by_section form)))))
       = submitted form s k.
Proof.
  induction form as [|[name value] form [IHnd IH]] using rev_ind.
  - split; [constructor|done].
  - assert (forall s k,
      submitted (form ++ [(name, value)]) s k
      = if decide (decode_field name = Some (s, k))
        then strip value else submitted form s k) as Hsub.
    { intros s k. unfold submitted. by rewrite foldl_app. }
    assert (by_section (form ++ [(name, value)])
            = match decode_field name with
              | None => by_section form
              | Some (section, key) =>
                  dict_alter (fun pairs => pairs ++ [(key, strip value)]) section
                    (if dict_contains section (by_section form)
                     then by_section form
                     else dict_set section [] (by_section form))
              end) as ->.
    { unfold by_section. by rewrite foldl_app. }
    destruct (decode_field name) as [[s' k']|] eqn:Hdec.
    + split.
      * rewrite dict_alter_keys.
        destruct (dict_contains s' (by_section form)); [done|].
        by apply dict_set_NoDup.
      * intros s k. rewrite Hsub, <- IH.
        rewrite dict_get_alter.
        destruct (decide (s = s')) as [->|Hs].
        -- assert (dict_get s'
                     (if dict_contains s' (by_section form) then by_section form
                      else dict_set s' [] (by_section form))
                   = Some (default [] (dict_get s' (by_section form)))) as ->.
           { unfold dict_contains. case_bool_decide as Hin.
             - destruct Hin as [ps Hps]. by rewrite Hps.
             - rewrite dict_get_set, decide_True by done.
               apply eq_None_not_Some in Hin. by rewrite Hin. }
           cbn [fmap option_fmap option_map default id].
           rewrite dict_of_pairs_snoc, dict_get_set.
           destruct (decide (k = k')) as [->|Hk].
           ++ by rewrite decide_True.
           ++ rewrite decide_False; [done|]. by intros [= ?].
        -- rewrite decide_False by (by intros [= ?]).
           destruct (dict_contains s' (by_section form)); [done|].
           by rewrite dict_get_set, decide_False.
    + split; [done|]. intros s k. by rewrite Hsub, <- IH.
Qed.

Lemma fold_lines {A B} (h : A -> string) (g : A -> B -> string)
    (opts : A -> list B) (schema : list A) (lines : list string) :
  foldl (fun lines sect =>
           foldl (fun lines o => lines ++ [g sect o]) (lines ++ [h sect])
             (opts sect) ++ [EmptyString])
        lines schema
  = lines ++ concat ((fun sect => h sect :: (g sect <$> opts sect) ++ [EmptyString])
                     <$> schema).
Proof.
  assert (forall sect ls l0,
    foldl (fun lines o => lines ++ [g sect o]) l0 ls = l0 ++ (g sect <$> ls))
    as Hinner.
  { intros sect ls. induction ls as [|o ls IH]; intros l0; simpl.
    - by rewrite app_nil_r.
    - rewrite IH. by rewrite <- app_assoc. }
  revert lines. induction schema as [|sect schema IH]; intros lines; simpl.
  - by rewrite app_nil_r.
  - rewrite IH, Hinner. by rewrite <- !app_assoc.
Qed.

(** The text that [build_ini_from_form] returns. *)
Lemma build_ini_from_form_text form :
  build_ini_from_form form
  = strip (join_lines (["# Config.ini File"; EmptyString]
                       ++ concat (block_lines <$> written form)))
    +:+ String LF EmptyString.
Proof.
  unfold build_ini_from_form. fold (by_section form).
  destruct (by_section_spec form) as [Hnd Hval].
  set (vbsk := foldl (fun d (item : string * list (string * string)) =>
                        dict_set item.1 (dict_of_pairs item.2) d)
                     [] (by_section form)).
  assert (forall s k,
    default EmptyString (dict_get k (default [] (dict_get s vbsk)))
    = submitted form s k) as Hget.
  { intros s k. rewrite <- Hval. unfold vbsk.
    rewrite (foldl_fmap_list (fun d kv => dict_set kv.1 kv.2 d)
               (fun item : string * list (string * string) =>
                  (item.1, dict_of_pairs item.2))).
    fold (dict_of_pairs
            ((fun item : string * list (string * string) =>
                (item.1, dict_of_pairs item.2)) <$> by_section form)).
    rewrite dict_of_pairs_nodup by (by rewrite <- list_fmap_compose).
    rewrite dict_get_fmap_values.
    by destruct (dict_get s (by_section form)). }
  f_equal. f_equal. f_equal.
  rewrite (fold_lines (fun sect => "[" +:+ Sect.name sect +:+ "]")
             (fun sect o =>
                Opt.key o +:+ " = "
                +:+ default EmptyString
                      (dict_get (Opt.key o)
                         (default [] (dict_get (Sect.name sect) vbsk))))
             Sect.options).
  f_equal. unfold written. rewrite <- list_fmap_compose.
  apply (f_equal (@concat string)).
  apply list_fmap_ext. intros i sect _. simpl.
  unfold block_lines. cbn [fst snd]. f_equal. f_equal.
  rewrite <- list_fmap_compose. apply list_fmap_ext. intros j o _. simpl.
  unfold option_line. cbn [fst snd]. by rewrite Hget.
Qed.
End building.

Section round_trip.
Import configparser config_ini.
#[local] Arguments String.append : simpl nomatch.
Implicit Types (form : list (string * string)) (blocks : list block).

Lemma dict_get_elem {V} k (v : V) (d : list (string * V)) :
  NoDup d.*1 -> (k, v) ∈ d -> dict_get k d = Some v.
Proof.
  induction d as [|[k0 v0] d IH]; intros Hnd Hin; [by apply elem_of_nil in Hin|].
  csimpl in Hnd. apply NoDup_cons in Hnd as [Hnot Hnd]. simpl.
  apply elem_of_cons in Hin as [[= -> ->]|Hin].
  - by rewrite decide_True.
  - rewrite decide_False; [by apply IH|].
    intros ->. apply Hnot. by apply (list_elem_of_fmap_2 fst _ (k0, v)).
Qed.

Lemma strip_inline_comment_clean v :
  has_char "#" v = false -> trimmed v -> _strip_inline_comment v = v.
Proof.
  intros Hc Ht. unfold _strip_inline_comment. case_bool_decide; [done|].
  rewrite before_char_absent by done. by apply strip_of_trimmed.
Qed.

(** What [parse_config] makes of a parser without defaults whose section
    names are distinct, and the keys within each section. *)
Lemma parse_config_of_blocks path blocks :
  exists_ path = true ->
  read path = Some {| cp_sections := blocks; cp_defaults := [] |} ->
  blocks <> [] ->
  NoDup blocks.*1 ->
  Forall (fun b => NoDup b.2.*1) blocks ->
  parse_config path = section_of_block <$> blocks.
Proof.
  intros Hex Hread Hne Hnd Hkeys. unfold parse_config. rewrite Hex, Hread.
  cbn [negb]. unfold sections. cbn [cp_sections].
  rewrite <- list_fmap_compose.
  assert ((fun section =>
             {| Sect.name := section;
                Sect.form_section := _section_to_form section;
                Sect.hint := _get_section_hint section;
                Sect.options :=
                  (fun key =>
                     {| Opt.key := key;
                        Opt.value :=
                          _strip_inline_comment
                            (get {| cp_sections := blocks; cp_defaults := [] |}
                               section key);
                        Opt.is_password := _is_password_key key;
                        Opt.form_section := _section_to_form section;
                        Opt.hint := _get_option_hint section key |})
                  <$> options {| cp_sections := blocks; cp_defaults := [] |}
                        section |}) ∘ fst <$> blocks
          = section_of_block <$> blocks) as ->.
  { apply Forall_fmap_ext_1. apply Forall_forall. intros [name kvs] Hin.
    rewrite Forall_forall in Hkeys. specialize (Hkeys _ Hin).
    cbn [fst snd compose] in *. unfold section_of_block. cbn [fst snd].
    f_equal. unfold options, get. cbn [cp_sections cp_defaults foldl].
    rewrite (dict_get_elem name kvs) by done. cbn [default].
    rewrite <- list_fmap_compose. apply Forall_fmap_ext_1.
    apply Forall_forall. intros [k v] Hkv. cbn [fst snd compose].
    unfold option_of_pair. cbn [fst snd].
    by rewrite (dict_get_elem k v). }
  destruct blocks; [done|]. done.
Qed.

Lemma submitted_trimmed form s k : trimmed (submitted form s k).
Proof.
  unfold submitted.
  induction form as [|[name value] form IH] using rev_ind; [done|].
  rewrite foldl_app. cbn [foldl fst snd]. case_decide; [|done].
  apply strip_trimmed.
Qed.

(** The sections, keys and names of the registry are such that the page
    writes them as they are. *)
Lemma registry_names :
  Forall (fun sect =>
            Sect.name sect <> EmptyString /\ Sect.name sect <> "DEFAULT"
            /\ one_line (Sect.name sect)
            /\ Forall (fun o => plain_key (Opt.key o) = true) (Sect.options sect))
         _default_sections_structure.
Proof. repeat constructor; done. Qed.

Lemma written_names form :
  (written form).*1 = Sect.name <$> _default_sections_structure.
Proof. unfold written. by rewrite <- list_fmap_compose. Qed.

Lemma written_good form :
  Forall good_block (written form).
Proof.
  unfold written. apply Forall_fmap.
  pose proof registry_well_formed as [_ Hkeys].
  pose proof registry_names as Hnames.
  rewrite Forall_forall in Hkeys. rewrite Forall_forall in Hnames.
  apply Forall_forall.
  intros sect Hin. destruct (Hnames _ Hin) as (Hn1 & Hn2 & _ & Hplain).
  unfold good_block. cbn [compose fst snd]. split_and!; [done|done| |].
  - rewrite <- list_fmap_compose. exact (Hkeys _ Hin).
  - apply Forall_fmap. eapply Forall_impl; [exact Hplain|].
    intros o Ho. cbn [compose fst snd]. split; [done|].
    apply submitted_trimmed.
Qed.

Lemma elem_of_registry_pairs sect o :
  sect ∈ _default_sections_structure -> o ∈ Sect.options sect ->
  (Sect.name sect, Opt.key o) ∈ registry_pairs.
Proof.
  intros Hs Ho. unfold registry_pairs. apply list_elem_of_bind.
  exists sect. split; [|done].
  by apply (list_elem_of_fmap_2 (fun o => (Sect.name sect, Opt.key o))).
Qed.

Lemma written_one_line form :
  Forall (fun p => one_line (submitted form p.1 p.2)) registry_pairs ->
  Forall one_line_block (written form).
Proof.
  intros Hv. unfold written. apply Forall_fmap.
  pose proof registry_names as Hnames.
  rewrite Forall_forall in Hv. rewrite Forall_forall in Hnames.
  apply Forall_forall.
  intros sect Hin. destruct (Hnames _ Hin) as (_ & _ & Hone & _).
  split; [done|]. cbn [compose fst snd]. apply Forall_fmap.
  apply Forall_forall. intros o Ho. cbn [compose fst snd].
  by apply (Hv (Sect.name sect, Opt.key o)), elem_of_registry_pairs.
Qed.

(** What [parse_config] returns for the text written for a form. *)
Lemma parse_config_written form :
  Forall (fun p => one_line (submitted form p.1 p.2)) registry_pairs ->
  parse_config (Text (build_ini_from_form form))
  = section_of_block <$> written form.
Proof.
  intros Hv.
  pose proof (written_good form) as Hgood.
  pose proof (written_one_line form Hv) as Hone.
  pose proof registry_well_formed as [Hnames Hkeys].
  assert (NoDup (written form).*1) as Hnd by (by rewrite written_names).
  apply parse_config_of_blocks; [done| |done|done|].
  - rewrite build_ini_from_form_text.
    assert (written form
            = ((fun sect =>
                  (Sect.name sect,
                   (fun o => (Opt.key o,
                              submitted form (Sect.name sect) (Opt.key o)))
                   <$> Sect.options sect))
               <$> take 5 _default_sections_structure)
              ++ [("TimeZone",
                   [] ++ [("timezone", submitted form "TimeZone" "timezone")])])
      as Hshape by reflexivity.
    rewrite Hshape in Hgood, Hone, Hnd |- *.
    by apply read_written.
  - eapply Forall_impl; [exact Hgood|]. by intros b (_ & _ & ? & _).
Qed.
End round_trip.

Section round_trip_merge.
Import configparser config_ini.
#[local] Arguments String.append : simpl nomatch.
Implicit Types (form : list (string * string)).

Lemma registry_pairs_shown :
  Forall (fun p => is_Some (shown_value p.1 p.2 _default_sections_structure))
         registry_pairs.
Proof. apply (bool_decide_unpack _). by vm_compute. Qed.

Lemma shown_value_with_submitted form name key :
  shown_value name key (with_submitted form <$> _default_sections_structure)
  = match shown_value name key _default_sections_structure with
    | Some _ => Some (submitted form name key)
    | None => None
    end.
Proof.
  rewrite !shown_value_by_key.
  rewrite (dict_get_mapped Sect.name (with_submitted form)) by done.
  destruct (dict_get name
              ((fun s => (Sect.name s, s)) <$> _default_sections_structure))
    as [sect|] eqn:Hsect; [|done].
  assert (Sect.name sect = name) as Hname.
  { clear -Hsect. induction _default_sections_structure as [|x l IH]; [done|].
    csimpl in Hsect. case_decide; [by injection Hsect as <-|by apply IH]. }
  csimpl.
  rewrite (dict_get_mapped Opt.key
             (fun o => Opt.set_value
                         (submitted form (Sect.name sect) (Opt.key o)) o))
    by done.
  destruct (dict_get key ((fun o => (Opt.key o, o)) <$> Sect.options sect))
    as [o|] eqn:Ho; [|done].
  assert (Opt.key o = key) as Hkey.
  { clear -Ho. induction (Sect.options sect) as [|x l IH]; [done|].
    csimpl in Ho. case_decide; [by injection Ho as <-|by apply IH]. }
  csimpl. by rewrite Hname, Hkey.
Qed.

(** The merge of what [parse_config] reads from the text written for a
    form. *)
Lemma merge_written form :
  Forall (fun p => has_char "#" (submitted form p.1 p.2) = false)
         registry_pairs ->
  _merge_parsed_with_schema (section_of_block <$> written form)
    _default_sections_structure
  = with_submitted form <$> _default_sections_structure.
Proof.
  intros Hv. pose proof registry_well_formed as [Hnames Hkeys].
  rewrite merge_by_section by done.
  apply Forall_fmap_ext_1. apply Forall_forall. intros sect Hin.
  pose proof registry_entries as Hreg.
  rewrite Forall_forall in Hreg. destruct (Hreg _ Hin) as (Hfs & Hhint & Hofs).
  rewrite Forall_forall in Hkeys. specialize (Hkeys _ Hin).
  unfold merged_section, with_submitted. rewrite <- Hfs, <- Hhint. f_equal.
  assert (options_of (section_of_block <$> written form) (Sect.name sect)
          = option_of_pair (Sect.name sect)
            <$> ((fun o => (Opt.key o,
                            submitted form (Sect.name sect) (Opt.key o)))
                 <$> Sect.options sect)) as ->.
  { unfold options_of.
    assert (Sect.name <$> (section_of_block <$> written form)
            = Sect.name <$> _default_sections_structure) as Hsame.
    { unfold written. by rewrite <- !list_fmap_compose. }
    assert (NoDup ((fun s => (Sect.name s, s))
                   <$> (section_of_block <$> written form)).*1) as Hnd.
    { rewrite <- list_fmap_compose.
      change (NoDup (Sect.name <$> (section_of_block <$> written form))).
      by rewrite Hsame. }
    rewrite dict_of_pairs_nodup by done.
    rewrite (dict_get_elem (Sect.name sect)
               (section_of_block
                  (Sect.name sect,
                   (fun o => (Opt.key o,
                              submitted form (Sect.name sect) (Opt.key o)))
                   <$> Sect.options sect))); [done|done|].
    - unfold written. rewrite <- !list_fmap_compose.
      by apply (list_elem_of_fmap_2
                  (fun s : Sect.t =>
                     (Sect.name s,
                      section_of_block
                        (Sect.name s,
                         (fun o => (Opt.key o,
                                    submitted form (Sect.name s) (Opt.key o)))
                         <$> Sect.options s)))). }
  unfold fill. rewrite <- list_fmap_compose.
  apply Forall_fmap_ext_1. apply Forall_forall. intros o Ho.
  rewrite Forall_forall in Hofs. specialize (Hofs _ Ho).
  rewrite Forall_forall in Hv.
  specialize (Hv _ (elem_of_registry_pairs sect o Hin Ho)). cbn [fst snd] in Hv.
  cbn [compose].
  rewrite last_value_by_key
    by (by rewrite <- !list_fmap_compose).
  rewrite (dict_get_elem (Opt.key o)
             (option_of_pair (Sect.name sect)
                (Opt.key o, submitted form (Sect.name sect) (Opt.key o)))).
  - unfold option_of_pair. cbn [fst snd Opt.value].
    rewrite strip_inline_comment_clean
      by (done || apply submitted_trimmed).
    rewrite Hfs, <- Hofs. by destruct o.
  - by rewrite <- !list_fmap_compose.
  - rewrite <- !list_fmap_compose.
    by apply (list_elem_of_fmap_2
                (fun x : Opt.t =>
                   (Opt.key x,
                    option_of_pair (Sect.name sect)
                      (Opt.key x, submitted form (Sect.name sect) (Opt.key x))))).
Qed.

(** C3 (amended). Take a form whose values for the pairs of the registry,
    once stripped, hold no [#] and no line break (line feed, carriage
    return); the value of a pair is that of the last field that stands for
    it, and the empty string when the form has no field for it. Then the
    text that [build_ini_from_form] writes for the form, read back by
    [parse_config_with_schema], is the registry with these stripped values:
    every section and key of the registry in its order, with its form
    name, hint and password flag, and for every pair of the registry the
    value shown is the stripped value that the form submitted. *)
Theorem form_values_survive_the_round_trip form :
  Forall (fun p => clean (submitted form p.1 p.2)) registry_pairs ->
  let served := parse_config_with_schema (Text (build_ini_from_form form)) in
  served = with_submitted form <$> _default_sections_structure
  /\ forall p, p ∈ registry_pairs ->
       shown_value p.1 p.2 served = Some (submitted form p.1 p.2).
Proof.
  intros Hclean served.
  assert (served = with_submitted form <$> _default_sections_structure) as Hs.
  { subst served. unfold parse_config_with_schema. cbn [exists_ negb].
    rewrite parse_config_written.
    - assert (exists b bs, section_of_block <$> written form = b :: bs)
        as (b & bs & Hshape) by (by eexists _, _).
      rewrite Hshape, <- Hshape. apply merge_written.
      eapply Forall_impl; [exact Hclean|]. by intros p [? _].
    - eapply Forall_impl; [exact Hclean|]. by intros p [_ ?]. }
  split; [done|]. intros [name key] Hp. rewrite Hs. cbn [fst snd].
  rewrite shown_value_with_submitted.
  pose proof registry_pairs_shown as Hshown. rewrite Forall_forall in Hshown.
  destruct (Hshown _ Hp) as [v Hv]. cbn [fst snd] in Hv. by rewrite Hv.
Qed.
End round_trip_merge.

Lemma form_values_survive_the_round_trip_witness :
  Forall (fun p => clean (submitted (example_form " Europe/Rome ") p.1 p.2))
    registry_pairs
  /\ supplies_every_pair (example_form " Europe/Rome ")
  /\ shown_value "TimeZone" "timezone"
       (config_ini.parse_config_with_schema
          (Text (config_ini.build_ini_from_form (example_form " Europe/Rome "))))
     = Some "Europe/Rome"
  /\ shown_value "Apple Photos" "album"
       (config_ini.parse_config_with_schema
          (Text (config_ini.build_ini_from_form (example_form " Europe/Rome "))))
     = Some "1".
Proof.
  assert (Forall (fun p => clean (submitted (example_form " Europe/Rome ") p.1 p.2))
            registry_pairs) as Hclean.
  { apply (bool_decide_unpack _). by vm_compute. }
  split; [exact Hclean|]. split.
  { apply (bool_decide_unpack _). by vm_compute. }
  destruct (form_values_survive_the_round_trip
              (example_form " Europe/Rome ") Hclean) as [_ Hshown].
  split.
  - apply (Hshown ("TimeZone", "timezone")).
    apply (bool_decide_unpack _). by vm_compute.
  - apply (Hshown ("Apple Photos", "album")).
    apply (bool_decide_unpack _). by vm_compute.
Defined.

(** C3 as stated fails: the form has a field for every pair of the
    registry and submits [a#b], a value without surrounding whitespace,
    for [timezone]; the page then shows [a]. [build_ini_from_form] writes
    the value as it is, and [parse_config] cuts every value at the first
    [#] ([_strip_inline_comment]). *)
Lemma a_comment_sign_cuts_the_value :
  supplies_every_pair (example_form "a#b")
  /\ (config_ini.form_field_name "TimeZone" "timezone", "a#b")
     ∈ example_form "a#b"
  /\ strip "a#b" = "a#b"
  /\ shown_value "TimeZone" "timezone"
       (config_ini.parse_config_with_schema
          (Text (config_ini.build_ini_from_form (example_form "a#b"))))
     = Some "a".
Proof.
  split_and!.
  - apply (bool_decide_unpack _). by vm_compute.
  - apply (bool_decide_unpack _). by vm_compute.
  - by vm_compute.
  - by vm_compute.
Qed.

(** A line break inside a value costs more than that value: the second
    half of [a], line feed, [b] is a line that the parser rejects, so
    [parse_config] falls back on the defaults and every submitted value is
    lost. *)
Lemma a_line_break_loses_every_value :
  let form := example_form (String "a" (String LF "b")) in
  supplies_every_pair form
  /\ submitted form "Apple Photos" "album" = "1"
  /\ config_ini.parse_config_with_schema
       (Text (config_ini.build_ini_from_form form))
     = config_ini._default_sections_structure.
Proof.
  split_and!.
  - apply (bool_decide_unpack _). by vm_compute.
  - by vm_compute.
  - by vm_compute.
Qed.
